(** * Tunnel connection core (uds/tunnel/Connection.cpp)

    A shallow embedding of the handshake codec, the handshake
    orchestration and the life cycle of [uds::tunnel::Connection],
    followed by the properties established about them. *)

From Stdlib Require Import ZArith List Bool Ascii String Lia.
Import ListNotations.
Open Scope Z_scope.

(** ** Machine integers

    [int] is 32 bits wide and [Int64] 64 bits wide; a value is kept as a
    [Z] and the wrap-around of the two's complement representation is
    written out where the source converts or shifts. *)

Definition wrap_signed (w : Z) (x : Z) : Z :=
  let m := x mod 2 ^ w in
  if m <? 2 ^ (w - 1) then m else m - 2 ^ w.

Definition to_int (x : Z) : Z := wrap_signed 32 x.
Definition to_int64 (x : Z) : Z := wrap_signed 64 x.
Definition to_uint (x : Z) : Z := x mod 2 ^ 32.

Definition UINT8_MAX : Z := 255.
Definition INT_MAX : Z := 2 ^ 31 - 1.
Definition LLONG_MAX : Z := 2 ^ 63 - 1.
Definition LLONG_MIN : Z := - 2 ^ 63.

(** ** The part of the C library the codec uses *)

Module CLib.

Definition code (c : ascii) : Z := Z.of_N (N_of_ascii c).
Definition chr (n : Z) : ascii := ascii_of_N (Z.to_N n).

Definition NUL : ascii := chr 0.

Definition between (lo hi n : Z) : bool := (lo <=? n) && (n <=? hi).

Definition isspace (c : ascii) : bool :=
  let n := code c in (n =? 32) || between 9 13 n.

Definition toupper (c : ascii) : ascii :=
  let n := code c in if between 97 122 n then chr (n - 32) else c.

Definition tolower (c : ascii) : ascii :=
  let n := code c in if between 65 90 n then chr (n + 32) else c.

(** Value of a hexadecimal digit, [None] for any other character. *)
Definition hex_value (c : ascii) : option Z :=
  let n := code c in
  if between 48 57 n then Some (n - 48)
  else if between 65 70 n then Some (n - 55)
  else if between 97 102 n then Some (n - 87)
  else None.

Definition isxdigit (c : ascii) : bool :=
  match hex_value c with Some _ => true | None => false end.

Fixpoint skip_space (s : list ascii) : list ascii :=
  match s with
  | c :: r => if isspace c then skip_space r else s
  | [] => []
  end.

Fixpoint scan_hex (acc : Z) (s : list ascii) : Z :=
  match s with
  | c :: r =>
      match hex_value c with
      | Some d => scan_hex (acc * 16 + d) r
      | None => acc
      end
  | [] => acc
  end.

Definition is_x (c : ascii) : bool := (code c =? 120) || (code c =? 88).

(** [strtoll(s, NULL, 16)]: leading white space, an optional sign, an
    optional [0x] prefix, then the longest run of hexadecimal digits; the
    result saturates at the bounds of [long long].  The scan stops at the
    first character that is not a digit, which the end of the list stands
    for. *)
Definition strtoll16 (s : list ascii) : Z :=
  let s1 := skip_space s in
  let '(neg, s2) :=
    match s1 with
    | c :: r => if code c =? 45 then (true, r)
                else if code c =? 43 then (false, r)
                else (false, s1)
    | [] => (false, s1)
    end in
  let s3 :=
    match s2 with
    | z :: x :: d :: r =>
        if (code z =? 48) && is_x x && isxdigit d then d :: r else s2
    | _ => s2
    end in
  let v := scan_hex 0 s3 in
  if neg then Z.max LLONG_MIN (- v) else Z.min LLONG_MAX v.

(** Upper-case hexadecimal digit of a nibble, as [%X] prints it. *)
Definition hex_upper (d : Z) : ascii :=
  if d <? 10 then chr (48 + d) else chr (55 + d).

(** The digits of [x], most significant first, without leading zeros. *)
Fixpoint hex_digits (fuel : nat) (x : Z) (acc : list Z) : list Z :=
  match fuel with
  | O => acc
  | S f =>
      let acc' := x mod 16 :: acc in
      if x / 16 =? 0 then acc' else hex_digits f (x / 16) acc'
  end.

(** [%0<width>X] applied to an [int] argument: the argument is read as
    an [unsigned int] and padded with zeros up to [width] digits. *)
Definition format_X (width : nat) (x : Z) : list ascii :=
  let ds := hex_digits 8 (to_uint x) [] in
  map hex_upper (repeat 0 (width - List.length ds) ++ ds).

End CLib.

Import CLib.

(** ** Arrays of characters *)

Fixpoint store (arr : list ascii) (i : nat) (c : ascii) : list ascii :=
  match arr, i with
  | [], _ => []
  | _ :: r, O => c :: r
  | a :: r, S j => a :: store r j c
  end.

Definition load (arr : list ascii) (i : nat) : ascii := nth i arr NUL.

Fixpoint write_at (arr : list ascii) (i : nat) (s : list ascii) : list ascii :=
  match s with
  | [] => arr
  | c :: r => write_at (store arr i c) (S i) r
  end.

(** [memcpy(dst, src + off, n)] into a fresh array of [n] characters. *)
Definition memcpy_from (src : list ascii) (off n : nat) : list ascii :=
  firstn n (skipn off src).

(** ** Streams

    Modelled from the spec: [Stream] and [MemoryStream] are declared
    outside [Connection.cpp]; a stream either accepts writes or refuses
    them, and a write appends the [count] characters found at [offset]. *)

Record Stream : Type := mkStream {
  CanWrite : bool;
  stream_data : list ascii
}.

Definition MemoryStream : Stream := mkStream true [].

Definition Stream_Write (s : Stream) (buf : list ascii) (offset count : Z)
  : bool * Stream :=
  if CanWrite s
  then (true, mkStream true
                (stream_data s ++
                 memcpy_from buf (Z.to_nat offset) (Z.to_nat count)))
  else (false, s).

Definition GetBuffer (s : Stream) : list ascii := stream_data s.
Definition GetPosition (s : Stream) : Z := Z.of_nat (List.length (stream_data s)).

(** ** The random source

    [RandomNext] and [RandomAscii] are external; what they return during
    one call of [PackPlaintextHeaders] is recorded here, in the order of
    the calls. *)

Record Draws : Type := mkDraws {
  draw_size : Z;              (* RandomNext(UINT8_MAX << 1, min(alignment, BufferSize)) *)
  draw_fill : nat -> ascii;   (* RandomAscii() for messages[i] *)
  draw_case : nat -> Z;       (* RandomNext(0, 1) for the i-th header character *)
  draw_last : ascii           (* RandomAscii() for messages[1 + offset] *)
}.

(** ** Handshake codec *)

Section Codec.

(** [uds::threading::Hosting::BufferSize], declared outside this file. *)
Variable BufferSize : Z.

Definition pack_key (messages_size : Z) : Z :=
  to_int (Z.lor (to_int (Z.shiftl messages_size 16)) messages_size).

Definition pack_header (messages_size channelId : Z) : list ascii :=
  format_X 4 messages_size ++
  format_X 8 (Z.lxor channelId (pack_key messages_size)).

Definition recase (r : Z) (ch : ascii) : ascii :=
  if r =? 0 then toupper ch else tolower ch.

(** The contents of [messages] when [stream.Write] is reached. *)
Definition pack_messages (d : Draws) (channelId : Z) : list ascii * Z :=
  let messages0 := repeat NUL (Z.to_nat BufferSize) in
  let messages_size := draw_size d in
  let messages1 :=
    fold_left (fun m i => store m i (draw_fill d i))
              (seq 0 (Z.to_nat messages_size)) messages0 in
  let text := pack_header messages_size channelId in
  let offset := Z.of_nat (List.length text) in
  let messages2 := write_at messages1 1 (text ++ [NUL]) in
  let messages3 :=
    fold_left (fun m i => store m (1 + i) (recase (draw_case d i) (load m (1 + i))))
              (seq 0 (Z.to_nat offset)) messages2 in
  (store messages3 (1 + Z.to_nat offset) (draw_last d), offset).

Definition PackPlaintextHeaders (d : Draws) (stream : Stream)
    (channelId alignment : Z) : bool * Stream :=
  if negb (CanWrite stream) then (false, stream)
  else
    let '(messages, offset) := pack_messages d channelId in
    if offset <? 1 then (false, stream)
    else Stream_Write stream messages 0 (draw_size d).

(** What [RandomNext] promises for the size drawn by
    [PackPlaintextHeaders]. *)
Definition size_drawn_in_range (d : Draws) (alignment : Z) : Prop :=
  Z.shiftl UINT8_MAX 1 <= draw_size d <= Z.min alignment BufferSize.

End Codec.

(** The source hands [strtoll] the arrays [len[4]] and [id[8]] without
    a terminator, so the scan does not end with the array: it runs on
    through the bytes that lie behind it in memory, up to the first one
    that is not a digit.  What those bytes are is not decided by the
    function; it depends on where the compiler has put the two arrays
    and on what the stack holds.  [behind_len] is what lies behind
    [len] when it is scanned, [behind_id] what lies behind [id]. *)
Record Adjacent : Type := mkAdjacent {
  behind_len : list ascii;
  behind_id : list ascii
}.

(** [buffer] is [None] for a null pointer. *)
Definition UnpackPlaintextLength (mem : Adjacent)
    (buffer : option (list ascii)) (offset length : Z) : Z :=
  match buffer with
  | None => 0
  | Some buf =>
      if (offset <? 0) || (length <? 1) then 0
      else
        let data := skipn (Z.to_nat offset) buf in
        if 13 >? length then 0
        else
          let len := memcpy_from data 1 4 in
          let messages_size := strtoll16 (len ++ behind_len mem) in
          if 13 >=? messages_size then 0
          else
            let id := memcpy_from data 5 8 in
            let channelid := strtoll16 (id ++ behind_id mem) in
            let channelid :=
              Z.lxor channelid
                (Z.lor (to_int64 (Z.shiftl messages_size 16)) messages_size) in
            Z.lor (to_int64 (Z.shiftl channelid 32)) messages_size
  end.

(** ** Collaborators of the Connection

    The logical transports, the TCP socket, the resolver and the timer
    service live outside [Connection.cpp].  A transport is known by its
    identity and by the asynchronous context it hands out; what the
    collaborators answer to a call is read from the environment. *)

Definition AsyncContext : Type := nat.
Definition AsyncTcpSocket : Type := nat.
Definition TimerHandle : Type := nat.

Record ITransmission : Type := mkTransmission {
  transmission_id : nat;
  transmission_context : option AsyncContext
}.

Record Endpoint : Type := mkEndpoint {
  is_unspecified : bool;
  is_multicast : bool;
  is_v4 : bool;
  endpoint_port : Z
}.

(** A default-constructed [tcp::endpoint]: the unspecified IPv4 address,
    port 0. *)
Definition default_endpoint : Endpoint := mkEndpoint true false true 0.

Definition MinPort : Z := 0.
Definition MaxPort : Z := 65535.

Record AppConfiguration : Type := mkConfiguration {
  Alignment : Z;
  KeepAlived : bool;
  Domain : bool;
  IP : string;
  Port : Z;
  Turbo : bool;
  FastOpen : bool
}.

(** The handlers given to the handshake functions: a handler of the
    caller, known by a name, or one of the two closures [HelloAsync]
    builds. *)
Inductive Handler : Type :=
| UserHandler (name : nat)
| HelloSent (transmission : ITransmission)
| HelloReceived (transmission : ITransmission) (callback : nat).

(** The closures handed to [ReadAsync] and [WriteAsync], one constructor
    per lambda of the source, with what each captures. *)
Inductive ReadCallback : Type :=
| OnInboundRead
| OnKeepAlivedRead (network : ITransmission)
| OnHandshakeClient (callback : Handler).

Inductive WriteCallback : Type :=
| OnOutboundWritten
| OnKeepAlivedWritten (network : ITransmission)
| OnHandshakeServer (callback : Handler) (channelId : Z).

Inductive Payload : Type :=
| HeaderBytes (bytes : list ascii)
| ForwardedBytes
| KeepAliveBytes.

(** What the code asks of its collaborators, in the order it asks. *)
Inductive Event : Type :=
| EvReadAsync (t : ITransmission) (cb : ReadCallback)
| EvWriteAsync (t : ITransmission) (data : Payload) (offset length : Z)
               (cb : WriteCallback)
| EvTransmissionClose (t : ITransmission)
| EvSocketOpen (socket : AsyncTcpSocket) (v4 : bool)
| EvSocketOptions (socket : AsyncTcpSocket) (no_delay fast_open : bool)
| EvAsyncConnect (socket : AsyncTcpSocket) (remoteEP : Endpoint)
| EvAsyncReadSome (socket : AsyncTcpSocket) (size : Z)
| EvAsyncWrite (socket : AsyncTcpSocket) (length : Z)
| EvClosesocket (socket : AsyncTcpSocket)
| EvGetAddressByHostName (host : string) (port : Z)
| EvResolverCancel
| EvSetTimeout (h : TimerHandle) (network : ITransmission) (delay : Z)
| EvClearTimeout (h : TimerHandle)
| EvDisposedEvent (handler : nat)
| EvHandler (name : nat) (success : bool) (channelId : Z)
| EvHelloCallback (name : nat) (success : bool).

(** The environment: the log of the calls made so far, the answers the
    collaborators will give (success or failure of a call that can fail,
    the numbers [RandomNext] returns, the endpoint an address denotes),
    and the timers that are scheduled and have neither fired nor been
    cancelled. *)
Record World : Type := mkWorld {
  trace : list Event;
  answers : nat -> bool;
  numbers : nat -> Z;
  ToEndPoint : string -> Z -> Endpoint;
  tick : nat;
  timers : list (TimerHandle * ITransmission)
}.

Definition set_trace (t : list Event) (w : World) : World :=
  mkWorld t (answers w) (numbers w) (ToEndPoint w) (tick w) (timers w).
Definition set_tick (n : nat) (w : World) : World :=
  mkWorld (trace w) (answers w) (numbers w) (ToEndPoint w) n (timers w).
Definition set_timers (l : list (TimerHandle * ITransmission)) (w : World) : World :=
  mkWorld (trace w) (answers w) (numbers w) (ToEndPoint w) (tick w) l.

(** ** A state monad with undefined behaviour

    A computation runs on a state and returns a value and the next state,
    or nothing at all where the source dereferences a null pointer. *)

Definition M (S A : Type) : Type := S -> option (A * S).

Definition ret {S A : Type} (a : A) : M S A := fun s => Some (a, s).

Definition bind {S A B : Type} (m : M S A) (f : A -> M S B) : M S B :=
  fun s => match m s with
           | Some (a, s') => f a s'
           | None => None
           end.

Definition get {S : Type} : M S S := fun s => Some (s, s).
Definition modify {S : Type} (f : S -> S) : M S unit := fun s => Some (tt, f s).
Definition undefined {S A : Type} : M S A := fun _ => None.

Declare Scope monad_scope.
Delimit Scope monad_scope with monad.
Notation "x <- m ;; k" := (bind m (fun x => k))
  (at level 61, m at next level, right associativity) : monad_scope.
Notation "m ;;; k" := (bind m (fun _ => k))
  (at level 61, right associativity) : monad_scope.
Open Scope monad_scope.

(** Calls into the environment. *)

Definition emit (e : Event) : M World unit :=
  modify (fun w => set_trace (trace w ++ [e]) w).

Definition ask : M World bool :=
  w <- get ;; modify (set_tick (S (tick w))) ;;; ret (answers w (tick w)).

Definition RandomNext (minValue maxValue : Z) : M World Z :=
  w <- get ;; modify (set_tick (S (tick w))) ;;; ret (numbers w (tick w)).

Definition fresh : M World nat :=
  w <- get ;; modify (set_tick (S (tick w))) ;;; ret (tick w).

Definition ReadAsync (t : ITransmission) (cb : ReadCallback) : M World bool :=
  emit (EvReadAsync t cb) ;;; ask.

Definition WriteAsync (t : ITransmission) (data : Payload) (offset length : Z)
    (cb : WriteCallback) : M World bool :=
  emit (EvWriteAsync t data offset length cb) ;;; ask.

Definition Transmission_Close (t : ITransmission) : M World unit :=
  emit (EvTransmissionClose t).

(** [make_shared_alloc<Byte>(n)]: a region of [n] bytes, or null. *)
Definition make_shared_alloc (n : Z) : M World (option Z) :=
  ok <- ask ;; ret (if ok && (0 <? n) then Some n else None).

(** Modelled from the spec: [Timer.h] is outside [Connection.cpp].
    [SetTimeout] schedules a one-shot timer and returns its handle, or
    null; [ClearTimeout] cancels the timer of a handle so that it is no
    longer pending. *)
Definition SetTimeout (network : ITransmission) (delay : Z)
  : M World (option TimerHandle) :=
  ok <- ask ;;
  if ok then
    h <- fresh ;;
    emit (EvSetTimeout h network delay) ;;;
    modify (fun w => set_timers (timers w ++ [(h, network)]) w) ;;;
    ret (Some h)
  else ret None.

Definition cancel_timer (h : TimerHandle) (w : World) : World :=
  set_timers (filter (fun p => negb (Nat.eqb (fst p) h)) (timers w)) w.

Definition ClearTimeout_handle (h : TimerHandle) : M World unit :=
  emit (EvClearTimeout h) ;;; modify (cancel_timer h).

(** ** Handshake orchestration (static members) *)

Definition invoke (h : Handler) (success : bool) (channelId : Z) : M World unit :=
  match h with
  | UserHandler name => emit (EvHandler name success channelId)
  | HelloSent transmission =>
      if negb success then Transmission_Close transmission else ret tt
  | HelloReceived transmission callback =>
      (if negb success then Transmission_Close transmission else ret tt) ;;;
      emit (EvHelloCallback callback success)
  end.

Definition HandshakeServer (BufferSize : Z) (d : Draws)
    (transmission : option ITransmission) (alignment channelId : Z)
    (handler : option Handler) : M World bool :=
  match transmission, handler with
  | Some ctransmission, Some callback =>
      if (alignment <? Z.shiftl UINT8_MAX 1) || (channelId =? 0) then ret false
      else
        let '(packed, messages) :=
          PackPlaintextHeaders BufferSize d MemoryStream channelId alignment in
        if negb packed then ret false
        else
          WriteAsync ctransmission (HeaderBytes (GetBuffer messages)) 0
            (GetPosition messages) (OnHandshakeServer callback channelId)
  | _, _ => ret false
  end.

Definition HandshakeClient (transmission : option ITransmission)
    (handler : option Handler) : M World bool :=
  match transmission, handler with
  | Some ctransmission, Some callback =>
      ReadAsync ctransmission (OnHandshakeClient callback)
  | _, _ => ret false
  end.

(** The pair the read callback of [HandshakeClient] hands to its
    handler. *)
Definition client_verdict (mem : Adjacent) (buffer : option (list ascii))
    (length : Z) : bool * Z :=
  match buffer with
  | None => (false, 0)
  | Some _ =>
      if length <? 1 then (false, 0)
      else
        let v := UnpackPlaintextLength mem buffer 0 length in
        if v =? 0 then (false, 0)
        else
          let messages_size := to_int v in
          if negb (messages_size =? length) then (false, 0)
          else
            let channelId := to_int (Z.shiftr v 32) in
            if channelId =? 0 then (false, 0)
            else (true, channelId)
  end.

Definition on_handshake_client (mem : Adjacent) (callback : Handler)
    (buffer : option (list ascii)) (length : Z) : M World unit :=
  let '(success, channelId) := client_verdict mem buffer length in
  invoke callback success channelId.

Definition on_handshake_server (callback : Handler) (channelId : Z)
    (success : bool) : M World unit :=
  invoke callback success channelId.

Definition AcceptAsync_inbound (BufferSize : Z) (d : Draws)
    (inbound : option ITransmission) (alignment : Z)
    (measure : option (ITransmission -> Z)) (handler : option Handler)
  : M World bool :=
  match inbound, handler, measure with
  | Some t, Some _, Some f =>
      if alignment <? Z.shiftl 1 9 then ret false
      else
        let channelId := f t in
        if channelId =? 0 then ret false
        else HandshakeServer BufferSize d inbound alignment channelId handler
  | _, _, _ => ret false
  end.

Definition AcceptAsync_outbound (outbound : option ITransmission)
    (handler : option Handler) : M World bool :=
  HandshakeClient outbound handler.

Definition ConnectAsync_outbound (BufferSize : Z) (d : Draws)
    (outbound : option ITransmission) (alignment channelId : Z)
    (handler : option Handler) : M World bool :=
  HandshakeServer BufferSize d outbound alignment channelId handler.

Definition ConnectAsync_inbound (inbound : option ITransmission)
    (handler : option Handler) : M World bool :=
  HandshakeClient inbound handler.

Definition HelloAsync_outbound (BufferSize : Z) (d : Draws)
    (outbound : option ITransmission) : M World bool :=
  match outbound with
  | None => ret false
  | Some transmission =>
      channelId <- RandomNext 1 INT_MAX ;;
      HandshakeServer BufferSize d outbound (Z.shiftl UINT8_MAX 1) channelId
        (Some (HelloSent transmission))
  end.

Definition HelloAsync_inbound (inbound : option ITransmission)
    (handler : option nat) : M World bool :=
  match inbound, handler with
  | Some transmission, Some callback =>
      HandshakeClient inbound (Some (HelloReceived transmission callback))
  | _, _ => ret false
  end.

(** ** The Connection *)

(** Modelled from the spec: the initial value of [ECONNECTION_MSS] is
    given in [Connection.h], outside the sources at hand; the spec puts
    it at 65535. *)
Definition ECONNECTION_MSS_DEFAULT : Z := 65535.

Record Connection : Type := mkConnection {
  Id : Z;
  disposed_ : bool;
  available_ : bool;
  configuration_ : option AppConfiguration;
  inbound_ : option ITransmission;
  outbound_ : option ITransmission;
  remote_ : option AsyncTcpSocket;
  buffers_ : option Z;
  resolver_ : option AsyncContext;
  timeout_ : option TimerHandle;
  DisposedEvent : option nat;
  ECONNECTION_MSS : Z
}.

Definition set_disposed (v : bool) (c : Connection) : Connection :=
  mkConnection (Id c) v (available_ c) (configuration_ c) (inbound_ c)
    (outbound_ c) (remote_ c) (buffers_ c) (resolver_ c) (timeout_ c)
    (DisposedEvent c) (ECONNECTION_MSS c).
Definition set_available (v : bool) (c : Connection) : Connection :=
  mkConnection (Id c) (disposed_ c) v (configuration_ c) (inbound_ c)
    (outbound_ c) (remote_ c) (buffers_ c) (resolver_ c) (timeout_ c)
    (DisposedEvent c) (ECONNECTION_MSS c).
Definition set_inbound (v : option ITransmission) (c : Connection) : Connection :=
  mkConnection (Id c) (disposed_ c) (available_ c) (configuration_ c) v
    (outbound_ c) (remote_ c) (buffers_ c) (resolver_ c) (timeout_ c)
    (DisposedEvent c) (ECONNECTION_MSS c).
Definition set_outbound (v : option ITransmission) (c : Connection) : Connection :=
  mkConnection (Id c) (disposed_ c) (available_ c) (configuration_ c)
    (inbound_ c) v (remote_ c) (buffers_ c) (resolver_ c) (timeout_ c)
    (DisposedEvent c) (ECONNECTION_MSS c).
Definition set_remote (v : option AsyncTcpSocket) (c : Connection) : Connection :=
  mkConnection (Id c) (disposed_ c) (available_ c) (configuration_ c)
    (inbound_ c) (outbound_ c) v (buffers_ c) (resolver_ c) (timeout_ c)
    (DisposedEvent c) (ECONNECTION_MSS c).
Definition set_buffers (v : option Z) (c : Connection) : Connection :=
  mkConnection (Id c) (disposed_ c) (available_ c) (configuration_ c)
    (inbound_ c) (outbound_ c) (remote_ c) v (resolver_ c) (timeout_ c)
    (DisposedEvent c) (ECONNECTION_MSS c).
Definition set_resolver (v : option AsyncContext) (c : Connection) : Connection :=
  mkConnection (Id c) (disposed_ c) (available_ c) (configuration_ c)
    (inbound_ c) (outbound_ c) (remote_ c) (buffers_ c) v (timeout_ c)
    (DisposedEvent c) (ECONNECTION_MSS c).
Definition set_timeout (v : option TimerHandle) (c : Connection) : Connection :=
  mkConnection (Id c) (disposed_ c) (available_ c) (configuration_ c)
    (inbound_ c) (outbound_ c) (remote_ c) (buffers_ c) (resolver_ c) v
    (DisposedEvent c) (ECONNECTION_MSS c).
Definition set_DisposedEvent (v : option nat) (c : Connection) : Connection :=
  mkConnection (Id c) (disposed_ c) (available_ c) (configuration_ c)
    (inbound_ c) (outbound_ c) (remote_ c) (buffers_ c) (resolver_ c)
    (timeout_ c) v (ECONNECTION_MSS c).

(** The constructor. *)
Definition new_Connection (configuration : option AppConfiguration) (id : Z)
    (inbound outbound : option ITransmission) : Connection :=
  let mss :=
    match configuration with
    | Some cfg =>
        let alignment := Alignment cfg in
        if (Z.shiftl UINT8_MAX 1 <=? alignment) &&
           (alignment <=? ECONNECTION_MSS_DEFAULT)
        then alignment else ECONNECTION_MSS_DEFAULT
    | None => ECONNECTION_MSS_DEFAULT
    end in
  mkConnection id false false configuration inbound outbound None None None
    None None mss.

(** A Connection together with its environment. *)
Record State : Type := mkState {
  conn : Connection;
  world : World
}.

Definition Member (A : Type) : Type := M State A.

Definition this : Member Connection := s <- get ;; ret (conn s).

Definition update (f : Connection -> Connection) : Member unit :=
  modify (fun s => mkState (f (conn s)) (world s)).

(** Running a call into the environment from a member function. *)
Definition env {A : Type} (m : M World A) : Member A :=
  fun s => match m (world s) with
           | Some (a, w) => Some (a, mkState (conn s) w)
           | None => None
           end.

Definition is_some {A : Type} (o : option A) : bool :=
  match o with Some _ => true | None => false end.

Definition GetContext : Member (option AsyncContext) :=
  c <- this ;;
  match inbound_ c with
  | Some inbound => ret (transmission_context inbound)
  | None =>
      match outbound_ c with
      | Some outbound => ret (transmission_context outbound)
      | None => ret None
      end
  end.

Definition IsNone : Member bool :=
  c <- this ;;
  ret (disposed_ c || negb (is_some (inbound_ c)) ||
       negb (is_some (outbound_ c)) || negb (is_some (configuration_ c))).

Definition IsDisposed : Member bool :=
  none <- IsNone ;;
  c <- this ;;
  ret (none || negb (is_some (remote_ c)) || negb (is_some (buffers_ c))).

Definition Available : Member bool :=
  c <- this ;;
  if available_ c then (d <- IsDisposed ;; ret (negb d)) else ret false.

(** [ClearTimeout(timeout_)]: cancels the timer the handle names and
    resets the handle. *)
Definition ClearTimeout : Member unit :=
  c <- this ;;
  match timeout_ c with
  | Some h => env (ClearTimeout_handle h) ;;; update (set_timeout None)
  | None => ret tt
  end.

Definition Dispose : Member unit :=
  c <- this ;;
  update (set_disposed true) ;;;
  if negb (disposed_ c) then
    update (set_inbound None) ;;;
    match inbound_ c with
    | Some inbound => env (Transmission_Close inbound)
    | None => ret tt
    end ;;;
    update (set_outbound None) ;;;
    match outbound_ c with
    | Some outbound => env (Transmission_Close outbound)
    | None => ret tt
    end ;;;
    update (set_remote None) ;;;
    match remote_ c with
    | Some remote => env (emit (EvClosesocket remote))
    | None => ret tt
    end ;;;
    update (set_resolver None) ;;;
    match resolver_ c with
    | Some _ => env (emit EvResolverCancel)
    | None => ret tt
    end ;;;
    update (set_buffers None) ;;;
    ClearTimeout ;;;
    update (set_DisposedEvent None) ;;;
    match DisposedEvent c with
    | Some disposedEvent => env (emit (EvDisposedEvent disposedEvent))
    | None => ret tt
    end
  else ret tt.

Definition Close : Member unit := Dispose.

Definition RemoteSocketToOutboundSocket : Member bool :=
  c <- this ;;
  if disposed_ c then ret false
  else
    match remote_ c with
    | None => ret false
    | Some socket =>
        match buffers_ c with
        | None => ret false
        | Some _ =>
            env (emit (EvAsyncReadSome socket (ECONNECTION_MSS c))) ;;;
            ret true
        end
    end.

Definition InboundSocketToRemoteSocket : Member bool :=
  c <- this ;;
  if disposed_ c then ret false
  else
    match inbound_ c with
    | None => ret false
    | Some socket => env (ReadAsync socket OnInboundRead)
    end.

(** [buffer] tells whether the pointer handed over is non-null. *)
Definition SendToRemoteSocket (buffer : bool) (length : Z) : Member bool :=
  c <- this ;;
  if disposed_ c || negb buffer || (length <? 1) then ret false
  else
    match remote_ c with
    | None => ret false
    | Some socket => env (emit (EvAsyncWrite socket length)) ;;; ret true
    end.

Definition SendToOutboundSocket (buffer : bool) (length : Z) : Member bool :=
  c <- this ;;
  if disposed_ c || negb buffer || (length <? 1) then ret false
  else
    match outbound_ c with
    | None => ret false
    | Some socket =>
        env (WriteAsync socket ForwardedBytes 0 length OnOutboundWritten)
    end.

Definition KeepAlivedReadCycle (transmission : option ITransmission) : Member bool :=
  c <- this ;;
  match transmission with
  | Some network =>
      if disposed_ c then ret false
      else env (ReadAsync network (OnKeepAlivedRead network))
  | None => ret false
  end.

Definition KeepAlivedSendCycle (transmission : option ITransmission) : Member bool :=
  c <- this ;;
  match transmission with
  | Some network =>
      if disposed_ c then ret false
      else
        context <- GetContext ;;
        match context with
        | None => ret false
        | Some _ =>
            ClearTimeout ;;;
            delay <- env (RandomNext 100 500) ;;
            h <- env (SetTimeout network delay) ;;
            update (set_timeout h) ;;;
            ret (is_some h)
        end
  | None => ret false
  end.

Definition EstablishRemoteSocket : Member bool :=
  a <- InboundSocketToRemoteSocket ;;
  available <- (if a then RemoteSocketToOutboundSocket else ret false) ;;
  if available then
    c <- this ;;
    match configuration_ c with
    | None => undefined
    | Some cfg =>
        if KeepAlived cfg then
          r <- KeepAlivedReadCycle (outbound_ c) ;;
          if r then KeepAlivedSendCycle (inbound_ c) else ret false
        else ret true
    end
  else ret false.

Definition NewRemoteSocket (configuration : option AppConfiguration)
    (context : option AsyncContext) (remoteEP : Endpoint)
  : Member (option AsyncTcpSocket) :=
  match context, configuration with
  | Some _, Some cfg =>
      if is_unspecified remoteEP || is_multicast remoteEP then ret None
      else
        let port := endpoint_port remoteEP in
        if (port <=? MinPort) || (port >? MaxPort) then ret None
        else
          made <- env ask ;;
          if negb made then ret None
          else
            socket <- env fresh ;;
            env (emit (EvSocketOpen socket (is_v4 remoteEP))) ;;;
            opened <- env ask ;;
            if negb opened then ret None
            else
              env (emit (EvSocketOptions socket (Turbo cfg) (FastOpen cfg))) ;;;
              ret (Some socket)
  | _, _ => ret None
  end.

Definition ConnectRemoteSocket (remoteEP : Endpoint) : Member bool :=
  c <- this ;;
  context <- GetContext ;;
  made <- NewRemoteSocket (configuration_ c) context remoteEP ;;
  match made with
  | None => ret false
  | Some socket =>
      env (emit (EvAsyncConnect socket remoteEP)) ;;;
      update (set_remote (Some socket)) ;;;
      ret true
  end.

Definition Listen (network : option AsyncTcpSocket) : Member bool :=
  c <- this ;;
  if disposed_ c || is_some (buffers_ c) then ret false
  else
    b <- env (make_shared_alloc (ECONNECTION_MSS c)) ;;
    update (set_buffers b) ;;;
    match network with
    | Some _ =>
        update (set_remote network) ;;;
        a <- EstablishRemoteSocket ;;
        update (set_available a) ;;;
        ret a
    | None =>
        context <- GetContext ;;
        none <- IsNone ;;
        match context with
        | Some ctx =>
            if none || is_some (remote_ c) then ret false
            else
              made <- env ask ;;
              update (set_resolver (if made then Some ctx else None)) ;;;
              if negb made then ret false
              else
                match configuration_ c with
                | None => undefined
                | Some cfg =>
                    if Domain cfg then
                      env (emit (EvGetAddressByHostName (IP cfg) (Port cfg))) ;;;
                      ret true
                    else
                      w <- env get ;;
                      ConnectRemoteSocket (ToEndPoint w (IP cfg) (Port cfg))
                end
        | None => ret false
        end
    end.

(** ** Completion callbacks of the Connection *)

(** [std::max<int>(ec ? -1 : sz, -1)]. *)
Definition completed_length (ec : bool) (sz : Z) : Z :=
  Z.max (if ec then -1 else to_int sz) (-1).

Definition close_unless (ok : bool) : Member unit :=
  if ok then ret tt else Close.

Definition on_remote_read (ec : bool) (sz : Z) : Member unit :=
  sent <- SendToOutboundSocket true (completed_length ec sz) ;;
  close_unless sent.

Definition on_inbound_read (buffers : bool) (length : Z) : Member unit :=
  sent <- SendToRemoteSocket buffers length ;;
  close_unless sent.

Definition on_remote_written (ec : bool) (sz : Z) : Member unit :=
  if completed_length ec sz <? 1 then Close
  else (armed <- InboundSocketToRemoteSocket ;; close_unless armed).

Definition on_outbound_written (success : bool) : Member unit :=
  if negb success then Close
  else (armed <- RemoteSocketToOutboundSocket ;; close_unless armed).

Definition on_connected (ec : bool) : Member unit :=
  (if negb ec then
     a <- EstablishRemoteSocket ;; update (set_available a)
   else ret tt) ;;;
  c <- this ;;
  close_unless (available_ c).

Definition on_resolved (ep : option Endpoint) : Member unit :=
  let remoteEP := match ep with Some e => e | None => default_endpoint end in
  ConnectRemoteSocket remoteEP ;;; ret tt.

Definition on_keepalived_read (network : ITransmission) (length : Z) : Member unit :=
  if length <? 1 then Close
  else (KeepAlivedReadCycle (Some network) ;;; ret tt).

Definition on_keepalived_written (network : ITransmission) (success : bool)
  : Member unit :=
  success' <- (if success then KeepAlivedSendCycle (Some network)
               else ret false) ;;
  close_unless success'.

Definition on_timeout (network : ITransmission) : Member unit :=
  ClearTimeout ;;;
  messages <- env (make_shared_alloc 64) ;;
  match messages with
  | None => Close
  | Some _ =>
      packet_size <- env (RandomNext 8 64) ;;
      written <- env (WriteAsync network KeepAliveBytes 0 packet_size
                        (OnKeepAlivedWritten network)) ;;
      close_unless written
  end.

(** ** What can happen to a Connection

    A call of a public member, or the completion of an operation the
    Connection has started, with what the collaborator delivers.  A
    timer fires once, and only while it is pending. *)
Inductive Action : Type :=
| CallListen (network : option AsyncTcpSocket)
| CallClose
| CallDispose
| SetDisposedEvent (handler : option nat)
| InboundRead (buffers : bool) (length : Z)
| RemoteWritten (ec : bool) (sz : Z)
| RemoteRead (ec : bool) (sz : Z)
| OutboundWritten (success : bool)
| Connected (ec : bool)
| Resolved (ep : option Endpoint)
| KeepAlivedRead (network : ITransmission) (length : Z)
| KeepAlivedWritten (network : ITransmission) (success : bool)
| TimerFired (h : TimerHandle).

Definition perform (a : Action) : Member unit :=
  match a with
  | CallListen network => Listen network ;;; ret tt
  | CallClose => Close
  | CallDispose => Dispose
  | SetDisposedEvent handler => update (set_DisposedEvent handler)
  | InboundRead buffers length => on_inbound_read buffers length
  | RemoteWritten ec sz => on_remote_written ec sz
  | RemoteRead ec sz => on_remote_read ec sz
  | OutboundWritten success => on_outbound_written success
  | Connected ec => on_connected ec
  | Resolved ep => on_resolved ep
  | KeepAlivedRead network length => on_keepalived_read network length
  | KeepAlivedWritten network success => on_keepalived_written network success
  | TimerFired h =>
      w <- env get ;;
      match find (fun p => Nat.eqb (fst p) h) (timers w) with
      | Some (_, network) =>
          env (modify (cancel_timer h)) ;;; on_timeout network
      | None => ret tt
      end
  end.

Fixpoint run (l : list Action) : Member unit :=
  match l with
  | [] => ret tt
  | a :: r => perform a ;;; run r
  end.

(** The number of times the [DisposedEvent] handler has been invoked. *)
Definition is_disposed_event (e : Event) : bool :=
  match e with EvDisposedEvent _ => true | _ => false end.

Definition fired (s : State) : nat :=
  List.length (filter is_disposed_event (trace (world s))).

Definition pending_timers (s : State) : nat := List.length (timers (world s)).

Definition initial_world (answers : nat -> bool) (numbers : nat -> Z)
    (to_endpoint : string -> Z -> Endpoint) : World :=
  mkWorld [] answers numbers to_endpoint 0 [].

(** ** The two fields of a header, as [UnpackPlaintextLength] reads them

    Each is what [strtoll] makes of the characters copied into the
    array followed by what lies behind the array. *)

Definition size_field (mem : Adjacent) (buf : list ascii) (offset : Z) : Z :=
  strtoll16 (memcpy_from (skipn (Z.to_nat offset) buf) 1 4 ++ behind_len mem).

Definition channel_field (mem : Adjacent) (buf : list ascii) (offset : Z) : Z :=
  let messages_size := size_field mem buf offset in
  Z.lxor (strtoll16 (memcpy_from (skipn (Z.to_nat offset) buf) 5 8 ++
                     behind_id mem))
         (Z.lor (to_int64 (Z.shiftl messages_size 16)) messages_size).

(** A scan that reaches [rest] stops there: [rest] is empty or begins
    with a character that is not a hexadecimal digit. *)
Definition stops (rest : list ascii) : bool :=
  match rest with
  | [] => true
  | c :: _ => negb (isxdigit c)
  end.

(** Memory in which a character that is not a digit follows each of the
    two arrays, and memory in which [id] is directly followed by [len],
    holding the four size characters of [frame], and [len] by a
    character that is not a digit. *)
Definition terminated_arrays : Adjacent := mkAdjacent [] [].

Definition id_before_len (frame : list ascii) : Adjacent :=
  mkAdjacent [] (memcpy_from frame 1 4).

(** ** Vocabulary of the proofs *)

Definition nibble (d : Z) : Prop := 0 <= d < 16.

Definition hex_step (a d : Z) : Z := a * 16 + d.

(** A character that [strtoll] reads as the digit [d] and as nothing
    else: neither white space, nor a sign, nor the [x] of a prefix. *)
Definition reads_as (c : ascii) (d : Z) : Prop :=
  hex_value c = Some d /\ isspace c = false /\
  (code c =? 45) = false /\ (code c =? 43) = false /\ is_x c = false.

(** [hoare P m Q]: from a state in [P], whenever [m] returns, it returns
    a value and a state in [Q]. *)
Definition hoare {S A : Type} (P : S -> Prop) (m : M S A)
    (Q : A -> S -> Prop) : Prop :=
  forall s a s', P s -> m s = Some (a, s') -> Q a s'.

Definition preserves {S A : Type} (P : S -> Prop) (m : M S A) : Prop :=
  hoare P m (fun _ => P).

(** A call into the environment that leaves the pending timers alone and
    does not invoke the [DisposedEvent] handler. *)
Definition quiet {A : Type} (m : M World A) : Prop :=
  forall w a w', m w = Some (a, w') ->
    timers w' = timers w /\
    filter is_disposed_event (trace w') = filter is_disposed_event (trace w).

(** A computation that returns from every state. *)
Definition total {S A : Type} (m : M S A) : Prop :=
  forall s, exists a s', m s = Some (a, s').

(** The Connection has a configuration. *)
Definition configured (s : State) : Prop :=
  is_some (configuration_ (conn s)) = true.

(** At most one firing of [DisposedEvent], and none before disposal. *)
Definition disposed_once (s : State) : Prop :=
  (fired s <= 1)%nat /\ (disposed_ (conn s) = false -> fired s = 0%nat).

(** At most one pending timer, the one [timeout_] names, and none after
    disposal. *)
Definition one_timer (s : State) : Prop :=
  (pending_timers s <= 1)%nat /\
  (forall h network, In (h, network) (timers (world s)) ->
                     timeout_ (conn s) = Some h) /\
  (disposed_ (conn s) = true -> timers (world s) = []).

(** What [make_shared_alloc] returns in a given environment. *)
Definition allocated (w : World) (n : Z) : option Z :=
  if answers w (tick w) && (0 <? n) then Some n else None.

(** The environment after one call that can fail, logged as [e]. *)
Definition after_call (e : Event) (w : World) : World :=
  set_tick (S (tick w)) (set_trace (trace w ++ [e]) w).

(** A call into the environment that does not invoke the [DisposedEvent]
    handler. *)
Definition keeps_fired {A : Type} (m : M World A) : Prop :=
  forall w a w', m w = Some (a, w') ->
    filter is_disposed_event (trace w') = filter is_disposed_event (trace w).

(** Properties of a state that look at nothing but the number of firings
    of [DisposedEvent] and the [disposed_] flag. *)
Definition on_fired_disposed (R : nat -> bool -> Prop) (s : State) : Prop :=
  R (fired s) (disposed_ (conn s)).

(** Properties of a state that look at nothing but the pending timers,
    the handle [timeout_] and the [disposed_] flag. *)
Definition on_timer_state
    (R : list (TimerHandle * ITransmission) -> option TimerHandle -> bool -> Prop)
    (s : State) : Prop :=
  R (timers (world s)) (timeout_ (conn s)) (disposed_ (conn s)).

(** A call into the environment that leaves the pending timers alone. *)
Definition keeps_timers {A : Type} (m : M World A) : Prop :=
  forall w a w', m w = Some (a, w') -> timers w' = timers w.

(** Every pending timer is the one [timeout_] names. *)
Definition timers_named (s : State) : Prop :=
  forall h network, In (h, network) (timers (world s)) ->
                    timeout_ (conn s) = Some h.

(** Properties of a state that look at the Connection through [view]
    and at the number of firings of [DisposedEvent]. *)
Definition on_view {V : Type} (view : Connection -> V)
    (R : V -> nat -> Prop) (s : State) : Prop :=
  R (view (conn s)) (fired s).

(** ** Disposal in closed form

    What the first [Dispose] does to the Connection and to the
    environment, written out to be compared with the member function. *)

Definition opt_event {A : Type} (f : A -> Event) (o : option A) : list Event :=
  match o with Some a => [f a] | None => [] end.

Definition dispose_events (c : Connection) : list Event :=
  opt_event EvTransmissionClose (inbound_ c) ++
  opt_event EvTransmissionClose (outbound_ c) ++
  opt_event EvClosesocket (remote_ c) ++
  opt_event (fun _ => EvResolverCancel) (resolver_ c) ++
  opt_event EvClearTimeout (timeout_ c) ++
  opt_event EvDisposedEvent (DisposedEvent c).

Definition disposed_connection (c : Connection) : Connection :=
  mkConnection (Id c) true (available_ c) (configuration_ c) None None None
    None None None None (ECONNECTION_MSS c).

Definition disposed_world (c : Connection) (w : World) : World :=
  mkWorld (trace w ++ dispose_events c) (answers w) (numbers w) (ToEndPoint w)
    (tick w)
    (match timeout_ c with
     | Some h => filter (fun p => negb (Nat.eqb (fst p) h)) (timers w)
     | None => timers w
     end).

(** [GetContext] and [IsNone] as functions of the Connection. *)
Definition context_of (c : Connection) : option AsyncContext :=
  match inbound_ c with
  | Some inbound => transmission_context inbound
  | None =>
      match outbound_ c with
      | Some outbound => transmission_context outbound
      | None => None
      end
  end.


(** An endpoint [NewRemoteSocket] turns down before it creates a
    socket. *)
Definition invalid_endpoint (ep : Endpoint) : bool :=
  is_unspecified ep || is_multicast ep ||
  (endpoint_port ep <=? MinPort) || (endpoint_port ep >? MaxPort).

(** [m] returns from the state [s], and the Connection it returns still
    has its configuration. *)
Definition defined_at {A : Type} (m : Member A) (s : State) : Prop :=
  exists a s', m s = Some (a, s') /\ configured s'.

(** ** Sample data for the examples *)

Definition plain_world : World :=
  initial_world (fun _ => true) (fun _ => 250)
    (fun _ _ => mkEndpoint false false true 9).

Definition sample_transmission : ITransmission := mkTransmission 1 (Some 7%nat).

Definition sample_draws (size : Z) : Draws :=
  mkDraws size (fun _ => "z"%char) (fun i => Z.of_nat (Nat.modulo i 2))
    "q"%char.

Definition sample_configuration (alignment : Z) (keep_alived : bool)
  : AppConfiguration :=
  mkConfiguration alignment keep_alived false "127.0.0.1" 9 true false.

(** A Connection with both transports and keep-alive enabled, and one
    that lacks its inbound transport. *)
Definition sample_connection : State :=
  mkState
    (set_DisposedEvent (Some 3%nat)
       (new_Connection (Some (sample_configuration 4096 true)) 1
          (Some sample_transmission) (Some (mkTransmission 2 (Some 7%nat)))))
    plain_world.

Definition half_connection : State :=
  mkState
    (new_Connection (Some (sample_configuration 4096 false)) 1
       None (Some sample_transmission))
    plain_world.


(** Frames in which a character that is not a digit ends each field
    inside its array, so that what they decode to does not depend on
    the bytes behind the arrays: a frame of 14 bytes whose size field
    is 14 and whose channel identifier decodes to 0, one of 14 bytes
    that announces 512, and one of 13 bytes that announces 13. *)
Definition frame_zero_channel : list ascii :=
  list_ascii_of_string "x00E;E000E;;;y".

Definition frame_wrong_length : list ascii :=
  list_ascii_of_string "x200;0000001;y".

Definition frame_too_small : list ascii :=
  list_ascii_of_string "x00D;00000001".

(** Memory in which hexadecimal digits follow both arrays. *)
Definition digits_behind : Adjacent :=
  mkAdjacent (list_ascii_of_string "C0") (list_ascii_of_string "7F").

(** ** The wire format of the header, in closed form

    What [PackPlaintextHeaders] hands to the stream, written out byte by
    byte to be compared with the member function: one random character,
    the twelve characters of the text with the case of each redrawn, the
    random character that replaces the terminator, then the random
    filling. *)

Definition recased_header (d : Draws) (text : list ascii) : list ascii :=
  map (fun p => recase (draw_case d (fst p)) (snd p))
      (combine (seq 0 (List.length text)) text).

Definition wire_blob (d : Draws) (channelId : Z) : list ascii :=
  draw_fill d 0 ::
  recased_header d (pack_header (draw_size d) channelId) ++
  draw_last d ::
  map (draw_fill d) (seq 14 (Z.to_nat (draw_size d) - 14)).

(** A channel identifier that an [int] other than 0 can hold. *)
Definition channel_id (channelId : Z) : Prop :=
  - 2 ^ 31 <= channelId <= 2 ^ 31 - 1 /\ channelId <> 0.

(** ** A Connection after its disposal

    Disposed, with every sub-resource released and no timer pending. *)
Definition released (s : State) : Prop :=
  disposed_ (conn s) = true /\
  inbound_ (conn s) = None /\ outbound_ (conn s) = None /\
  remote_ (conn s) = None /\ buffers_ (conn s) = None /\
  resolver_ (conn s) = None /\ timeout_ (conn s) = None /\
  timers (world s) = [].

(** A completion that reports a failure: a null buffer or a length
    below 1, an error code, an unsuccessful write. *)
Definition failed_completion (a : Action) : bool :=
  match a with
  | InboundRead buffers length => negb buffers || (length <? 1)
  | RemoteWritten ec sz => completed_length ec sz <? 1
  | RemoteRead ec sz => completed_length ec sz <? 1
  | OutboundWritten success => negb success
  | KeepAlivedRead _ length => length <? 1
  | KeepAlivedWritten _ success => negb success
  | _ => false
  end.

(** The endpoint [ConnectRemoteSocket] is given once a resolution has
    completed. *)
Definition resolved_endpoint (ep : option Endpoint) : Endpoint :=
  match ep with Some e => e | None => default_endpoint end.

(** A call into the environment that only adds to the log. *)
Definition grows {A : Type} (m : M World A) : Prop :=
  forall w a w', m w = Some (a, w') ->
    exists more, trace w' = trace w ++ more.

(** The log of [s] continues the log [t0]. *)
Definition continues (t0 : list Event) (s : State) : Prop :=
  exists more, trace (world s) = t0 ++ more.

(** The socket [NewRemoteSocket] creates in the environment [w]. *)
Definition next_socket (w : World) : AsyncTcpSocket := S (tick w).

(** A Connection on which [Listen] has nothing left to do: it is
    disposed, or it has its buffer. *)
Definition listened (s : State) : Prop :=
  disposed_ (conn s) || is_some (buffers_ (conn s)) = true.

(** A live Connection that holds its socket and its buffer, the same
    with one timer pending, and a Connection after its disposal. *)
Definition armed_connection : State :=
  mkState
    (set_buffers (Some 4096)
       (set_remote (Some 5%nat) (conn sample_connection)))
    plain_world.

Definition ticking_connection : State :=
  mkState (set_timeout (Some 9%nat) (conn armed_connection))
    (set_timers [(9%nat, sample_transmission)] plain_world).

Definition disposed_sample : State :=
  mkState (disposed_connection (conn sample_connection))
    (disposed_world (conn sample_connection) (world sample_connection)).

(** An endpoint with a multicast address, and one that can be dialled. *)
Definition multicast_endpoint : Endpoint := mkEndpoint false true true 80.
Definition dialled_endpoint : Endpoint := mkEndpoint false false true 9.

(** A Connection whose configuration names a host and does not ask for
    keep-alive. *)
Definition named_configuration : AppConfiguration :=
  mkConfiguration 4096 false true "example.org" 443 true false.

Definition named_connection : State :=
  mkState
    (new_Connection (Some named_configuration) 1
       (Some sample_transmission) (Some (mkTransmission 2 (Some 7%nat))))
    plain_world.

(** * Properties *)

(** ** Machine integers *)

Lemma to_uint_land (x : Z) : to_uint x = Z.land x (Z.ones 32).
Proof. unfold to_uint. now rewrite Z.land_ones by lia. Qed.

Lemma to_uint_small (x : Z) : 0 <= x < 2 ^ 32 -> to_uint x = x.
Proof. intros H. unfold to_uint. now apply Z.mod_small. Qed.

Lemma wrap_signed_congr (w x : Z) :
  0 < w -> wrap_signed w x mod 2 ^ w = x mod 2 ^ w.
Proof.
  intros Hw. unfold wrap_signed.
  assert (Hp : 0 < 2 ^ w) by (apply Z.pow_pos_nonneg; lia).
  destruct (x mod 2 ^ w <? 2 ^ (w - 1)).
  - now rewrite Z.mod_mod by lia.
  - replace (x mod 2 ^ w - 2 ^ w) with (x mod 2 ^ w + (-1) * 2 ^ w) by ring.
    rewrite Z.mod_add by lia. now rewrite Z.mod_mod by lia.
Qed.

Lemma wrap_signed_small (w x : Z) :
  0 < w -> - 2 ^ (w - 1) <= x < 2 ^ (w - 1) -> wrap_signed w x = x.
Proof.
  intros Hw Hx. unfold wrap_signed.
  assert (Hp : 2 ^ w = 2 * 2 ^ (w - 1)).
  { replace w with (Z.succ (w - 1)) at 1 by lia. apply Z.pow_succ_r. lia. }
  assert (Hq : 0 < 2 ^ (w - 1)) by (apply Z.pow_pos_nonneg; lia).
  destruct (Z_lt_le_dec x 0) as [Hneg | Hpos].
  - assert (E : x mod 2 ^ w = x + 2 ^ w).
    { symmetry. apply Z.mod_unique with (q := -1); lia. }
    rewrite E. destruct (Z.ltb_spec (x + 2 ^ w) (2 ^ (w - 1))); lia.
  - rewrite Z.mod_small by lia.
    destruct (Z.ltb_spec x (2 ^ (w - 1))); lia.
Qed.

Lemma to_uint_to_int (x : Z) : to_uint (to_int x) = to_uint x.
Proof. unfold to_uint, to_int. apply wrap_signed_congr. lia. Qed.

Lemma to_uint_lor (a b : Z) : to_uint (Z.lor a b) = Z.lor (to_uint a) (to_uint b).
Proof. rewrite !to_uint_land. apply Z.land_lor_distr_l. Qed.

Lemma to_uint_lxor (a b : Z) : to_uint (Z.lxor a b) = Z.lxor (to_uint a) (to_uint b).
Proof.
  rewrite !to_uint_land. apply Z.bits_inj'. intros n Hn.
  rewrite Z.land_spec, !Z.lxor_spec, !Z.land_spec.
  destruct (Z.testbit a n), (Z.testbit b n), (Z.testbit (Z.ones 32) n); reflexivity.
Qed.

(** ** Hexadecimal digits *)

Lemma nibble_cases (d : Z) :
  nibble d ->
  d = 0 \/ d = 1 \/ d = 2 \/ d = 3 \/ d = 4 \/ d = 5 \/ d = 6 \/ d = 7 \/
  d = 8 \/ d = 9 \/ d = 10 \/ d = 11 \/ d = 12 \/ d = 13 \/ d = 14 \/ d = 15.
Proof. unfold nibble. lia. Qed.

Lemma recase_reads_as (r d : Z) :
  nibble d -> reads_as (recase r (hex_upper d)) d.
Proof.
  intros Hd. unfold recase.
  destruct (r =? 0);
    (apply nibble_cases in Hd;
     repeat (destruct Hd as [Hd | Hd]; [subst d; vm_compute; tauto | ]);
     subst d; vm_compute; tauto).
Qed.

(** The arrays [len] and [id] carry no terminator in the source.  What
    [strtoll] reads is unchanged by what follows the digits as long as
    the next character is not itself a hexadecimal digit. *)
Lemma scan_hex_stops (cs : list ascii) (ds : list Z) (rest : list ascii) :
  Forall2 reads_as cs ds ->
  (forall c r, rest = c :: r -> hex_value c = None) ->
  forall acc, scan_hex acc (cs ++ rest) = fold_left hex_step ds acc.
Proof.
  intros H Hrest. induction H as [| c d cs ds Hc _ IH]; intros acc.
  - cbn [app fold_left]. destruct rest as [| c r]; [reflexivity |].
    cbn [scan_hex]. now rewrite (Hrest c r eq_refl).
  - cbn [app scan_hex fold_left]. destruct Hc as [Hv _]. rewrite Hv. apply IH.
Qed.

Lemma strtoll16_stops (cs : list ascii) (ds : list Z) (rest : list ascii) :
  Forall2 reads_as cs ds -> (2 <= List.length cs)%nat ->
  (forall c r, rest = c :: r -> hex_value c = None) ->
  fold_left hex_step ds 0 <= LLONG_MAX ->
  strtoll16 (cs ++ rest) = fold_left hex_step ds 0.
Proof.
  intros H Hlen Hrest Hmax.
  pose proof (scan_hex_stops cs ds rest H Hrest 0) as Hscan.
  destruct H as [| c1 d1 cs1 ds1 H1 Htl]; [cbn in Hlen; lia |].
  destruct Htl as [| c2 d2 cs2 ds2 H2 Htl]; [cbn in Hlen; lia |].
  destruct H1 as (Hv1 & Hsp1 & Hm1 & Hp1 & Hx1).
  destruct H2 as (_ & _ & _ & _ & Hx2).
  unfold strtoll16. cbn [app skip_space]. rewrite Hsp1, Hm1, Hp1.
  assert (Hpre :
    match c1 :: c2 :: cs2 ++ rest with
    | z :: x :: d :: r =>
        if (code z =? 48) && is_x x && isxdigit d then d :: r
        else c1 :: c2 :: cs2 ++ rest
    | _ => c1 :: c2 :: cs2 ++ rest
    end = c1 :: c2 :: cs2 ++ rest).
  { destruct (cs2 ++ rest); [reflexivity |].
    now rewrite Hx2, andb_false_r. }
  rewrite Hpre. cbn [app] in Hscan. rewrite Hscan. lia.
Qed.

Lemma hex_digits_spec (fuel : nat) :
  forall (k : nat) (x : Z) (acc : list Z),
    (k <= fuel)%nat -> 0 <= x < 16 ^ Z.of_nat k ->
    exists ds, hex_digits fuel x acc = ds ++ acc /\
               Forall nibble ds /\
               fold_left hex_step ds 0 = x /\
               (List.length ds <= Nat.max 1 k)%nat.
Proof.
  induction fuel as [| f IH]; intros k x acc Hk Hx.
  - assert (k = 0%nat) by lia. subst k. change (16 ^ Z.of_nat 0) with 1 in Hx.
    exists []. split; [reflexivity |].
    split; [constructor | split; [simpl; lia | simpl; lia]].
  - cbn [hex_digits]. destruct (Z.eqb_spec (x / 16) 0) as [Hz | Hnz].
    + assert (Hx16 : 0 <= x < 16).
      { destruct (Z_lt_le_dec x 16); [lia |].
        assert (1 <= x / 16) by (apply Z.div_le_lower_bound; lia). lia. }
      exists [x mod 16]. rewrite (Z.mod_small x 16) by lia.
      split; [reflexivity |]. split.
      { constructor; [unfold nibble; lia | constructor]. }
      split; [cbn [fold_left]; unfold hex_step; lia |].
      cbn [List.length]. lia.
    + destruct k as [| k'].
      { change (16 ^ Z.of_nat 0) with 1 in Hx.
        assert (x = 0) by lia. subst x. now simpl in Hnz. }
      assert (Hq : 0 <= x / 16 < 16 ^ Z.of_nat k').
      { rewrite Nat2Z.inj_succ, Z.pow_succ_r in Hx by lia.
        split; [apply Z.div_pos; lia | apply Z.div_lt_upper_bound; lia]. }
      destruct (IH k' (x / 16) (x mod 16 :: acc) ltac:(lia) Hq)
        as (ds & Hds & Hnib & Hval & Hlen).
      exists (ds ++ [x mod 16]). rewrite Hds, <- app_assoc.
      split; [reflexivity |]. split.
      { apply Forall_app. split; [assumption |].
        constructor; [| constructor]. unfold nibble. apply Z.mod_pos_bound. lia. }
      split.
      { rewrite fold_left_app, Hval. cbn [fold_left]. unfold hex_step.
        pose proof (Z.div_mod x 16). lia. }
      rewrite length_app. cbn [List.length].
      assert (k' <> 0%nat).
      { intros ->. change (16 ^ Z.of_nat 0) with 1 in Hq.
        assert (x / 16 = 0) by lia. contradiction. }
      lia.
Qed.

Lemma fold_hex_zeros (n : nat) (ds : list Z) :
  fold_left hex_step (repeat 0 n ++ ds) 0 = fold_left hex_step ds 0.
Proof.
  induction n as [| n IH]; simpl; [reflexivity | exact IH].
Qed.

(** [%0wX] of a value below [16^w] is exactly [w] upper-case digits whose
    value is the argument read as [unsigned]. *)
Lemma format_X_spec (w : nat) (x : Z) :
  (1 <= w <= 8)%nat -> to_uint x < 16 ^ Z.of_nat w ->
  exists ds, format_X w x = map hex_upper ds /\
             List.length ds = w /\ Forall nibble ds /\
             fold_left hex_step ds 0 = to_uint x.
Proof.
  intros Hw Hx. unfold format_X.
  assert (H0 : 0 <= to_uint x) by (unfold to_uint; apply Z.mod_pos_bound; lia).
  destruct (hex_digits_spec 8 w (to_uint x) [] ltac:(lia) ltac:(lia))
    as (ds & Hds & Hnib & Hval & Hlen).
  rewrite app_nil_r in Hds. rewrite Hds.
  exists (repeat 0 (w - List.length ds) ++ ds). split; [reflexivity |].
  split; [rewrite length_app, repeat_length; lia |].
  split.
  - apply Forall_app. split; [| assumption].
    apply Forall_forall. intros z Hz. apply repeat_spec in Hz. subst z.
    unfold nibble. lia.
  - rewrite fold_hex_zeros. exact Hval.
Qed.

Lemma recased_reads (ds : list Z) :
  Forall nibble ds ->
  forall (r : nat -> Z) (i : nat),
    Forall2 reads_as
      (map (fun p => recase (r (fst p)) (hex_upper (snd p)))
           (combine (seq i (List.length ds)) ds)) ds.
Proof.
  induction 1 as [| d ds Hd _ IH]; intros r i; simpl; constructor.
  - now apply recase_reads_as.
  - apply IH.
Qed.

(** ** The key that hides the channel identifier *)

Lemma shiftl16_bounds (size : Z) :
  0 <= size < 65536 -> 0 <= Z.shiftl size 16 < 2 ^ 32.
Proof. intros H. rewrite Z.shiftl_mul_pow2 by lia. lia. Qed.

Lemma unpack_key_small (size : Z) :
  0 <= size < 65536 ->
  Z.lor (to_int64 (Z.shiftl size 16)) size = Z.lor (Z.shiftl size 16) size.
Proof.
  intros H. pose proof (shiftl16_bounds _ H).
  unfold to_int64. now rewrite wrap_signed_small by lia.
Qed.

Lemma pack_key_unsigned (size : Z) :
  0 <= size < 65536 ->
  to_uint (pack_key size) = Z.lor (Z.shiftl size 16) size.
Proof.
  intros H. pose proof (shiftl16_bounds _ H). unfold pack_key.
  rewrite to_uint_to_int, to_uint_lor, to_uint_to_int.
  now rewrite !to_uint_small by lia.
Qed.


(** ** Layout of the packed header *)

Lemma store_length (arr : list ascii) :
  forall i c, List.length (store arr i c) = List.length arr.
Proof.
  induction arr as [| a r IH]; intros [| j] c; simpl; auto.
Qed.

Lemma fold_store_length {A : Type} (fi : list ascii -> A -> nat)
    (fc : list ascii -> A -> ascii) (l : list A) :
  forall m,
    List.length (fold_left (fun m x => store m (fi m x) (fc m x)) l m)
    = List.length m.
Proof.
  induction l as [| x l IH]; intros m; simpl; [reflexivity |].
  rewrite IH. apply store_length.
Qed.

Lemma write_at_length (s : list ascii) :
  forall arr i, List.length (write_at arr i s) = List.length arr.
Proof.
  induction s as [| c r IH]; intros arr i; simpl; [reflexivity |].
  rewrite IH. apply store_length.
Qed.


Lemma list_len_4 {A : Type} (l : list A) :
  List.length l = 4%nat -> exists a b c d, l = [a; b; c; d].
Proof.
  intros H. do 4 (destruct l as [| ? l]; [discriminate |]).
  destruct l; [repeat eexists | discriminate].
Qed.

Lemma list_len_8 {A : Type} (l : list A) :
  List.length l = 8%nat ->
  exists a b c d e f g h, l = [a; b; c; d; e; f; g; h].
Proof.
  intros H. do 8 (destruct l as [| ? l]; [discriminate |]).
  destruct l; [repeat eexists | discriminate].
Qed.

Section Layout.

Variable BufferSize : Z.


End Layout.

(** ** Round trip of the codec *)

Lemma pack_header_digits (size channelId : Z) :
  0 <= size < 65536 ->
  exists s0 s1 s2 s3 c0 c1 c2 c3 c4 c5 c6 c7,
    pack_header size channelId =
      map hex_upper [s0; s1; s2; s3; c0; c1; c2; c3; c4; c5; c6; c7] /\
    Forall nibble [s0; s1; s2; s3] /\
    Forall nibble [c0; c1; c2; c3; c4; c5; c6; c7] /\
    fold_left hex_step [s0; s1; s2; s3] 0 = size /\
    fold_left hex_step [c0; c1; c2; c3; c4; c5; c6; c7] 0 =
      to_uint (Z.lxor channelId (pack_key size)).
Proof.
  intros Hs. unfold pack_header.
  destruct (format_X_spec 4 size ltac:(lia))
    as (ds & Hds & Hlen & Hnib & Hval).
  { rewrite to_uint_small by lia. change (16 ^ Z.of_nat 4) with 65536. lia. }
  destruct (format_X_spec 8 (Z.lxor channelId (pack_key size)) ltac:(lia))
    as (cs & Hcs & Hlenc & Hnibc & Hvalc).
  { unfold to_uint. change (16 ^ Z.of_nat 8) with (2 ^ 32).
    apply Z.mod_pos_bound. lia. }
  destruct (list_len_4 ds Hlen) as (s0 & s1 & s2 & s3 & ->).
  destruct (list_len_8 cs Hlenc) as (c0 & c1 & c2 & c3 & c4 & c5 & c6 & c7 & ->).
  exists s0, s1, s2, s3, c0, c1, c2, c3, c4, c5, c6, c7.
  rewrite Hds, Hcs. rewrite to_uint_small in Hval by lia.
  repeat split; assumption.
Qed.

Ltac reads_all :=
  repeat match goal with
         | H : Forall nibble (_ :: _) |- _ => inversion H; subst; clear H
         end;
  repeat (constructor; [now apply recase_reads_as |]); constructor.

(** ** Cutting a 64-bit value to its halves *)

Lemma wrap_signed_shift (w x : Z) :
  0 < w -> exists k, wrap_signed w x = x + k * 2 ^ w.
Proof.
  intros Hw. unfold wrap_signed.
  assert (Hp : 0 < 2 ^ w) by (apply Z.pow_pos_nonneg; lia).
  pose proof (Z.div_mod x (2 ^ w) ltac:(lia)) as E.
  destruct (x mod 2 ^ w <? 2 ^ (w - 1)).
  - exists (- (x / 2 ^ w)). lia.
  - exists (- (x / 2 ^ w) - 1). lia.
Qed.

Lemma to_uint_to_int64 (x : Z) : to_uint (to_int64 x) = to_uint x.
Proof.
  unfold to_uint, to_int64.
  destruct (wrap_signed_shift 64 x ltac:(lia)) as (k & ->).
  replace (x + k * 2 ^ 64) with (x + (k * 2 ^ 32) * 2 ^ 32) by ring.
  apply Z.mod_add. lia.
Qed.

Lemma to_int_congr (x y : Z) : to_uint x = to_uint y -> to_int x = to_int y.
Proof. unfold to_uint, to_int, wrap_signed. now intros ->. Qed.

Lemma to_int_zero_iff (x : Z) : to_int x = 0 <-> to_uint x = 0.
Proof.
  unfold to_int, to_uint, wrap_signed.
  pose proof (Z.mod_pos_bound x (2 ^ 32) ltac:(lia)).
  destruct (Z.ltb_spec (x mod 2 ^ 32) (2 ^ (32 - 1))); lia.
Qed.

Lemma to_int_to_uint (c : Z) :
  - 2 ^ 31 <= c <= 2 ^ 31 - 1 -> to_int (to_uint c) = c.
Proof.
  intros Hc. rewrite (to_int_congr (to_uint c) c).
  - unfold to_int. apply wrap_signed_small; lia.
  - unfold to_uint. apply Z.mod_mod. lia.
Qed.

(** The low half of the value returned is the low half of the size
    read; the high half is the channel field cut to an [int] as long as
    the size read is below 2^32. *)
Lemma packed64_low (channelid size : Z) :
  to_int (Z.lor (to_int64 (Z.shiftl channelid 32)) size) = to_int size.
Proof.
  apply to_int_congr. rewrite to_uint_lor, to_uint_to_int64.
  assert (Z0 : to_uint (Z.shiftl channelid 32) = 0).
  { unfold to_uint. rewrite Z.shiftl_mul_pow2 by lia. apply Z.mod_mul. lia. }
  now rewrite Z0, Z.lor_0_l.
Qed.

Lemma packed64_high (channelid size : Z) :
  0 <= size < 2 ^ 32 ->
  to_int (Z.shiftr (Z.lor (to_int64 (Z.shiftl channelid 32)) size) 32)
    = to_int channelid.
Proof.
  intros Hs. rewrite Z.shiftr_lor.
  rewrite (Z.shiftr_div_pow2 size) by lia.
  rewrite (Z.div_small size) by lia. rewrite Z.lor_0_r.
  unfold to_int64.
  destruct (wrap_signed_shift 64 (Z.shiftl channelid 32) ltac:(lia)) as (k & ->).
  rewrite Z.shiftl_mul_pow2, Z.shiftr_div_pow2 by lia.
  replace (channelid * 2 ^ 32 + k * 2 ^ 64)
    with ((channelid + k * 2 ^ 32) * 2 ^ 32) by ring.
  rewrite Z.div_mul by lia.
  apply to_int_congr. unfold to_uint. apply Z.mod_add. lia.
Qed.

Lemma to_int_small (x : Z) : 0 <= x < 2 ^ 31 -> to_int x = x.
Proof. intros H. unfold to_int. apply wrap_signed_small; lia. Qed.

(** ** What [strtoll] can return *)

Lemma hex_value_range (c : ascii) (d : Z) :
  hex_value c = Some d -> 0 <= d < 16.
Proof.
  unfold hex_value, between. intros H.
  destruct (Z.leb_spec 48 (code c)), (Z.leb_spec (code c) 57);
    cbn [andb] in H; try (injection H as <-; lia);
  destruct (Z.leb_spec 65 (code c)), (Z.leb_spec (code c) 70);
    cbn [andb] in H; try (injection H as <-; lia);
  destruct (Z.leb_spec 97 (code c)), (Z.leb_spec (code c) 102);
    cbn [andb] in H; try (injection H as <-; lia); discriminate.
Qed.

Lemma scan_hex_grows (s : list ascii) :
  forall acc, 0 <= acc -> acc <= scan_hex acc s.
Proof.
  induction s as [| c r IH]; intros acc Hacc; cbn [scan_hex]; [lia |].
  destruct (hex_value c) as [d |] eqn:Hc; [| lia].
  apply hex_value_range in Hc.
  specialize (IH (acc * 16 + d) ltac:(lia)). lia.
Qed.

Lemma strtoll16_range (s : list ascii) :
  LLONG_MIN <= strtoll16 s <= LLONG_MAX.
Proof.
  unfold strtoll16.
  destruct (match skip_space s with
            | c :: r => if code c =? 45 then (true, r)
                        else if code c =? 43 then (false, r)
                        else (false, skip_space s)
            | [] => (false, skip_space s)
            end) as [neg s2].
  match goal with
  | |- context [scan_hex 0 ?l] => pose proof (scan_hex_grows l 0 ltac:(lia))
  end.
  unfold LLONG_MIN, LLONG_MAX. destruct neg; lia.
Qed.

(** ** Reading past the arrays *)

Lemma stops_spec (rest : list ascii) :
  stops rest = true -> forall c r, rest = c :: r -> hex_value c = None.
Proof.
  intros H c r ->. cbn [stops] in H. unfold isxdigit in H.
  now destruct (hex_value c).
Qed.

Lemma key_cancels_unsigned (size channelId : Z) :
  0 <= size < 65536 ->
  Z.lxor (to_uint (Z.lxor channelId (pack_key size)))
         (Z.lor (to_int64 (Z.shiftl size 16)) size) = to_uint channelId.
Proof.
  intros Hs.
  rewrite to_uint_lxor, pack_key_unsigned, unpack_key_small by assumption.
  now rewrite Z.lxor_assoc, Z.lxor_nilpotent, Z.lxor_0_r.
Qed.

Lemma small_bits_high (b n : Z) :
  0 <= b < 65536 -> 16 <= n -> Z.testbit b n = false.
Proof.
  intros Hb Hn.
  rewrite <- (Z.mod_small b (2 ^ 16)) by (change (2 ^ 16) with 65536; lia).
  apply Z.mod_pow2_bits_high. lia.
Qed.

Lemma shift_add_lor (a b : Z) :
  0 <= b < 65536 -> a * 65536 + b = Z.lor (Z.shiftl a 16) b.
Proof.
  intros Hb.
  assert (Hl : Z.land (Z.shiftl a 16) b = 0).
  { apply Z.bits_inj'. intros n Hn. rewrite Z.land_spec, Z.bits_0.
    destruct (Z_lt_le_dec n 16).
    - rewrite Z.shiftl_spec_low by lia. reflexivity.
    - rewrite (small_bits_high b n) by lia. apply andb_false_r. }
  rewrite <- Z.lxor_lor by exact Hl.
  rewrite <- Z.add_nocarry_lxor by exact Hl.
  rewrite Z.shiftl_mul_pow2 by lia. reflexivity.
Qed.

(** When the scan of [id] runs on through the four size characters, the
    twelve digits read are the identifier field followed by the size;
    what is left once the key has been taken off and the value cut to
    32 bits is the low half of the identifier, moved to the high
    half. *)
Lemma over_read_channel (size channelId : Z) :
  0 <= size < 65536 ->
  to_int (Z.lxor (to_uint (Z.lxor channelId (pack_key size)) * 65536 + size)
                 (Z.lor (to_int64 (Z.shiftl size 16)) size))
  = to_int (Z.shiftl (Z.land channelId 65535) 16).
Proof.
  intros Hs. apply to_int_congr.
  rewrite shift_add_lor, unpack_key_small by assumption.
  rewrite !to_uint_land. apply Z.bits_inj'. intros n Hn.
  rewrite !Z.land_spec, Z.lxor_spec, !Z.lor_spec.
  destruct (Z_lt_le_dec n 32) as [H32 | H32].
  2:{ rewrite Z.ones_spec_high by lia. now rewrite !andb_false_r. }
  rewrite Z.ones_spec_low by lia. rewrite !andb_true_r.
  destruct (Z_lt_le_dec n 16) as [H16 | H16].
  - rewrite !Z.shiftl_spec_low by lia. cbn [orb].
    now rewrite xorb_nilpotent.
  - rewrite !Z.shiftl_spec by lia.
    rewrite (small_bits_high size n) by lia. rewrite !orb_false_r.
    change 65535 with (Z.ones 16).
    rewrite !Z.land_spec, Z.lxor_spec.
    rewrite !Z.ones_spec_low by lia. rewrite !andb_true_r.
    assert (Hk : Z.testbit (pack_key size) (n - 16) = Z.testbit size (n - 16)).
    { pose proof (pack_key_unsigned size Hs) as E.
      assert (Ek : Z.testbit (to_uint (pack_key size)) (n - 16)
                   = Z.testbit (pack_key size) (n - 16)).
      { rewrite to_uint_land, Z.land_spec, Z.ones_spec_low by lia.
        apply andb_true_r. }
      rewrite <- Ek, E, Z.lor_spec.
      rewrite Z.shiftl_spec_low by lia. reflexivity. }
    rewrite Hk.
    destruct (Z.testbit channelId (n - 16)), (Z.testbit size (n - 16));
      reflexivity.
Qed.

Lemma fold_hex_4 (acc s0 s1 s2 s3 : Z) :
  fold_left hex_step [s0; s1; s2; s3] acc =
    acc * 65536 + fold_left hex_step [s0; s1; s2; s3] 0.
Proof. cbn [fold_left]. unfold hex_step. ring. Qed.

(** ** What [UnpackPlaintextLength] checks and what it leaves to its caller *)

Lemma unpack_fields (mem : Adjacent) (buf : list ascii) (offset length : Z) :
  UnpackPlaintextLength mem (Some buf) offset length =
    if (offset <? 0) || (length <? 1) || (13 >? length) ||
       (13 >=? size_field mem buf offset)
    then 0
    else Z.lor (to_int64 (Z.shiftl (channel_field mem buf offset) 32))
               (size_field mem buf offset).
Proof.
  unfold UnpackPlaintextLength, channel_field, size_field.
  destruct (offset <? 0), (length <? 1), (13 >? length); reflexivity.
Qed.

Lemma unpack_passes (mem : Adjacent) (buf : list ascii) (offset length : Z) :
  0 <= offset -> 13 <= length -> 13 < size_field mem buf offset ->
  UnpackPlaintextLength mem (Some buf) offset length =
    Z.lor (to_int64 (Z.shiftl (channel_field mem buf offset) 32))
          (size_field mem buf offset) /\
  UnpackPlaintextLength mem (Some buf) offset length <> 0.
Proof.
  intros Ho Hl Hs. rewrite unpack_fields.
  destruct (Z.ltb_spec offset 0); [lia |].
  destruct (Z.ltb_spec length 1); [lia |].
  destruct (Z.gtb_spec 13 length); [lia |].
  destruct (Z.geb_spec 13 (size_field mem buf offset)); [lia |].
  cbn [orb]. split; [reflexivity |].
  intros E. apply Z.lor_eq_0_iff in E. lia.
Qed.

(** The two fields of any frame that starts with a header of twelve
    hexadecimal digits, whatever their case and whatever follows in the
    frame: when the scans stop behind the arrays, and when the scan of
    [id] runs on through the four size characters. *)
Lemma header_fields (mem : Adjacent) (r : nat -> Z) (m0 : ascii)
    (s0 s1 s2 s3 c0 c1 c2 c3 c4 c5 c6 c7 : Z) (tail : list ascii) :
  Forall nibble [s0; s1; s2; s3] ->
  Forall nibble [c0; c1; c2; c3; c4; c5; c6; c7] ->
  let buf :=
    m0 :: recase (r 0%nat) (hex_upper s0) :: recase (r 1%nat) (hex_upper s1)
       :: recase (r 2%nat) (hex_upper s2) :: recase (r 3%nat) (hex_upper s3)
       :: recase (r 4%nat) (hex_upper c0) :: recase (r 5%nat) (hex_upper c1)
       :: recase (r 6%nat) (hex_upper c2) :: recase (r 7%nat) (hex_upper c3)
       :: recase (r 8%nat) (hex_upper c4) :: recase (r 9%nat) (hex_upper c5)
       :: recase (r 10%nat) (hex_upper c6) :: recase (r 11%nat) (hex_upper c7)
       :: tail in
  let size := fold_left hex_step [s0; s1; s2; s3] 0 in
  let id := fold_left hex_step [c0; c1; c2; c3; c4; c5; c6; c7] 0 in
  stops (behind_len mem) = true ->
  size_field mem buf 0 = size /\
  (stops (behind_id mem) = true ->
     channel_field mem buf 0 =
       Z.lxor id (Z.lor (to_int64 (Z.shiftl size 16)) size)) /\
  (forall rest,
     behind_id mem = memcpy_from buf 1 4 ++ rest -> stops rest = true ->
     channel_field mem buf 0 =
       Z.lxor (id * 65536 + size)
              (Z.lor (to_int64 (Z.shiftl size 16)) size)).
Proof.
  intros Hns Hnc buf size id Hlen.
  inversion Hns as [| ? ? A0 Hns1]; subst.
  inversion Hns1 as [| ? ? A1 Hns2]; subst.
  inversion Hns2 as [| ? ? A2 Hns3]; subst.
  inversion Hns3 as [| ? ? A3 _]; subst.
  inversion Hnc as [| ? ? B0 Hnc1]; subst.
  inversion Hnc1 as [| ? ? B1 Hnc2]; subst.
  inversion Hnc2 as [| ? ? B2 Hnc3]; subst.
  inversion Hnc3 as [| ? ? B3 Hnc4]; subst.
  inversion Hnc4 as [| ? ? B4 Hnc5]; subst.
  inversion Hnc5 as [| ? ? B5 Hnc6]; subst.
  inversion Hnc6 as [| ? ? B6 Hnc7]; subst.
  inversion Hnc7 as [| ? ? B7 _]; subst.
  assert (Rs : Forall2 reads_as
                 [recase (r 0%nat) (hex_upper s0); recase (r 1%nat) (hex_upper s1);
                  recase (r 2%nat) (hex_upper s2); recase (r 3%nat) (hex_upper s3)]
                 [s0; s1; s2; s3])
    by (repeat (constructor; [now apply recase_reads_as |]); constructor).
  assert (Rc : Forall2 reads_as
                 [recase (r 4%nat) (hex_upper c0); recase (r 5%nat) (hex_upper c1);
                  recase (r 6%nat) (hex_upper c2); recase (r 7%nat) (hex_upper c3);
                  recase (r 8%nat) (hex_upper c4); recase (r 9%nat) (hex_upper c5);
                  recase (r 10%nat) (hex_upper c6);
                  recase (r 11%nat) (hex_upper c7)]
                 [c0; c1; c2; c3; c4; c5; c6; c7])
    by (repeat (constructor; [now apply recase_reads_as |]); constructor).
  assert (Bs : 0 <= size < 65536)
    by (subst size; unfold nibble in *; cbn [fold_left]; unfold hex_step; lia).
  assert (Bc : 0 <= id < 2 ^ 32)
    by (subst id; unfold nibble in *; cbn [fold_left]; unfold hex_step; lia).
  assert (Hsize : size_field mem buf 0 = size).
  { unfold size_field, buf. cbn [Z.to_nat skipn memcpy_from firstn].
    apply strtoll16_stops;
      [exact Rs | cbn; lia | now apply stops_spec | unfold LLONG_MAX; lia]. }
  split; [exact Hsize |]. split.
  - intros Hid. unfold channel_field. rewrite Hsize. f_equal.
    unfold buf. cbn [Z.to_nat skipn memcpy_from firstn].
    apply strtoll16_stops;
      [exact Rc | cbn; lia | now apply stops_spec | unfold LLONG_MAX; lia].
  - intros rest Hid Hrest. unfold channel_field. rewrite Hsize. f_equal.
    rewrite Hid. unfold buf. cbn [Z.to_nat skipn memcpy_from firstn].
    rewrite app_assoc.
    rewrite (strtoll16_stops _ ([c0; c1; c2; c3; c4; c5; c6; c7] ++
                                [s0; s1; s2; s3]) rest).
    + rewrite fold_left_app. fold id. rewrite fold_hex_4. reflexivity.
    + apply Forall2_app; assumption.
    + cbn. lia.
    + now apply stops_spec.
    + rewrite fold_left_app. fold id. rewrite fold_hex_4. fold size.
      unfold LLONG_MAX. lia.
Qed.


(** What the read callback of [HandshakeClient] delivers, in terms of the
    two fields of the frame. *)
Lemma client_verdict_fields (mem : Adjacent) (buf : list ascii) (length : Z) :
  client_verdict mem (Some buf) length =
    let v := Z.lor (to_int64 (Z.shiftl (channel_field mem buf 0) 32))
                   (size_field mem buf 0) in
    if (13 <=? length) && (13 <? size_field mem buf 0) &&
       (to_int (size_field mem buf 0) =? length) &&
       negb (to_int (Z.shiftr v 32) =? 0)
    then (true, to_int (Z.shiftr v 32))
    else (false, 0).
Proof.
  cbv zeta. unfold client_verdict. rewrite unpack_fields.
  change (0 <? 0) with false. cbn [orb].
  destruct (Z.ltb_spec length 1) as [Hl | Hl].
  { destruct (Z.leb_spec 13 length); [lia | reflexivity]. }
  destruct (Z.gtb_spec 13 length) as [Hg | Hg]; cbn [orb].
  { destruct (Z.leb_spec 13 length); [lia | reflexivity]. }
  destruct (Z.leb_spec 13 length); [| lia].
  destruct (Z.geb_spec 13 (size_field mem buf 0)) as [Hs | Hs]; cbn [andb].
  { destruct (Z.ltb_spec 13 (size_field mem buf 0)); [lia | reflexivity]. }
  destruct (Z.ltb_spec 13 (size_field mem buf 0)); [| lia]. cbn [andb].
  set (v := Z.lor (to_int64 (Z.shiftl (channel_field mem buf 0) 32))
                  (size_field mem buf 0)).
  assert (Hlow : to_int v = to_int (size_field mem buf 0))
    by apply packed64_low.
  assert (Hv : v <> 0).
  { intros E. apply Z.lor_eq_0_iff in E. lia. }
  destruct (Z.eqb_spec v 0); [contradiction |].
  rewrite Hlow.
  destruct (to_int (size_field mem buf 0) =? length); cbn [negb andb];
    [| reflexivity].
  destruct (to_int (Z.shiftr v 32) =? 0); reflexivity.
Qed.

(** The same when the size read is below 2^31: the two halves of the
    value are then the two fields. *)
Lemma client_verdict_small (mem : Adjacent) (buf : list ascii) (length : Z) :
  size_field mem buf 0 < 2 ^ 31 ->
  client_verdict mem (Some buf) length =
    if (13 <=? length) && (13 <? size_field mem buf 0) &&
       (size_field mem buf 0 =? length) &&
       negb (to_int (channel_field mem buf 0) =? 0)
    then (true, to_int (channel_field mem buf 0))
    else (false, 0).
Proof.
  intros Hb. rewrite client_verdict_fields. cbv zeta.
  destruct (Z.leb_spec 13 length); [| reflexivity].
  destruct (Z.ltb_spec 13 (size_field mem buf 0)); [| reflexivity].
  rewrite packed64_high by lia. rewrite to_int_small by lia. reflexivity.
Qed.

(** C2, as amended.  A size of 13 or less, as [strtoll] reads it from
    [len] and what lies behind it, makes [UnpackPlaintextLength] return
    0.  A recovered channel identifier of 0 does not: the value
    returned is then the size read, which is not 0, and it is the read
    callback of [HandshakeClient] that delivers [(false, 0)], as long
    as the size read is below 2^32. *)
Theorem unpack_small_size_or_zero_channel (mem : Adjacent)
    (buf : list ascii) (offset length : Z) :
  (size_field mem buf offset <= 13 ->
     UnpackPlaintextLength mem (Some buf) offset length = 0) /\
  (0 <= offset -> 13 <= length -> 13 < size_field mem buf offset ->
   channel_field mem buf offset = 0 ->
     UnpackPlaintextLength mem (Some buf) offset length
       = size_field mem buf offset /\
     UnpackPlaintextLength mem (Some buf) offset length <> 0) /\
  (size_field mem buf 0 < 2 ^ 32 ->
   to_int (channel_field mem buf 0) = 0 ->
     client_verdict mem (Some buf) length = (false, 0)).
Proof.
  split; [| split].
  - intros Hs. rewrite unpack_fields.
    destruct (Z.geb_spec 13 (size_field mem buf offset)); [| lia].
    now rewrite !orb_true_r.
  - intros Ho Hl Hs Hc.
    destruct (unpack_passes mem buf offset length Ho Hl Hs) as [Hv Hnz].
    split; [| exact Hnz]. rewrite Hv, Hc. reflexivity.
  - intros Hb Hc. rewrite client_verdict_fields. cbv zeta.
    destruct (Z.leb_spec 13 length); [| reflexivity].
    destruct (Z.ltb_spec 13 (size_field mem buf 0)); [| reflexivity].
    rewrite packed64_high by lia. rewrite Hc.
    now rewrite !andb_false_r.
Qed.

(** C3, as amended.  [UnpackPlaintextLength] asks of [length] only that
    it be 13 or more, whatever size it reads: it then returns a value
    that is not 0.  A frame delivered with a length other than the size
    read, cut to an [int], is turned down by the read callback of
    [HandshakeClient], which delivers [(false, 0)]. *)
Theorem length_mismatch_rejected_by_client (mem : Adjacent)
    (buf : list ascii) (offset length : Z) :
  (0 <= offset -> 13 <= length -> 13 < size_field mem buf offset ->
     UnpackPlaintextLength mem (Some buf) offset length =
       Z.lor (to_int64 (Z.shiftl (channel_field mem buf offset) 32))
             (size_field mem buf offset) /\
     UnpackPlaintextLength mem (Some buf) offset length <> 0) /\
  (to_int (size_field mem buf 0) <> length ->
     client_verdict mem (Some buf) length = (false, 0)).
Proof.
  split.
  - apply unpack_passes.
  - intros Hne. rewrite client_verdict_fields. cbv zeta.
    destruct (Z.eqb_spec (to_int (size_field mem buf 0)) length);
      [contradiction |].
    now rewrite andb_false_r.
Qed.

(** ** The packed blob has the size drawn *)

Lemma format_X_length (w : nat) (x : Z) :
  (w <= List.length (format_X w x))%nat.
Proof.
  unfold format_X. rewrite length_map, length_app, repeat_length. lia.
Qed.

Lemma pack_messages_length (BufferSize : Z) (d : Draws) (channelId : Z) :
  List.length (fst (pack_messages BufferSize d channelId)) = Z.to_nat BufferSize
  /\ 12 <= snd (pack_messages BufferSize d channelId).
Proof.
  unfold pack_messages. cbn [fst snd]. split.
  - rewrite store_length.
    rewrite (fold_store_length
               (fun _ i => (1 + i)%nat)
               (fun m i => recase (draw_case d i) (load m (1 + i)))).
    rewrite write_at_length.
    rewrite (fold_store_length (fun _ i => i) (fun _ i => draw_fill d i)).
    apply repeat_length.
  - unfold pack_header. rewrite length_app.
    pose proof (format_X_length 4 (draw_size d)).
    pose proof (format_X_length 8 (Z.lxor channelId (pack_key (draw_size d)))).
    lia.
Qed.

Lemma pack_writes_size (BufferSize : Z) (d : Draws) (stream : Stream)
    (channelId alignment : Z) :
  CanWrite stream = true -> 0 <= draw_size d <= BufferSize ->
  exists blob,
    PackPlaintextHeaders BufferSize d stream channelId alignment =
      (true, mkStream true (stream_data stream ++ blob)) /\
    Z.of_nat (List.length blob) = draw_size d.
Proof.
  intros Hw Hsize. unfold PackPlaintextHeaders. rewrite Hw. cbn [negb].
  destruct (pack_messages_length BufferSize d channelId) as [Hlen Hoff].
  destruct (pack_messages BufferSize d channelId) as [messages offset].
  cbn [fst snd] in Hlen, Hoff.
  destruct (Z.ltb_spec offset 1); [lia |].
  unfold Stream_Write. rewrite Hw. eexists. split; [reflexivity |].
  unfold memcpy_from. cbn [Z.to_nat skipn]. rewrite length_firstn. lia.
Qed.

(** ** Handshake orchestration *)

(** C4. [HandshakeClient] issues exactly one [ReadAsync] when it has a
    transport and a handler, and none otherwise.  The read callback hands
    its handler a pair [(success, channelId)] in which [success] holds if
    and only if the length delivered equals the decoded size and the
    decoded channel identifier is not zero; [channelId] is then the
    decoded one.  In every other case, a null buffer and a frame shorter
    than 13 bytes among them, the pair is [(false, 0)].  The decoded
    values are the two halves of what [UnpackPlaintextLength] returns,
    whatever lies behind its arrays. *)
Theorem handshake_client_verdict (t : ITransmission) (h : Handler) (w : World)
    (mem : Adjacent) (buffer : option (list ascii)) (length : Z) :
  let v := UnpackPlaintextLength mem buffer 0 length in
  HandshakeClient (Some t) (Some h) w =
    Some (answers w (tick w), after_call (EvReadAsync t (OnHandshakeClient h)) w)
  /\ HandshakeClient None (Some h) w = Some (false, w)
  /\ HandshakeClient (Some t) None w = Some (false, w)
  /\ exists success channelId,
       on_handshake_client mem h buffer length = invoke h success channelId /\
       (success = true <->
          to_int v = length /\ to_int (Z.shiftr v 32) <> 0) /\
       (success = true -> channelId = to_int (Z.shiftr v 32)) /\
       (success = false -> channelId = 0) /\
       (buffer = None \/ length < 13 -> success = false).
Proof.
  intros v. split; [reflexivity |]. split; [reflexivity |].
  split; [reflexivity |].
  exists (fst (client_verdict mem buffer length)),
         (snd (client_verdict mem buffer length)).
  split.
  { unfold on_handshake_client.
    now destruct (client_verdict mem buffer length). }
  assert (Hv0 : v = 0 -> to_int (Z.shiftr v 32) = 0) by (now intros ->).
  assert (Hshort : buffer = None \/ length < 13 -> v = 0).
  { subst v. intros [-> | Hl]; [reflexivity |].
    unfold UnpackPlaintextLength. destruct buffer; [| reflexivity].
    destruct (Z.ltb_spec length 1); [reflexivity |].
    destruct (Z.gtb_spec 13 length); [reflexivity | lia]. }
  unfold client_verdict. fold v.
  set (hi := to_int (Z.shiftr v 32)) in *.
  destruct buffer as [buf |]; [| cbn [fst snd]; intuition congruence].
  destruct (Z.ltb_spec length 1) as [Hl | Hl]; cbn [fst snd].
  { assert (v = 0) by (apply Hshort; right; lia). intuition congruence. }
  destruct (Z.eqb_spec v 0) as [Hz | Hz]; cbn [fst snd];
    [intuition congruence |].
  destruct (Z.eqb_spec (to_int v) length) as [He | He]; cbn [negb fst snd];
    [| intuition congruence].
  destruct (Z.eqb_spec hi 0) as [Hc | Hc]; cbn [fst snd];
    intuition congruence.
Qed.

(** C5, as amended.  [HandshakeServer] returns false without any write
    when the transport or the handler is missing, when
    [alignment < UINT8_MAX << 1], that is below 510, or when [channelId]
    is 0.  With a transport, a handler, an alignment of 510 or more, a
    non-zero [channelId] and a size drawn within the bounds given to
    [RandomNext], it packs a header of exactly that size and hands it to
    one [WriteAsync], whose answer it returns; the completion of the
    write delivers [(success, channelId)] to the handler. *)
Theorem handshake_server_writes (BufferSize : Z) (d : Draws)
    (transmission : option ITransmission) (alignment channelId : Z)
    (handler : option Handler) (w : World) :
  (transmission = None \/ handler = None \/
   alignment < 510 \/ channelId = 0 ->
     HandshakeServer BufferSize d transmission alignment channelId handler w
       = Some (false, w)) /\
  (forall t h,
     transmission = Some t -> handler = Some h ->
     510 <= alignment -> channelId <> 0 ->
     size_drawn_in_range BufferSize d alignment ->
     exists blob,
       Z.of_nat (List.length blob) = draw_size d /\
       PackPlaintextHeaders BufferSize d MemoryStream channelId alignment =
         (true, mkStream true blob) /\
       HandshakeServer BufferSize d transmission alignment channelId handler w
         = Some (answers w (tick w),
                 after_call (EvWriteAsync t (HeaderBytes blob) 0 (draw_size d)
                               (OnHandshakeServer h channelId)) w) /\
       forall success,
         on_handshake_server h channelId success = invoke h success channelId).
Proof.
  split.
  - intros H. unfold HandshakeServer.
    destruct transmission as [t |]; [| reflexivity].
    destruct handler as [h |]; [| reflexivity].
    change (Z.shiftl UINT8_MAX 1) with 510.
    destruct H as [H | [H | [H | H]]]; try discriminate.
    + destruct (Z.ltb_spec alignment 510); [reflexivity | lia].
    + subst channelId. now rewrite orb_true_r.
  - intros t h -> -> Ha Hc Hr. unfold size_drawn_in_range in Hr.
    change (Z.shiftl UINT8_MAX 1) with 510 in Hr.
    destruct (pack_writes_size BufferSize d MemoryStream channelId alignment
                eq_refl ltac:(lia)) as (blob & Hpack & Hlen).
    cbn [stream_data MemoryStream app] in Hpack.
    exists blob. split; [exact Hlen |]. split; [exact Hpack |].
    split; [| reflexivity].
    unfold HandshakeServer. change (Z.shiftl UINT8_MAX 1) with 510.
    destruct (Z.ltb_spec alignment 510); [lia |].
    destruct (Z.eqb_spec channelId 0); [contradiction |].
    cbn [orb]. rewrite Hpack. cbn [negb].
    unfold GetBuffer, GetPosition. cbn [stream_data]. rewrite Hlen.
    reflexivity.
Qed.

(** ** Reasoning about computations *)

Lemma bind_returns {S A B : Type} (m : M S A) (f : A -> M S B) (s : S)
    (b : B) (s' : S) :
  bind m f s = Some (b, s') ->
  exists a s1, m s = Some (a, s1) /\ f a s1 = Some (b, s').
Proof.
  unfold bind. destruct (m s) as [[a s1] |]; [| discriminate].
  intros H. now exists a, s1.
Qed.

Lemma hoare_bind {S A B : Type} (P : S -> Prop) (m : M S A)
    (Q : A -> S -> Prop) (f : A -> M S B) (R : B -> S -> Prop) :
  hoare P m Q -> (forall a, hoare (Q a) (f a) R) -> hoare P (bind m f) R.
Proof.
  intros Hm Hf s b s' HP H.
  apply bind_returns in H. destruct H as (a & s1 & H1 & H2).
  exact (Hf a s1 b s' (Hm s a s1 HP H1) H2).
Qed.

Lemma hoare_weaken {S A : Type} (P P' : S -> Prop) (m : M S A)
    (Q Q' : A -> S -> Prop) :
  hoare P' m Q' -> (forall s, P s -> P' s) ->
  (forall a s, Q' a s -> Q a s) -> hoare P m Q.
Proof. intros H HP HQ s a s' Hs Hr. apply HQ, (H s a s'); auto. Qed.

Lemma hoare_ret {S A : Type} (P : S -> Prop) (a : A) :
  hoare P (ret a) (fun r s => r = a /\ P s).
Proof. intros s r s' HP H. injection H as <- <-. now split. Qed.

Lemma hoare_get {S : Type} (P : S -> Prop) :
  hoare P get (fun r s => r = s /\ P s).
Proof. intros s r s' HP H. injection H as <- <-. now split. Qed.

Lemma hoare_modify {S : Type} (P : S -> Prop) (f : S -> S) :
  hoare P (modify f) (fun _ s' => exists s, P s /\ s' = f s).
Proof. intros s r s' HP H. inversion H; subst. now exists s. Qed.

Lemma preserves_ret {S A : Type} (P : S -> Prop) (a : A) :
  preserves P (ret a).
Proof. intros s r s' HP H. now injection H as <- <-. Qed.

Lemma preserves_bind {S A B : Type} (P : S -> Prop) (m : M S A)
    (f : A -> M S B) :
  preserves P m -> (forall a, preserves P (f a)) -> preserves P (bind m f).
Proof. intros Hm Hf. exact (hoare_bind _ _ _ _ _ Hm Hf). Qed.

Lemma preserves_get {S : Type} (P : S -> Prop) : preserves P get.
Proof. intros s r s' HP H. now injection H as <- <-. Qed.

Lemma preserves_undefined {S A : Type} (P : S -> Prop) :
  preserves P (@undefined S A).
Proof. intros s r s' HP H. discriminate. Qed.

Lemma preserves_this (P : State -> Prop) : preserves P this.
Proof.
  unfold this. apply preserves_bind; [apply preserves_get |].
  intros s. apply preserves_ret.
Qed.

Lemma preserves_update (P : State -> Prop) (f : Connection -> Connection) :
  (forall c w, P (mkState c w) -> P (mkState (f c) w)) ->
  preserves P (update f).
Proof.
  intros Hf [c w] r s' HP H. injection H as _ <-. now apply Hf.
Qed.

Lemma this_returns (s : State) : this s = Some (conn s, s).
Proof. reflexivity. Qed.

(** Calls that are quiet. *)

Lemma quiet_ret {A : Type} (a : A) : quiet (ret a).
Proof. intros w r w' H. now injection H as <- <-. Qed.

Lemma quiet_get : quiet (@get World).
Proof. intros w r w' H. now injection H as <- <-. Qed.

Lemma quiet_bind {A B : Type} (m : M World A) (f : A -> M World B) :
  quiet m -> (forall a, quiet (f a)) -> quiet (bind m f).
Proof.
  intros Hm Hf w b w' H.
  apply bind_returns in H. destruct H as (a & w1 & H1 & H2).
  destruct (Hm w a w1 H1) as [E1 E2].
  destruct (Hf a w1 b w' H2) as [E3 E4].
  split; congruence.
Qed.

Lemma quiet_set_tick (n : nat) : quiet (modify (set_tick n)).
Proof. intros w r w' H. inversion H; subst. now split. Qed.

Lemma filter_snoc {A : Type} (f : A -> bool) (l : list A) (x : A) :
  filter f (l ++ [x]) = if f x then filter f l ++ [x] else filter f l.
Proof.
  rewrite filter_app. cbn [filter].
  destruct (f x); [reflexivity | apply app_nil_r].
Qed.

Lemma quiet_emit (e : Event) : is_disposed_event e = false -> quiet (emit e).
Proof.
  intros He w r w' H. inversion H; subst. split; [reflexivity |].
  cbn [trace set_trace]. now rewrite filter_snoc, He.
Qed.

Lemma quiet_ask : quiet ask.
Proof.
  unfold ask. apply quiet_bind; [apply quiet_get | intros w].
  apply quiet_bind; [apply quiet_set_tick | intros _; apply quiet_ret].
Qed.

Lemma quiet_fresh : quiet fresh.
Proof.
  unfold fresh. apply quiet_bind; [apply quiet_get | intros w].
  apply quiet_bind; [apply quiet_set_tick | intros _; apply quiet_ret].
Qed.

Lemma quiet_RandomNext (lo hi : Z) : quiet (RandomNext lo hi).
Proof.
  unfold RandomNext. apply quiet_bind; [apply quiet_get | intros w].
  apply quiet_bind; [apply quiet_set_tick | intros _; apply quiet_ret].
Qed.

Lemma quiet_ReadAsync (t : ITransmission) (cb : ReadCallback) :
  quiet (ReadAsync t cb).
Proof.
  unfold ReadAsync. apply quiet_bind; [now apply quiet_emit |].
  intros _. apply quiet_ask.
Qed.

Lemma quiet_WriteAsync (t : ITransmission) (data : Payload) (off len : Z)
    (cb : WriteCallback) :
  quiet (WriteAsync t data off len cb).
Proof.
  unfold WriteAsync. apply quiet_bind; [now apply quiet_emit |].
  intros _. apply quiet_ask.
Qed.

Lemma quiet_Transmission_Close (t : ITransmission) :
  quiet (Transmission_Close t).
Proof. now apply quiet_emit. Qed.

Lemma quiet_make_shared_alloc (n : Z) : quiet (make_shared_alloc n).
Proof.
  unfold make_shared_alloc. apply quiet_bind; [apply quiet_ask |].
  intros ok. apply quiet_ret.
Qed.

Create HintDb quiet.
#[export] Hint Resolve quiet_ret quiet_get quiet_ask quiet_fresh
  quiet_RandomNext quiet_ReadAsync quiet_WriteAsync quiet_Transmission_Close
  quiet_make_shared_alloc : quiet.
#[export] Hint Extern 1 (quiet (emit _)) =>
  apply quiet_emit; reflexivity : quiet.

Create HintDb pres.
#[export] Hint Resolve preserves_ret preserves_get preserves_undefined
  preserves_this : pres.

(** One step through the structure of a member function. *)
Ltac pres_step :=
  match goal with
  | |- preserves _ (bind _ _) => apply preserves_bind; [| intros ?]
  | |- preserves _ (if ?b then _ else _) => destruct b
  | |- preserves _ (match ?x with _ => _ end) => destruct x
  | |- preserves _ _ => solve [eauto with pres quiet]
  end.

Ltac pres := repeat pres_step.

(** ** What every member function keeps

    A property of the state is followed through the member functions
    from what it survives: the quiet calls into the environment, the two
    functions that touch the timer, the assignments to the fields, and
    disposal. *)

Section Kept.

Variable P : State -> Prop.

Hypothesis P_env : forall (A : Type) (m : M World A),
  quiet m -> preserves P (env m).
Hypothesis P_ClearTimeout : preserves P ClearTimeout.
Hypothesis P_KeepAlivedSendCycle :
  forall t, preserves P (KeepAlivedSendCycle t).

Local Hint Resolve P_env P_ClearTimeout P_KeepAlivedSendCycle : pres.

Lemma GetContext_keeps : preserves P GetContext.
Proof. unfold GetContext. pres. Qed.

Lemma IsNone_keeps : preserves P IsNone.
Proof. unfold IsNone. pres. Qed.

Lemma RemoteSocketToOutboundSocket_keeps :
  preserves P RemoteSocketToOutboundSocket.
Proof. unfold RemoteSocketToOutboundSocket. pres. Qed.

Lemma InboundSocketToRemoteSocket_keeps :
  preserves P InboundSocketToRemoteSocket.
Proof. unfold InboundSocketToRemoteSocket. pres. Qed.

Lemma SendToRemoteSocket_keeps (buffer : bool) (length : Z) :
  preserves P (SendToRemoteSocket buffer length).
Proof. unfold SendToRemoteSocket. pres. Qed.

Lemma SendToOutboundSocket_keeps (buffer : bool) (length : Z) :
  preserves P (SendToOutboundSocket buffer length).
Proof. unfold SendToOutboundSocket. pres. Qed.

Lemma KeepAlivedReadCycle_keeps (t : option ITransmission) :
  preserves P (KeepAlivedReadCycle t).
Proof. unfold KeepAlivedReadCycle. pres. Qed.

Local Hint Resolve GetContext_keeps IsNone_keeps
  RemoteSocketToOutboundSocket_keeps InboundSocketToRemoteSocket_keeps
  SendToRemoteSocket_keeps SendToOutboundSocket_keeps
  KeepAlivedReadCycle_keeps : pres.

Lemma EstablishRemoteSocket_keeps : preserves P EstablishRemoteSocket.
Proof. unfold EstablishRemoteSocket. pres. Qed.

Hypothesis P_remote : forall v, preserves P (update (set_remote v)).
Local Hint Resolve P_remote EstablishRemoteSocket_keeps : pres.

Lemma NewRemoteSocket_keeps (configuration : option AppConfiguration)
    (context : option AsyncContext) (remoteEP : Endpoint) :
  preserves P (NewRemoteSocket configuration context remoteEP).
Proof. unfold NewRemoteSocket. pres. Qed.

Local Hint Resolve NewRemoteSocket_keeps : pres.

Lemma ConnectRemoteSocket_keeps (remoteEP : Endpoint) :
  preserves P (ConnectRemoteSocket remoteEP).
Proof. unfold ConnectRemoteSocket. pres. Qed.

Hypothesis P_buffers : forall v, preserves P (update (set_buffers v)).
Hypothesis P_resolver : forall v, preserves P (update (set_resolver v)).
Hypothesis P_available : forall v, preserves P (update (set_available v)).
Local Hint Resolve P_buffers P_resolver P_available
  ConnectRemoteSocket_keeps : pres.

Lemma Listen_keeps (network : option AsyncTcpSocket) :
  preserves P (Listen network).
Proof. unfold Listen. pres. Qed.

Hypothesis P_Dispose : preserves P Dispose.
Hypothesis P_DisposedEvent :
  forall v, preserves P (update (set_DisposedEvent v)).
Hypothesis P_cancel :
  forall h, preserves P (env (modify (cancel_timer h))).

Local Hint Resolve P_DisposedEvent P_cancel Listen_keeps : pres.

Lemma Close_keeps : preserves P Close.
Proof. exact P_Dispose. Qed.

Local Hint Resolve Close_keeps P_Dispose : pres.

Lemma close_unless_keeps (ok : bool) : preserves P (close_unless ok).
Proof. unfold close_unless. pres. Qed.

Local Hint Resolve close_unless_keeps : pres.

Lemma on_timeout_keeps (network : ITransmission) :
  preserves P (on_timeout network).
Proof. unfold on_timeout. pres. Qed.

Local Hint Resolve on_timeout_keeps : pres.

Lemma perform_keeps (a : Action) : preserves P (perform a).
Proof.
  destruct a; cbn [perform];
    unfold on_inbound_read, on_remote_written, on_remote_read,
      on_outbound_written, on_connected, on_resolved, on_keepalived_read,
      on_keepalived_written;
    pres.
Qed.

Lemma run_keeps (l : list Action) : preserves P (run l).
Proof.
  induction l as [| a l IH]; cbn [run].
  - apply preserves_ret.
  - apply preserves_bind; [apply perform_keeps | intros _; exact IH].
Qed.

End Kept.

(** ** Rules for the primitive steps *)

Lemma hoare_env {A : Type} (P : State -> Prop) (m : M World A)
    (Q : A -> State -> Prop) :
  (forall c w a w', P (mkState c w) -> m w = Some (a, w') ->
                    Q a (mkState c w')) ->
  hoare P (env m) Q.
Proof.
  intros H [c w] a s' HP Hr. unfold env in Hr. cbn [world conn] in Hr.
  destruct (m w) as [[a' w'] |] eqn:Hm; [| discriminate].
  inversion Hr; subst. now apply (H c w).
Qed.

Lemma hoare_update (P : State -> Prop) (f : Connection -> Connection)
    (Q : unit -> State -> Prop) :
  (forall c w, P (mkState c w) -> Q tt (mkState (f c) w)) ->
  hoare P (update f) Q.
Proof.
  intros H [c w] a s' HP Hr. inversion Hr; subst. now apply H.
Qed.

Lemma hoare_this (P : State -> Prop) (Q : Connection -> State -> Prop) :
  (forall s, P s -> Q (conn s) s) -> hoare P this Q.
Proof. intros H s a s' HP Hr. inversion Hr; subst. now apply H. Qed.

Lemma hoare_return {S A : Type} (P : S -> Prop) (a : A) (Q : A -> S -> Prop) :
  (forall s, P s -> Q a s) -> hoare P (ret a) Q.
Proof. intros H s r s' HP Hr. inversion Hr; subst. now apply H. Qed.

Lemma quiet_keeps_fired {A : Type} (m : M World A) : quiet m -> keeps_fired m.
Proof. intros H w a w' Hr. now destruct (H w a w' Hr). Qed.

Lemma keeps_fired_bind {A B : Type} (m : M World A) (f : A -> M World B) :
  keeps_fired m -> (forall a, keeps_fired (f a)) -> keeps_fired (bind m f).
Proof.
  intros Hm Hf w b w' H.
  apply bind_returns in H. destruct H as (a & w1 & H1 & H2).
  rewrite (Hf a w1 b w' H2). exact (Hm w a w1 H1).
Qed.

Lemma keeps_fired_timers (f : list (TimerHandle * ITransmission) ->
                              list (TimerHandle * ITransmission)) :
  keeps_fired (modify (fun w => set_timers (f (timers w)) w)).
Proof. intros w a w' H. inversion H; subst. reflexivity. Qed.

Lemma keeps_fired_cancel (h : TimerHandle) :
  keeps_fired (modify (cancel_timer h)).
Proof. intros w a w' H. inversion H; subst. reflexivity. Qed.

Lemma keeps_fired_ClearTimeout_handle (h : TimerHandle) :
  keeps_fired (ClearTimeout_handle h).
Proof.
  unfold ClearTimeout_handle. apply keeps_fired_bind.
  - apply quiet_keeps_fired. now apply quiet_emit.
  - intros _. apply keeps_fired_cancel.
Qed.

Lemma keeps_fired_SetTimeout (network : ITransmission) (delay : Z) :
  keeps_fired (SetTimeout network delay).
Proof.
  unfold SetTimeout. apply keeps_fired_bind.
  - apply quiet_keeps_fired, quiet_ask.
  - intros [|]; [| apply quiet_keeps_fired, quiet_ret].
    apply keeps_fired_bind; [apply quiet_keeps_fired, quiet_fresh |].
    intros h. apply keeps_fired_bind.
    + apply quiet_keeps_fired. now apply quiet_emit.
    + intros _. apply keeps_fired_bind.
      * apply (keeps_fired_timers (fun l => l ++ [(h, network)])).
      * intros _. apply quiet_keeps_fired, quiet_ret.
Qed.

(** ** Disposal happens once *)

Section FiredAndDisposed.

Variable R : nat -> bool -> Prop.

Lemma fd_env {A : Type} (m : M World A) :
  keeps_fired m -> preserves (on_fired_disposed R) (env m).
Proof.
  intros Hm. apply hoare_env. intros c w a w' HP Hr.
  unfold on_fired_disposed, fired in *. cbn [world conn] in *.
  now rewrite (Hm w a w' Hr).
Qed.

Lemma fd_quiet {A : Type} (m : M World A) :
  quiet m -> preserves (on_fired_disposed R) (env m).
Proof. intros H. apply fd_env. now apply quiet_keeps_fired. Qed.

Lemma fd_update (f : Connection -> Connection) :
  (forall c, disposed_ (f c) = disposed_ c) ->
  preserves (on_fired_disposed R) (update f).
Proof.
  intros Hf. apply hoare_update. intros c w HP.
  unfold on_fired_disposed, fired in *. cbn [world conn] in *.
  now rewrite Hf.
Qed.

Local Hint Resolve fd_quiet : pres.
Local Hint Extern 1 (preserves _ (update _)) =>
  apply fd_update; reflexivity : pres.

Lemma fd_ClearTimeout : preserves (on_fired_disposed R) ClearTimeout.
Proof.
  unfold ClearTimeout. pres.
  apply fd_env, keeps_fired_ClearTimeout_handle.
Qed.

Local Hint Resolve fd_ClearTimeout : pres.

Lemma fd_KeepAlivedSendCycle (t : option ITransmission) :
  preserves (on_fired_disposed R) (KeepAlivedSendCycle t).
Proof.
  unfold KeepAlivedSendCycle, GetContext. pres.
  apply fd_env, keeps_fired_SetTimeout.
Qed.

End FiredAndDisposed.

Lemma Dispose_once : preserves disposed_once Dispose.
Proof.
  intros s a s' HP H. unfold Dispose in H.
  apply bind_returns in H. destruct H as (c & s1 & H1 & H).
  rewrite this_returns in H1. inversion H1; subst c s1. clear H1.
  apply bind_returns in H. destruct H as (u & s2 & H2 & H).
  inversion H2; subst s2. clear H2.
  destruct HP as [Hle Hzero].
  destruct (disposed_ (conn s)) eqn:Hd; cbn [negb] in H.
  - inversion H; subst. split; [exact Hle | discriminate].
  - specialize (Hzero eq_refl).
    set (Q := on_fired_disposed (fun n d => n = 0%nat /\ d = true)).
    assert (HQ : Q (mkState (set_disposed true (conn s)) (world s))).
    { split; [exact Hzero | reflexivity]. }
    revert H. generalize (mkState (set_disposed true (conn s)) (world s)) HQ.
    clear Hle Hzero HQ.
    assert (Hoare : forall m : Member unit,
              hoare Q m (fun _ => disposed_once) ->
              forall st, Q st -> m st = Some (a, s') -> disposed_once s').
    { intros m Hm st Hst Hr. exact (Hm st a s' Hst Hr). }
    apply Hoare. clear Hoare.
    assert (Hupd : forall f, (forall c, disposed_ (f c) = disposed_ c) ->
                             preserves Q (update f))
      by (intros f Hf; now apply fd_update).
    assert (Henv : forall e, is_disposed_event e = false ->
                             preserves Q (env (emit e)))
      by (intros e He; apply fd_quiet; now apply quiet_emit).
    assert (Hret : preserves Q (ret tt)) by apply preserves_ret.
    repeat (eapply hoare_bind;
            [ first [ apply Hupd; reflexivity
                    | apply fd_ClearTimeout
                    | match goal with
                      | |- hoare _ (match ?x with _ => _ end) _ =>
                          destruct x;
                          [ apply Henv; reflexivity
                          | apply Hret ]
                      end ]
            | cbv beta; intros _ ]).
    destruct (DisposedEvent (conn s)) as [handler |].
    + apply hoare_env. intros c w r w' [Hf Hdis] Hr.
      inversion Hr; subst. clear Hr.
      unfold fired in Hf. cbn [world conn] in Hf, Hdis.
      unfold disposed_once, fired. cbn [world conn trace set_trace].
      rewrite filter_snoc. cbn [is_disposed_event].
      rewrite length_app, Hf. cbn [List.length Nat.add].
      split; [lia | congruence].
    + apply hoare_return. intros st [Hf Hdis]. split; [| intros _; exact Hf].
      rewrite Hf. lia.
Qed.

Lemma disposed_once_shape :
  disposed_once =
  on_fired_disposed (fun n d => (n <= 1)%nat /\ (d = false -> n = 0%nat)).
Proof. reflexivity. Qed.

Lemma perform_once (a : Action) : preserves disposed_once (perform a).
Proof.
  rewrite disposed_once_shape.
  apply perform_keeps;
    try (intros; apply fd_update; reflexivity).
  - intros A m. apply fd_quiet.
  - apply fd_ClearTimeout.
  - apply fd_KeepAlivedSendCycle.
  - rewrite <- disposed_once_shape. apply Dispose_once.
  - intros h. apply fd_env, keeps_fired_cancel.
Qed.

Lemma run_once (l : list Action) : preserves disposed_once (run l).
Proof.
  induction l as [| a l IH]; cbn [run].
  - apply preserves_ret.
  - apply preserves_bind; [apply perform_once | intros _; exact IH].
Qed.

(** ** At most one pending timer *)

Lemma bind_this {A : Type} (f : Connection -> Member A) (s : State) :
  bind this f s = f (conn s) s.
Proof. reflexivity. Qed.

Lemma env_returns {A : Type} (m : M World A) (s : State) (a : A) (s' : State) :
  env m s = Some (a, s') ->
  exists w', m (world s) = Some (a, w') /\ s' = mkState (conn s) w'.
Proof.
  unfold env. destruct (m (world s)) as [[a' w'] |]; [| discriminate].
  intros H. inversion H; subst. now exists w'.
Qed.

Lemma update_returns (f : Connection -> Connection) (s : State) (u : unit)
    (s' : State) :
  update f s = Some (u, s') -> s' = mkState (f (conn s)) (world s).
Proof. intros H. now inversion H. Qed.

Lemma ret_returns {S A : Type} (a b : A) (s s' : S) :
  ret a s = Some (b, s') -> b = a /\ s' = s.
Proof. intros H. now inversion H. Qed.

Lemma GetContext_returns (s : State) (ctx : option AsyncContext) (s' : State) :
  GetContext s = Some (ctx, s') -> s' = s.
Proof.
  unfold GetContext. rewrite bind_this.
  destruct (inbound_ (conn s)); [| destruct (outbound_ (conn s))];
    intros H; now inversion H.
Qed.

Lemma quiet_keeps_timers {A : Type} (m : M World A) : quiet m -> keeps_timers m.
Proof. intros H w a w' Hr. now destruct (H w a w' Hr). Qed.

Lemma keeps_timers_emit (e : Event) : keeps_timers (emit e).
Proof. intros w a w' H. now inversion H. Qed.

Section TimerState.

Variable R :
  list (TimerHandle * ITransmission) -> option TimerHandle -> bool -> Prop.

Lemma ts_env {A : Type} (m : M World A) :
  keeps_timers m -> preserves (on_timer_state R) (env m).
Proof.
  intros Hm. apply hoare_env. intros c w a w' HP Hr.
  unfold on_timer_state in *. cbn [world conn] in *.
  now rewrite (Hm w a w' Hr).
Qed.

Lemma ts_quiet {A : Type} (m : M World A) :
  quiet m -> preserves (on_timer_state R) (env m).
Proof. intros H. apply ts_env. now apply quiet_keeps_timers. Qed.

Lemma ts_update (f : Connection -> Connection) :
  (forall c, timeout_ (f c) = timeout_ c) ->
  (forall c, disposed_ (f c) = disposed_ c) ->
  preserves (on_timer_state R) (update f).
Proof.
  intros Ht Hd. apply hoare_update. intros c w HP.
  unfold on_timer_state in *. cbn [world conn] in *.
  now rewrite Ht, Hd.
Qed.

End TimerState.

Lemma filter_none {A : Type} (f : A -> bool) (l : list A) :
  (forall x, In x l -> f x = false) -> filter f l = [].
Proof.
  induction l as [| x l IH]; intros H; cbn [filter]; [reflexivity |].
  rewrite (H x (or_introl eq_refl)). apply IH.
  intros y Hy. apply H. now right.
Qed.

(** [ClearTimeout] leaves no timer pending, provided the pending ones
    are those [timeout_] names. *)
Lemma ClearTimeout_clears (d : bool) :
  hoare (fun s => timers_named s /\ disposed_ (conn s) = d)
        ClearTimeout
        (fun _ s => timers (world s) = [] /\ timeout_ (conn s) = None /\
                    disposed_ (conn s) = d).
Proof.
  intros [c w] u s' [Hnamed Hd] H. unfold timers_named in Hnamed.
  cbn [conn world] in Hnamed, Hd.
  unfold ClearTimeout in H. rewrite bind_this in H. cbn [conn] in H.
  destruct (timeout_ c) as [h |] eqn:Et.
  - inversion H; subst. clear H. cbn [conn world timers timeout_ disposed_].
    split; [| split; reflexivity].
    apply filter_none. intros [h' n] Hin. cbn [fst].
    specialize (Hnamed h' n Hin). injection Hnamed as <-.
    now rewrite Nat.eqb_refl.
  - inversion H; subst. clear H. cbn [conn world].
    split; [| split; [exact Et | reflexivity]].
    destruct (timers w) as [| [h n] r]; [reflexivity |].
    specialize (Hnamed h n (or_introl eq_refl)). discriminate.
Qed.

Lemma one_timer_named (s : State) : one_timer s -> timers_named s.
Proof. intros (_ & H & _). exact H. Qed.

Lemma no_timer_one_timer (s : State) :
  timers (world s) = [] -> one_timer s.
Proof.
  intros E. unfold one_timer, pending_timers. rewrite E. cbn [List.length].
  split; [lia |]. split; [intros h n [] | reflexivity].
Qed.

Lemma ClearTimeout_one_timer : preserves one_timer ClearTimeout.
Proof.
  intros s u s' HP H.
  destruct (ClearTimeout_clears (disposed_ (conn s)) s u s'
              (conj (one_timer_named s HP) eq_refl) H) as (E & _ & _).
  now apply no_timer_one_timer.
Qed.

Lemma SetTimeout_returns (network : ITransmission) (delay : Z) (w : World)
    (r : option TimerHandle) (w' : World) :
  SetTimeout network delay w = Some (r, w') ->
  (r = None /\ timers w' = timers w) \/
  (exists h, r = Some h /\ timers w' = timers w ++ [(h, network)]).
Proof.
  unfold SetTimeout, ask, fresh, emit, bind, get, modify, ret.
  destruct (answers w (tick w)); intros H; inversion H; subst; clear H.
  - right. eexists. split; reflexivity.
  - left. split; reflexivity.
Qed.

(** [KeepAlivedSendCycle] cancels what is pending before it schedules:
    when it returns true, the one timer pending is the new one, named by
    [timeout_]. *)
Lemma KeepAlivedSendCycle_schedules (t : option ITransmission) (s : State)
    (r : bool) (s' : State) :
  one_timer s -> KeepAlivedSendCycle t s = Some (r, s') ->
  one_timer s' /\
  (r = true -> exists h network,
     t = Some network /\ timers (world s') = [(h, network)] /\
     timeout_ (conn s') = Some h).
Proof.
  intros HP H. unfold KeepAlivedSendCycle in H.
  rewrite bind_this in H.
  destruct t as [network |];
    [| apply ret_returns in H; destruct H as [-> ->];
       split; [exact HP | discriminate]].
  destruct (disposed_ (conn s)) eqn:Hd;
    [apply ret_returns in H; destruct H as [-> ->];
     split; [exact HP | discriminate] |].
  apply bind_returns in H. destruct H as (ctx & s0 & H0 & H).
  apply GetContext_returns in H0. subst s0.
  destruct ctx as [ctx |];
    [| apply ret_returns in H; destruct H as [-> ->];
       split; [exact HP | discriminate]].
  apply bind_returns in H. destruct H as (u & s1 & H1 & H).
  destruct (ClearTimeout_clears false s u s1
              (conj (one_timer_named s HP) Hd) H1) as (E1 & _ & D1).
  apply bind_returns in H. destruct H as (delay & s2 & H2 & H).
  apply env_returns in H2. destruct H2 as (w2 & H2 & ->).
  apply (quiet_keeps_timers _ (quiet_RandomNext 100 500)) in H2.
  apply bind_returns in H. destruct H as (h & s3 & H3 & H).
  apply env_returns in H3. destruct H3 as (w3 & H3 & ->).
  cbn [world conn] in H3.
  apply SetTimeout_returns in H3.
  apply bind_returns in H. destruct H as (u' & s4 & H4 & H).
  apply update_returns in H4. subst s4. cbn [conn world] in H.
  apply ret_returns in H. destruct H as [-> ->].
  unfold one_timer, pending_timers.
  cbn [conn world timeout_ disposed_ set_timeout].
  rewrite D1.
  destruct H3 as [[-> E3] | (h' & -> & E3)]; rewrite E3, H2, E1;
    cbn [List.length app is_some].
  - split; [| discriminate].
    split; [lia |]. split; [intros ? ? [] | discriminate].
  - split; [| intros _; exists h', network; repeat split].
    split; [lia |]. split; [| discriminate].
    intros h0 n0 [E | []]. now injection E as <- _.
Qed.

Lemma KeepAlivedSendCycle_one_timer (t : option ITransmission) :
  preserves one_timer (KeepAlivedSendCycle t).
Proof.
  intros s r s' HP H.
  now destruct (KeepAlivedSendCycle_schedules t s r s' HP H).
Qed.

Lemma one_timer_shape :
  one_timer =
  on_timer_state (fun ts t d =>
    (List.length ts <= 1)%nat /\
    (forall h network, In (h, network) ts -> t = Some h) /\
    (d = true -> ts = [])).
Proof. reflexivity. Qed.

Lemma Dispose_one_timer : preserves one_timer Dispose.
Proof.
  intros s a s' HP H. unfold Dispose in H. rewrite bind_this in H.
  apply bind_returns in H. destruct H as (u & s1 & H1 & H).
  apply update_returns in H1. subst s1.
  destruct (disposed_ (conn s)) eqn:Hd; cbn [negb] in H.
  - apply ret_returns in H. destruct H as [_ ->].
    destruct HP as (H1 & H2 & H3).
    unfold one_timer, pending_timers. cbn [conn world disposed_ timeout_].
    split; [exact H1 |]. split; [exact H2 |]. intros _. now apply H3.
  - set (Named := on_timer_state (fun ts t _ =>
                    forall h network, In (h, network) ts -> t = Some h)).
    set (Empty := on_timer_state (fun ts _ _ => ts = [])).
    assert (HN : Named (mkState (set_disposed true (conn s)) (world s))).
    { apply (one_timer_named s HP). }
    revert H. generalize (mkState (set_disposed true (conn s)) (world s)) HN.
    assert (Hoare : forall m : Member unit,
              hoare Named m (fun _ => one_timer) ->
              forall st, Named st -> m st = Some (a, s') -> one_timer s').
    { intros m Hm st Hst Hr. exact (Hm st a s' Hst Hr). }
    apply Hoare. clear Hoare HN.
    assert (Hupd : forall (Q : State -> Prop) R, Q = on_timer_state R ->
              forall f, (forall c, timeout_ (f c) = timeout_ c) ->
                        (forall c, disposed_ (f c) = disposed_ c) ->
                        preserves Q (update f))
      by (intros Q R -> f Ht Hf; now apply ts_update).
    assert (Henv : forall (Q : State -> Prop) R, Q = on_timer_state R ->
              forall e, preserves Q (env (emit e)))
      by (intros Q R -> e; apply ts_env, keeps_timers_emit).
    do 8 (eapply hoare_bind;
          [ first [ apply (Hupd Named _ eq_refl); reflexivity
                  | match goal with
                    | |- hoare _ (match ?x with _ => _ end) _ =>
                        destruct x;
                        [ apply (Henv Named _ eq_refl)
                        | apply preserves_ret ]
                    end ]
          | cbv beta; intros _ ]).
    eapply hoare_bind.
    { apply (Hupd Named _ eq_refl); reflexivity. }
    cbv beta; intros _.
    eapply hoare_bind.
    { intros st x st' HNamed Hr.
      destruct (ClearTimeout_clears (disposed_ (conn st)) st x st'
                  (conj HNamed eq_refl) Hr) as (E & _ & _).
      exact (E : Empty st'). }
    cbv beta; intros _.
    eapply hoare_bind.
    { apply (Hupd Empty _ eq_refl); reflexivity. }
    cbv beta; intros _.
    apply (hoare_weaken _ Empty _ _ (fun _ => Empty)).
    + destruct (DisposedEvent (conn s));
        [apply (Henv Empty _ eq_refl) | apply preserves_ret].
    + auto.
    + intros _ st E. now apply no_timer_one_timer.
Qed.

Lemma cancel_one_timer (h : TimerHandle) :
  preserves one_timer (env (modify (cancel_timer h))).
Proof.
  apply hoare_env. intros c w a w' (H1 & H2 & H3) Hr.
  inversion Hr; subst. clear Hr.
  unfold one_timer, pending_timers in *. cbn [conn world timers cancel_timer set_timers] in *.
  split; [| split].
  - eapply Nat.le_trans; [apply filter_length_le | exact H1].
  - intros h' n Hin. apply filter_In in Hin. destruct Hin as [Hin _].
    now apply (H2 h' n).
  - intros Hd. now rewrite (H3 Hd).
Qed.

Lemma perform_one_timer (a : Action) : preserves one_timer (perform a).
Proof.
  rewrite one_timer_shape.
  apply perform_keeps;
    try (intros; apply ts_update; reflexivity).
  - intros A m. apply ts_quiet.
  - rewrite <- one_timer_shape. apply ClearTimeout_one_timer.
  - rewrite <- one_timer_shape. apply KeepAlivedSendCycle_one_timer.
  - rewrite <- one_timer_shape. apply Dispose_one_timer.
  - rewrite <- one_timer_shape. apply cancel_one_timer.
Qed.

Lemma run_one_timer (l : list Action) : preserves one_timer (run l).
Proof.
  induction l as [| a l IH]; cbn [run].
  - apply preserves_ret.
  - apply preserves_bind; [apply perform_one_timer | intros _; exact IH].
Qed.

(** ** Disposal, step by step *)

Lemma Dispose_returns (s : State) :
  Dispose s =
    Some (tt, if disposed_ (conn s) then s
              else mkState (disposed_connection (conn s))
                           (disposed_world (conn s) (world s))).
Proof.
  destruct s as [[id d av cfg inb outb rem buf res tmo ev mss]
                   [tr an nu te ti tm]].
  destruct d; [reflexivity |].
  destruct inb, outb, rem, res, tmo, ev;
    cbv [Dispose this update env emit modify bind get ret ClearTimeout
         ClearTimeout_handle Transmission_Close conn world negb disposed_
         inbound_ outbound_ remote_ resolver_ timeout_ DisposedEvent
         set_disposed set_inbound set_outbound set_remote set_resolver
         set_buffers set_timeout set_DisposedEvent set_trace set_timers
         cancel_timer trace timers answers numbers ToEndPoint tick
         Id available_ configuration_ buffers_ ECONNECTION_MSS
         disposed_connection disposed_world dispose_events opt_event];
    cbn [app]; rewrite <- ?app_assoc, ?app_nil_r; reflexivity.
Qed.

Lemma Dispose_sets_flag (s : State) (u : unit) (s' : State) :
  Dispose s = Some (u, s') -> disposed_ (conn s') = true.
Proof.
  rewrite Dispose_returns. intros H. inversion H; subst. clear H.
  destruct (disposed_ (conn s)) eqn:Hd; [exact Hd | reflexivity].
Qed.

Lemma Dispose_when_disposed (s : State) :
  disposed_ (conn s) = true -> Dispose s = Some (tt, s).
Proof. intros Hd. rewrite Dispose_returns. now rewrite Hd. Qed.

Lemma Dispose_keeps_no_timer :
  preserves (fun s => timers (world s) = []) Dispose.
Proof.
  intros s u s' HP H. rewrite Dispose_returns in H. inversion H; subst.
  destruct (disposed_ (conn s)); [exact HP |].
  cbn [world disposed_world timers]. rewrite HP.
  now destruct (timeout_ (conn s)).
Qed.

(** Equations for running the steps of [Listen]. *)

Lemma bind_eq {S A B : Type} (m : M S A) (f : A -> M S B) (s : S) (a : A)
    (s1 : S) :
  m s = Some (a, s1) -> bind m f s = f a s1.
Proof. unfold bind. now intros ->. Qed.

Lemma env_eq {A : Type} (m : M World A) (s : State) (a : A) (w' : World) :
  m (world s) = Some (a, w') -> env m s = Some (a, mkState (conn s) w').
Proof. unfold env. now intros ->. Qed.

Lemma update_eq (f : Connection -> Connection) (s : State) :
  update f s = Some (tt, mkState (f (conn s)) (world s)).
Proof. reflexivity. Qed.

Lemma GetContext_eq (s : State) : GetContext s = Some (context_of (conn s), s).
Proof.
  unfold GetContext, context_of. rewrite bind_this.
  destruct (inbound_ (conn s)); [reflexivity |].
  now destruct (outbound_ (conn s)).
Qed.



Lemma get_eq {S : Type} (s : S) : get s = Some (s, s).
Proof. reflexivity. Qed.



(** ** The member functions return

    The one place where a member function has no defined outcome is the
    read of [configuration_->KeepAlived] in [EstablishRemoteSocket]
    without a configuration.  With a configuration every call and every
    completion returns. *)

Lemma total_ret {S A : Type} (a : A) : total (@ret S A a).
Proof. intros s. now exists a, s. Qed.

Lemma total_bind {S A B : Type} (m : M S A) (f : A -> M S B) :
  total m -> (forall a, total (f a)) -> total (bind m f).
Proof.
  intros Hm Hf s. destruct (Hm s) as (a & s1 & H1).
  destruct (Hf a s1) as (b & s2 & H2).
  exists b, s2. unfold bind. now rewrite H1.
Qed.

Lemma total_get {S : Type} : total (@get S).
Proof. intros s. now exists s, s. Qed.

Lemma total_modify {S : Type} (f : S -> S) : total (modify f).
Proof. intros s. now exists tt, (f s). Qed.

Create HintDb total.
#[export] Hint Resolve total_ret total_get total_modify : total.

Ltac total_step :=
  match goal with
  | |- total (bind _ _) => apply total_bind; [| intros ?]
  | |- total (if ?b then _ else _) => destruct b
  | |- total (match ?x with _ => _ end) => destruct x
  | |- total _ => solve [auto with total]
  end.

Lemma total_emit (e : Event) : total (emit e).
Proof. unfold emit. auto with total. Qed.

Lemma total_ask : total ask.
Proof. unfold ask. repeat total_step. Qed.

Lemma total_fresh : total fresh.
Proof. unfold fresh. repeat total_step. Qed.

Lemma total_RandomNext (lo hi : Z) : total (RandomNext lo hi).
Proof. unfold RandomNext. repeat total_step. Qed.

#[export] Hint Resolve total_emit total_ask total_fresh total_RandomNext : total.

Lemma total_ReadAsync (t : ITransmission) (cb : ReadCallback) :
  total (ReadAsync t cb).
Proof. unfold ReadAsync. repeat total_step. Qed.

Lemma total_WriteAsync (t : ITransmission) (data : Payload) (off len : Z)
    (cb : WriteCallback) :
  total (WriteAsync t data off len cb).
Proof. unfold WriteAsync. repeat total_step. Qed.

Lemma total_make_shared_alloc (n : Z) : total (make_shared_alloc n).
Proof. unfold make_shared_alloc. repeat total_step. Qed.

Lemma total_SetTimeout (network : ITransmission) (delay : Z) :
  total (SetTimeout network delay).
Proof. unfold SetTimeout. repeat total_step. Qed.

Lemma total_ClearTimeout_handle (h : TimerHandle) :
  total (ClearTimeout_handle h).
Proof. unfold ClearTimeout_handle. repeat total_step. Qed.

Lemma total_Transmission_Close (t : ITransmission) :
  total (Transmission_Close t).
Proof. apply total_emit. Qed.

#[export] Hint Resolve total_ReadAsync total_WriteAsync
  total_make_shared_alloc total_SetTimeout total_ClearTimeout_handle
  total_Transmission_Close : total.

Lemma defined_at_ret {A : Type} (a : A) (s : State) :
  configured s -> defined_at (ret a) s.
Proof. intros Hs. now exists a, s. Qed.

Lemma defined_at_bind {A B : Type} (m : Member A) (f : A -> Member B)
    (s : State) :
  defined_at m s ->
  (forall a s1, configured s1 -> defined_at (f a) s1) ->
  defined_at (bind m f) s.
Proof.
  intros (a & s1 & H1 & Hc) Hf.
  destruct (Hf a s1 Hc) as (b & s2 & H2 & Hc2).
  exists b, s2. split; [| exact Hc2]. unfold bind. now rewrite H1.
Qed.

Lemma defined_at_this {A : Type} (f : Connection -> Member A) (s : State) :
  defined_at (f (conn s)) s -> defined_at (bind this f) s.
Proof. intros H. unfold defined_at. now rewrite bind_this. Qed.

Lemma defined_at_env {A : Type} (m : M World A) (s : State) :
  total m -> configured s -> defined_at (env m) s.
Proof.
  intros Hm Hs. destruct (Hm (world s)) as (a & w' & H).
  exists a, (mkState (conn s) w'). split; [now apply env_eq | exact Hs].
Qed.

Lemma defined_at_update (f : Connection -> Connection) (s : State) :
  (forall c, configuration_ (f c) = configuration_ c) ->
  configured s -> defined_at (update f) s.
Proof.
  intros Hf Hs. exists tt, (mkState (f (conn s)) (world s)).
  split; [reflexivity |]. unfold configured in *. cbn [conn]. now rewrite Hf.
Qed.

Lemma configured_some (s : State) :
  configured s -> configuration_ (conn s) <> None.
Proof. unfold configured. intros H E. now rewrite E in H. Qed.

(** One step through a member function, from a state with a
    configuration. *)
Ltac defined_step :=
  match goal with
  | |- defined_at (bind this _) _ => apply defined_at_this
  | |- defined_at (bind _ _) _ => apply defined_at_bind; [| intros ? ? ?]
  | |- defined_at (ret _) _ => apply defined_at_ret; assumption
  | |- defined_at (env _) _ =>
      apply defined_at_env; [auto with total | assumption]
  | |- defined_at (update _) _ =>
      apply defined_at_update; [reflexivity | assumption]
  | H : configured ?s |- defined_at (match configuration_ (conn ?s) with _ => _ end) _ =>
      let E := fresh "E" in
      destruct (configuration_ (conn s)) eqn:E;
      [| exfalso; exact (configured_some s H E)]
  | |- defined_at (if ?b then _ else _) _ => destruct b
  | |- defined_at (match ?x with _ => _ end) _ => destruct x
  | |- defined_at _ _ => solve [auto]
  end.

Ltac defined_all := repeat defined_step.

Section Returns.

Lemma GetContext_defined (s : State) : configured s -> defined_at GetContext s.
Proof. intros Hs. unfold GetContext. defined_all. Qed.

Lemma IsNone_defined (s : State) : configured s -> defined_at IsNone s.
Proof. intros Hs. unfold IsNone. defined_all. Qed.

Lemma ClearTimeout_defined (s : State) :
  configured s -> defined_at ClearTimeout s.
Proof. intros Hs. unfold ClearTimeout. defined_all. Qed.

Local Hint Resolve GetContext_defined IsNone_defined ClearTimeout_defined : core.

Lemma Dispose_defined (s : State) : configured s -> defined_at Dispose s.
Proof. intros Hs. unfold Dispose. defined_all. Qed.

Lemma KeepAlivedSendCycle_defined (t : option ITransmission) (s : State) :
  configured s -> defined_at (KeepAlivedSendCycle t) s.
Proof. intros Hs. unfold KeepAlivedSendCycle. defined_all. Qed.

Lemma KeepAlivedReadCycle_defined (t : option ITransmission) (s : State) :
  configured s -> defined_at (KeepAlivedReadCycle t) s.
Proof. intros Hs. unfold KeepAlivedReadCycle. defined_all. Qed.

Lemma InboundSocketToRemoteSocket_defined (s : State) :
  configured s -> defined_at InboundSocketToRemoteSocket s.
Proof. intros Hs. unfold InboundSocketToRemoteSocket. defined_all. Qed.

Lemma RemoteSocketToOutboundSocket_defined (s : State) :
  configured s -> defined_at RemoteSocketToOutboundSocket s.
Proof. intros Hs. unfold RemoteSocketToOutboundSocket. defined_all. Qed.

Lemma SendToRemoteSocket_defined (buffer : bool) (length : Z) (s : State) :
  configured s -> defined_at (SendToRemoteSocket buffer length) s.
Proof. intros Hs. unfold SendToRemoteSocket. defined_all. Qed.

Lemma SendToOutboundSocket_defined (buffer : bool) (length : Z) (s : State) :
  configured s -> defined_at (SendToOutboundSocket buffer length) s.
Proof. intros Hs. unfold SendToOutboundSocket. defined_all. Qed.

Local Hint Resolve Dispose_defined KeepAlivedSendCycle_defined
  KeepAlivedReadCycle_defined InboundSocketToRemoteSocket_defined
  RemoteSocketToOutboundSocket_defined SendToRemoteSocket_defined
  SendToOutboundSocket_defined : core.

Lemma EstablishRemoteSocket_defined (s : State) :
  configured s -> defined_at EstablishRemoteSocket s.
Proof. intros Hs. unfold EstablishRemoteSocket. defined_all. Qed.

Lemma NewRemoteSocket_defined (configuration : option AppConfiguration)
    (context : option AsyncContext) (remoteEP : Endpoint) (s : State) :
  configured s ->
  defined_at (NewRemoteSocket configuration context remoteEP) s.
Proof. intros Hs. unfold NewRemoteSocket. defined_all. Qed.

Local Hint Resolve EstablishRemoteSocket_defined NewRemoteSocket_defined : core.

Lemma ConnectRemoteSocket_defined (remoteEP : Endpoint) (s : State) :
  configured s -> defined_at (ConnectRemoteSocket remoteEP) s.
Proof. intros Hs. unfold ConnectRemoteSocket. defined_all. Qed.

Local Hint Resolve ConnectRemoteSocket_defined : core.

Lemma Listen_defined (network : option AsyncTcpSocket) (s : State) :
  configured s -> defined_at (Listen network) s.
Proof. intros Hs. unfold Listen. defined_all. Qed.

Local Hint Resolve Listen_defined : core.

Lemma on_timeout_defined (network : ITransmission) (s : State) :
  configured s -> defined_at (on_timeout network) s.
Proof. intros Hs. unfold on_timeout, close_unless, Close. defined_all. Qed.

Local Hint Resolve on_timeout_defined : core.

Lemma perform_defined (a : Action) (s : State) :
  configured s -> defined_at (perform a) s.
Proof.
  intros Hs. destruct a; cbn [perform];
    unfold on_inbound_read, on_remote_written, on_remote_read,
      on_outbound_written, on_connected, on_resolved, on_keepalived_read,
      on_keepalived_written, close_unless, Close;
    defined_all.
Qed.

Lemma run_defined (l : list Action) :
  forall s, configured s -> defined_at (run l) s.
Proof.
  induction l as [| a l IH]; intros s Hs; cbn [run].
  - now apply defined_at_ret.
  - apply defined_at_bind; [now apply perform_defined |].
    intros _ s1 Hs1. now apply IH.
Qed.

End Returns.

Lemma find_none_not_in (h : TimerHandle)
    (l : list (TimerHandle * ITransmission)) :
  find (fun p => Nat.eqb (fst p) h) l = None -> ~ In h (map fst l).
Proof.
  intros Hf Hin. apply in_map_iff in Hin. destruct Hin as ([h' n] & E & Hin).
  cbn [fst] in E. subst h'.
  pose proof (find_none _ _ Hf (h, n) Hin) as Hc. cbn [fst] in Hc.
  now rewrite Nat.eqb_refl in Hc.
Qed.

(** Once the callback of a timer has run, that timer is no longer
    pending, and neither is any other. *)
Lemma TimerFired_clears (h : TimerHandle) (s s' : State) :
  one_timer s -> perform (TimerFired h) s = Some (tt, s') ->
  ~ In h (map fst (timers (world s'))) /\
  (In h (map fst (timers (world s))) -> timers (world s') = []).
Proof.
  intros HP H. cbn [perform] in H.
  apply bind_returns in H. destruct H as (w & s0 & H0 & H).
  apply env_returns in H0. destruct H0 as (w0 & H0 & ->).
  inversion H0; subst w w0. clear H0.
  replace (mkState (conn s) (world s)) with s in H by now destruct s.
  destruct (find (fun p => Nat.eqb (fst p) h) (timers (world s)))
    as [[h0 network] |] eqn:Hf.
  - assert (Hempty : timers (world s') = []).
    { apply bind_returns in H. destruct H as (u & s1 & H1 & H).
      apply env_returns in H1. destruct H1 as (w1 & H1 & ->).
      inversion H1; subst w1. clear H1.
      unfold on_timeout in H.
      apply bind_returns in H. destruct H as (u1 & s2 & Hct & H).
      assert (Hnamed : timers_named (mkState (conn s) (cancel_timer h (world s)))).
      { intros h' n Hin. cbn [world conn cancel_timer set_timers timers] in *.
        apply filter_In in Hin. destruct Hin as [Hin _].
        now apply (one_timer_named s HP h' n). }
      destruct (ClearTimeout_clears _ _ u1 s2 (conj Hnamed eq_refl) Hct)
        as (E & _ & _).
      revert H.
      match goal with
      | |- ?m s2 = Some _ -> _ =>
          assert (Hm : preserves (fun st => timers (world st) = []) m)
      end.
      { assert (Hq : forall (A : Type) (m : M World A),
                  quiet m ->
                  preserves (fun st => timers (world st) = []) (env m))
          by (intros A m Hm;
              exact (ts_quiet (fun ts _ _ => ts = []) m Hm)).
        pose proof Dispose_keeps_no_timer as Hd.
        unfold close_unless, Close. pres. }
      intros H. exact (Hm s2 tt s' E H). }
    split; [rewrite Hempty; intros [] | intros _; exact Hempty].
  - apply ret_returns in H. destruct H as [_ ->].
    pose proof (find_none_not_in h _ Hf) as Hn.
    split; [exact Hn | intros Hin; contradiction].
Qed.

(** C7. Whatever the sequence of calls to [Listen], [Close] and
    [Dispose] and of completions of the operations in flight, the
    [DisposedEvent] handler is invoked at most once, and only by a
    disposal; once [disposed_] is set it stays set and no later step
    invokes the handler again; [Dispose] always returns with the flag
    set, and a second [Dispose] or [Close] changes nothing.  A Connection
    that has a configuration runs every such sequence to its end. *)
Theorem dispose_at_most_once :
  (forall (l : list Action) (s s' : State),
     disposed_ (conn s) = false -> fired s = 0%nat ->
     run l s = Some (tt, s') ->
     (fired s' <= 1)%nat /\ (fired s' = 1%nat -> disposed_ (conn s') = true)) /\
  (forall (a : Action) (s s' : State),
     disposed_ (conn s) = true -> perform a s = Some (tt, s') ->
     disposed_ (conn s') = true /\ fired s' = fired s) /\
  (forall s : State,
     exists s1, Dispose s = Some (tt, s1) /\ disposed_ (conn s1) = true /\
                Dispose s1 = Some (tt, s1) /\ Close s1 = Some (tt, s1)) /\
  (forall (l : list Action) (s : State),
     configured s -> exists s', run l s = Some (tt, s')).
Proof.
  split; [| split; [| split]].
  - intros l s s' Hd Hf H.
    assert (HP : disposed_once s) by (split; [lia | intros _; exact Hf]).
    destruct (run_once l s tt s' HP H) as [Hle Hz].
    split; [exact Hle |].
    intros H1. destruct (disposed_ (conn s')); [reflexivity |].
    specialize (Hz eq_refl). lia.
  - intros a s s' Hd H.
    set (P := on_fired_disposed (fun n d => d = true /\ n = fired s)).
    assert (Hstep : preserves P (perform a)).
    { apply perform_keeps;
        try (intros; apply fd_update; reflexivity).
      - intros A m. apply fd_quiet.
      - apply fd_ClearTimeout.
      - apply fd_KeepAlivedSendCycle.
      - intros st u st' [Hst Hn] Hr.
        rewrite (Dispose_when_disposed st Hst) in Hr.
        inversion Hr; subst. now split.
      - intros h. apply fd_env, keeps_fired_cancel. }
    exact (Hstep s tt s' (conj Hd eq_refl) H).
  - intros s. eexists. split; [apply Dispose_returns |].
    assert (Hflag :
      disposed_ (conn (if disposed_ (conn s) then s
                       else mkState (disposed_connection (conn s))
                              (disposed_world (conn s) (world s)))) = true).
    { destruct (disposed_ (conn s)) eqn:Hd; [exact Hd | reflexivity]. }
    split; [exact Hflag |].
    split; apply Dispose_when_disposed; exact Hflag.
  - intros l s Hs.
    destruct (run_defined l s Hs) as ([] & s' & H & _). now exists s'.
Qed.

(** ** The handle of the keep-alive timer *)

Lemma ClearTimeout_eq (s : State) :
  ClearTimeout s =
    Some (tt,
          match timeout_ (conn s) with
          | Some h =>
              mkState (set_timeout None (conn s))
                (cancel_timer h
                   (set_trace (trace (world s) ++ [EvClearTimeout h]) (world s)))
          | None => s
          end).
Proof.
  unfold ClearTimeout. rewrite bind_this.
  now destruct (timeout_ (conn s)).
Qed.

Lemma dispose_events_schedule_nothing (c : Connection) :
  forall h n delay, ~ In (EvSetTimeout h n delay) (dispose_events c).
Proof.
  intros h n delay. unfold dispose_events, opt_event.
  destruct (inbound_ c), (outbound_ c), (remote_ c), (resolver_ c),
    (timeout_ c), (DisposedEvent c); cbn [app In];
    intuition discriminate.
Qed.

(** A [KeepAlivedSendCycle] that gets as far as the timer clears the
    handle it finds before it asks for the next timer. *)
Lemma KeepAlivedSendCycle_clears_first (network : ITransmission)
    (h0 : TimerHandle) (s : State) (r : bool) (s' : State) :
  disposed_ (conn s) = false -> is_some (context_of (conn s)) = true ->
  timeout_ (conn s) = Some h0 ->
  KeepAlivedSendCycle (Some network) s = Some (r, s') ->
  exists more,
    trace (world s') = trace (world s) ++ EvClearTimeout h0 :: more /\
    (r = true ->
       exists h delay,
         more = [EvSetTimeout h network delay] /\
         timeout_ (conn s') = Some h /\ In (h, network) (timers (world s'))) /\
    (r = false -> more = [] /\ timeout_ (conn s') = None).
Proof.
  intros Hd Hc Ht H. unfold KeepAlivedSendCycle in H.
  rewrite bind_this, Hd in H.
  erewrite bind_eq in H by apply GetContext_eq.
  destruct (context_of (conn s)); [| discriminate].
  erewrite bind_eq in H by (rewrite ClearTimeout_eq, Ht; reflexivity).
  destruct s as [c [tr an nu te ti tm]]. cbn [conn world trace] in *.
  cbv [bind env RandomNext SetTimeout ask fresh emit modify get ret update
       conn world set_tick set_trace set_timers cancel_timer tick answers
       trace numbers ToEndPoint timers] in H.
  destruct (an (S ti)); inversion H; subst; clear H;
    cbn [world conn trace timers].
  - eexists. split; [rewrite <- app_assoc; reflexivity |].
    split; [| discriminate]. intros _. eexists. eexists.
    split; [reflexivity |]. split; [reflexivity |].
    apply in_or_app. right. now left.
  - exists []. split; [reflexivity |]. split; [discriminate |].
    intros _. now split.
Qed.

(** The callback of a timer that has fired clears the handle first, and
    asks for no timer itself. *)
Lemma TimerFired_clears_handle (h : TimerHandle) (network : ITransmission)
    (s s' : State) :
  one_timer s -> In (h, network) (timers (world s)) ->
  perform (TimerFired h) s = Some (tt, s') ->
  timeout_ (conn s') = None /\
  exists more,
    trace (world s') = trace (world s) ++ EvClearTimeout h :: more /\
    forall h' n delay, ~ In (EvSetTimeout h' n delay) more.
Proof.
  intros (Hle & Hnamed & _) Hin H.
  pose proof (Hnamed h network Hin) as Ht.
  assert (Htm : timers (world s) = [(h, network)]).
  { unfold pending_timers in Hle.
    destruct (timers (world s)) as [| p [| q l]];
      [destruct Hin | | cbn in Hle; lia].
    destruct Hin as [-> | []]. reflexivity. }
  cbn [perform] in H.
  erewrite bind_eq in H by (apply env_eq; apply get_eq).
  cbn [conn world] in H. rewrite Htm in H. cbn [find fst] in H.
  rewrite Nat.eqb_refl in H.
  erewrite bind_eq in H by (apply env_eq; reflexivity).
  unfold on_timeout in H.
  erewrite bind_eq in H
    by (rewrite ClearTimeout_eq; cbn [conn]; rewrite Ht; reflexivity).
  destruct s as [c [tr an nu te ti tm]].
  cbn [conn world tick answers timers trace] in *. subst tm.
  cbv [bind env make_shared_alloc RandomNext WriteAsync ask emit modify get
       ret close_unless cancel_timer conn world set_tick set_trace set_timers
       tick answers trace numbers ToEndPoint timers filter fst negb] in H.
  rewrite Nat.eqb_refl in H.
  assert (Hclose : forall st,
            Close st = Some (tt, s') ->
            timeout_ (conn st) = None ->
            (exists pre, trace (world st) = tr ++ EvClearTimeout h :: pre /\
                         forall h' n delay, ~ In (EvSetTimeout h' n delay) pre) ->
            timeout_ (conn s') = None /\
            exists more,
              trace (world s') = tr ++ EvClearTimeout h :: more /\
              forall h' n delay, ~ In (EvSetTimeout h' n delay) more).
  { intros st Hc Hst (pre & Hpre & Hno). unfold Close in Hc.
    rewrite Dispose_returns in Hc. inversion Hc; subst s'. clear Hc.
    destruct (disposed_ (conn st)).
    - split; [exact Hst |]. exists pre. now split.
    - cbn [conn world disposed_connection disposed_world timeout_ trace].
      split; [reflexivity |].
      exists (pre ++ dispose_events (conn st)). split.
      + rewrite Hpre, <- app_assoc. reflexivity.
      + intros h' n delay Hi. apply in_app_or in Hi. destruct Hi as [Hi | Hi].
        * exact (Hno h' n delay Hi).
        * exact (dispose_events_schedule_nothing _ h' n delay Hi). }
  destruct (an ti); cbn [andb Z.ltb Z.compare negb] in H.
  - destruct (an (S (S ti))).
    + inversion H; subst s'. clear H. cbn [conn world trace timeout_ set_timeout].
      split; [reflexivity |]. eexists. split.
      * rewrite <- app_assoc. reflexivity.
      * intros h' n delay [Hi | []]. discriminate.
    + refine (Hclose _ H eq_refl _).
      eexists. split; [cbn [world trace]; rewrite <- app_assoc; reflexivity |].
      intros h' n delay [Hi | []]. discriminate.
  - refine (Hclose _ H eq_refl _).
    exists []. split; [reflexivity |]. intros h' n delay [].
Qed.

Lemma Dispose_clears_handle (s s' : State) :
  disposed_ (conn s) = false -> Dispose s = Some (tt, s') ->
  timeout_ (conn s') = None /\
  forall h, timeout_ (conn s) = Some h ->
            In (EvClearTimeout h) (trace (world s')).
Proof.
  intros Hd H. rewrite Dispose_returns, Hd in H. inversion H; subst s'.
  cbn [conn world disposed_connection disposed_world timeout_ trace].
  split; [reflexivity |]. intros h Ht.
  apply in_or_app. right. unfold dispose_events. rewrite Ht.
  do 4 (apply in_or_app; right). apply in_or_app. left. now left.
Qed.

(** C9. Starting without a pending timer, whatever the sequence of
    calls and completions, at most one keep-alive timer is pending, it
    is the one [timeout_] names, and none is pending once the Connection
    is disposed.  [KeepAlivedSendCycle] cancels the pending timer before
    it schedules the next, so that after a successful call exactly the
    new one is pending: when it finds a handle in [timeout_] it calls
    [ClearTimeout] on that handle first, and only then [SetTimeout].
    The callback of a timer that has fired leaves no timer pending: the
    first thing it does is [ClearTimeout] on its own handle, it leaves
    [timeout_] null and it schedules nothing itself.  [Dispose] leaves
    no timer pending: the first disposal calls [ClearTimeout] on the
    handle it finds and leaves [timeout_] null. *)
Theorem at_most_one_pending_timer :
  (forall (l : list Action) (s s' : State),
     timers (world s) = [] -> run l s = Some (tt, s') ->
     (pending_timers s' <= 1)%nat /\ timers_named s' /\
     (disposed_ (conn s') = true -> pending_timers s' = 0%nat)) /\
  (forall (t : option ITransmission) (s : State) (r : bool) (s' : State),
     one_timer s -> KeepAlivedSendCycle t s = Some (r, s') ->
     one_timer s' /\
     (r = true -> exists h network,
        t = Some network /\ timers (world s') = [(h, network)] /\
        timeout_ (conn s') = Some h)) /\
  (forall (h : TimerHandle) (s s' : State),
     one_timer s -> perform (TimerFired h) s = Some (tt, s') ->
     ~ In h (map fst (timers (world s'))) /\
     (In h (map fst (timers (world s))) -> timers (world s') = [])) /\
  (forall s s' : State,
     one_timer s -> Dispose s = Some (tt, s') -> timers (world s') = []) /\
  (forall (network : ITransmission) (h0 : TimerHandle) (s : State) (r : bool)
          (s' : State),
     disposed_ (conn s) = false -> is_some (context_of (conn s)) = true ->
     timeout_ (conn s) = Some h0 ->
     KeepAlivedSendCycle (Some network) s = Some (r, s') ->
     exists more,
       trace (world s') = trace (world s) ++ EvClearTimeout h0 :: more /\
       (r = true ->
          exists h delay,
            more = [EvSetTimeout h network delay] /\
            timeout_ (conn s') = Some h /\
            In (h, network) (timers (world s'))) /\
       (r = false -> more = [] /\ timeout_ (conn s') = None)) /\
  (forall (h : TimerHandle) (network : ITransmission) (s s' : State),
     one_timer s -> In (h, network) (timers (world s)) ->
     perform (TimerFired h) s = Some (tt, s') ->
     timeout_ (conn s') = None /\
     exists more,
       trace (world s') = trace (world s) ++ EvClearTimeout h :: more /\
       forall h' n delay, ~ In (EvSetTimeout h' n delay) more) /\
  (forall s s' : State,
     disposed_ (conn s) = false -> Dispose s = Some (tt, s') ->
     timeout_ (conn s') = None /\
     forall h, timeout_ (conn s) = Some h ->
               In (EvClearTimeout h) (trace (world s'))).
Proof.
  split; [| split; [| split; [| split; [| split; [| split]]]]].
  - intros l s s' Hs H.
    destruct (run_one_timer l s tt s' (no_timer_one_timer s Hs) H)
      as (H1 & H2 & H3).
    split; [exact H1 |]. split; [exact H2 |].
    intros Hd. unfold pending_timers. now rewrite (H3 Hd).
  - exact KeepAlivedSendCycle_schedules.
  - exact TimerFired_clears.
  - intros s s' HP H.
    destruct (Dispose_one_timer s tt s' HP H) as (_ & _ & H3).
    apply H3. exact (Dispose_sets_flag s tt s' H).
  - exact KeepAlivedSendCycle_clears_first.
  - exact TimerFired_clears_handle.
  - exact Dispose_clears_handle.
Qed.

(** ** What arming a Connection leaves untouched *)

Section View.

Variables (V : Type) (view : Connection -> V) (R : V -> nat -> Prop).

Hypothesis view_timeout : forall h c, view (set_timeout h c) = view c.

Lemma view_env {A : Type} (m : M World A) :
  keeps_fired m -> preserves (on_view view R) (env m).
Proof.
  intros Hm. apply hoare_env. intros c w a w' HP Hr.
  unfold on_view, fired in *. cbn [world conn] in *.
  now rewrite (Hm w a w' Hr).
Qed.

Lemma view_quiet {A : Type} (m : M World A) :
  quiet m -> preserves (on_view view R) (env m).
Proof. intros H. apply view_env. now apply quiet_keeps_fired. Qed.

Lemma view_update (f : Connection -> Connection) :
  (forall c, view (f c) = view c) -> preserves (on_view view R) (update f).
Proof.
  intros Hf. apply hoare_update. intros c w HP.
  unfold on_view, fired in *. cbn [world conn] in *. now rewrite Hf.
Qed.

Lemma view_ClearTimeout : preserves (on_view view R) ClearTimeout.
Proof.
  unfold ClearTimeout.
  pose proof (view_update (set_timeout None) (view_timeout None)).
  pres. apply view_env, keeps_fired_ClearTimeout_handle.
Qed.

Lemma view_KeepAlivedSendCycle (t : option ITransmission) :
  preserves (on_view view R) (KeepAlivedSendCycle t).
Proof.
  unfold KeepAlivedSendCycle, GetContext.
  pose proof view_ClearTimeout. pose proof (@view_quiet).
  pres.
  - apply view_env, keeps_fired_SetTimeout.
  - apply view_update. apply view_timeout.
Qed.

Lemma view_EstablishRemoteSocket :
  preserves (on_view view R) EstablishRemoteSocket.
Proof.
  apply EstablishRemoteSocket_keeps.
  - intros A m. apply view_quiet.
  - apply view_KeepAlivedSendCycle.
Qed.

Lemma view_ConnectRemoteSocket (remoteEP : Endpoint) :
  (forall v c, view (set_remote v c) = view c) ->
  preserves (on_view view R) (ConnectRemoteSocket remoteEP).
Proof.
  intros Hr. apply ConnectRemoteSocket_keeps.
  - intros A m. apply view_quiet.
  - intros v. apply view_update. apply Hr.
Qed.

End View.

Lemma make_shared_alloc_returns (n : Z) (w : World) :
  make_shared_alloc n w = Some (allocated w n, set_tick (S (tick w)) w).
Proof. reflexivity. Qed.

(** C10. When [Listen] is given a socket and the arming that follows
    fails, it returns false and that is all: [disposed_] is still false,
    the socket is still the remote, the buffer still what the allocation
    returned, [available_] is false and the [DisposedEvent] handler has
    not been invoked. *)
Theorem listen_arming_failure_does_not_close (network : AsyncTcpSocket)
    (s s' : State) :
  disposed_ (conn s) = false -> buffers_ (conn s) = None ->
  Listen (Some network) s = Some (false, s') ->
  disposed_ (conn s') = false /\
  remote_ (conn s') = Some network /\
  buffers_ (conn s') = allocated (world s) (ECONNECTION_MSS (conn s)) /\
  available_ (conn s') = false /\
  fired s' = fired s.
Proof.
  intros Hd Hb H. unfold Listen in H. rewrite bind_this in H.
  rewrite Hd, Hb in H. cbn [orb is_some] in H.
  apply bind_returns in H. destruct H as (b & s1 & H1 & H).
  apply env_returns in H1. destruct H1 as (w1 & H1 & ->).
  rewrite make_shared_alloc_returns in H1. inversion H1; subst b w1. clear H1.
  apply bind_returns in H. destruct H as (u2 & s2 & H2 & H).
  apply update_returns in H2. subst s2.
  apply bind_returns in H. destruct H as (u3 & s3 & H3 & H).
  apply update_returns in H3. subst s3.
  apply bind_returns in H. destruct H as (a & s4 & H4 & H).
  apply bind_returns in H. destruct H as (u5 & s5 & H5 & H).
  apply update_returns in H5. subst s5.
  apply ret_returns in H. destruct H as [<- ->].
  set (b := allocated (world s) (ECONNECTION_MSS (conn s))) in *.
  pose proof (view_EstablishRemoteSocket _
                (fun c => (disposed_ c, remote_ c, buffers_ c))
                (fun v n => v = (false, Some network, b) /\ n = fired s)
                (fun _ _ => eq_refl)) as Hkeep.
  cbn [conn world] in H4.
  apply Hkeep in H4; [| split; [cbn; now rewrite Hd | reflexivity]].
  destruct H4 as [Hv Hn].
  injection Hv as Hv1 Hv2 Hv3.
  cbn [conn world available_ set_available disposed_ remote_ buffers_].
  unfold fired in *. cbn [world]. repeat split; assumption.
Qed.

(** C6, as amended.  The constructor takes [configuration.alignment]
    for [ECONNECTION_MSS] if and only if
    [UINT8_MAX << 1 <= alignment <= 65535], the lower bound being 510,
    and leaves the default of 65535 otherwise, also without a
    configuration; a [Listen] that passes its first check asks for
    exactly [ECONNECTION_MSS] bytes and leaves in [buffers_] what the
    allocation returned, a region of that size or null.  With a
    configuration [Listen] does return. *)
Theorem mss_and_buffer_size :
  (forall cfg id inbound outbound,
     ECONNECTION_MSS (new_Connection cfg id inbound outbound) =
       match cfg with
       | Some c =>
           if (510 <=? Alignment c) && (Alignment c <=? 65535)
           then Alignment c else 65535
       | None => 65535
       end) /\
  (forall network s r s',
     disposed_ (conn s) = false -> buffers_ (conn s) = None ->
     Listen network s = Some (r, s') ->
     buffers_ (conn s') = allocated (world s) (ECONNECTION_MSS (conn s)) /\
     ECONNECTION_MSS (conn s') = ECONNECTION_MSS (conn s)) /\
  (forall w n, allocated w n = Some n \/ allocated w n = None) /\
  (forall network s,
     configured s -> exists r s', Listen network s = Some (r, s')).
Proof.
  split; [| split; [| split]].
  - intros [c |] id inbound outbound; reflexivity.
  - intros network s r s' Hd Hb H. unfold Listen in H. rewrite bind_this in H.
    rewrite Hd, Hb in H. cbn [orb is_some] in H.
    apply bind_returns in H. destruct H as (b & s1 & H1 & H).
    apply env_returns in H1. destruct H1 as (w1 & H1 & ->).
    rewrite make_shared_alloc_returns in H1. inversion H1; subst b w1. clear H1.
    apply bind_returns in H. destruct H as (u2 & s2 & H2 & H).
    apply update_returns in H2. subst s2. cbn [conn world] in H.
    set (b := allocated (world s) (ECONNECTION_MSS (conn s))) in *.
    set (P := on_view (fun c => (buffers_ c, ECONNECTION_MSS c))
                (fun v (_ : nat) => v = (b, ECONNECTION_MSS (conn s)))).
    assert (Hq : forall (A : Type) (m : M World A),
              quiet m -> preserves P (env m))
      by (intros A m; apply view_quiet).
    assert (Hu : forall f,
              (forall c, (buffers_ (f c), ECONNECTION_MSS (f c)) =
                         (buffers_ c, ECONNECTION_MSS c)) ->
              preserves P (update f))
      by (intros f Hf; now apply view_update).
    pose proof (Hu (set_remote network) (fun _ => eq_refl)) as Hr.
    assert (Hrs : forall v, preserves P (update (set_resolver v)))
      by (intros v; apply Hu; reflexivity).
    assert (Hav : forall v, preserves P (update (set_available v)))
      by (intros v; apply Hu; reflexivity).
    assert (He : preserves P EstablishRemoteSocket)
      by (apply view_EstablishRemoteSocket; reflexivity).
    assert (Hc : forall ep, preserves P (ConnectRemoteSocket ep))
      by (intros ep; apply view_ConnectRemoteSocket; reflexivity).
    pose proof (GetContext_keeps P) as Hg.
    pose proof (IsNone_keeps P) as Hn.
    revert H.
    match goal with
    | |- ?m ?st = Some _ -> _ => assert (Hm : preserves P m) by pres
    end.
    intros H. apply Hm in H; [| reflexivity].
    now injection H as -> ->.
  - intros w n. unfold allocated.
    destruct (answers w (tick w) && (0 <? n)); [now left | now right].
  - intros network s Hs.
    destruct (Listen_defined network s Hs) as (r & s' & H & _).
    now exists r, s'.
Qed.

(** [Listen] with a socket does not look at what [IsNone] looks at. *)





(** ** The statements that do not hold as first written *)


(** The sample frames decode to the same fields whatever lies behind
    the arrays: each field ends inside its array. *)
Lemma sample_frames_read_inside_their_arrays (mem : Adjacent) :
  (size_field mem frame_zero_channel 0 = 14 /\
   channel_field mem frame_zero_channel 0 = 0 /\
   UnpackPlaintextLength mem (Some frame_zero_channel) 0 14 = 14) /\
  (size_field mem frame_wrong_length 0 = 512 /\
   UnpackPlaintextLength mem (Some frame_wrong_length) 0 14 <> 0) /\
  size_field mem frame_too_small 0 = 13.
Proof.
  split; [| split].
  - repeat split; vm_compute; reflexivity.
  - split; [vm_compute; reflexivity | vm_compute; discriminate].
  - vm_compute. reflexivity.
Qed.

(** C2 as first written fails: a frame whose channel identifier decodes
    to 0 does not make [UnpackPlaintextLength] return 0, here with
    digits behind both arrays. *)
Lemma unpack_zero_channel_not_rejected :
  channel_field digits_behind frame_zero_channel 0 = 0 /\
  UnpackPlaintextLength digits_behind (Some frame_zero_channel) 0 14 = 14.
Proof. split; vm_compute; reflexivity. Qed.

(** C3 as first written fails: a frame of 14 bytes that announces 512
    does not make [UnpackPlaintextLength] return 0, here with digits
    behind both arrays. *)
Lemma unpack_length_mismatch_not_rejected :
  size_field digits_behind frame_wrong_length 0 = 512 /\
  UnpackPlaintextLength digits_behind (Some frame_wrong_length) 0 14 <> 0.
Proof. split; [vm_compute; reflexivity | vm_compute; discriminate]. Qed.

(** C5 as first written fails: with an alignment of 510, below 512,
    [HandshakeServer] does write. *)
Lemma handshake_server_accepts_510 :
  ~ (forall BufferSize d t alignment channelId h w,
       alignment < 512 ->
       HandshakeServer BufferSize d (Some t) alignment channelId (Some h) w
         = Some (false, w)).
Proof.
  intros H.
  specialize (H 1024 (sample_draws 510) sample_transmission 510 1
                (UserHandler 0) plain_world ltac:(lia)).
  apply (f_equal (fun o => match o with
                           | Some (b, _) => b
                           | None => false
                           end)) in H.
  vm_compute in H. discriminate.
Qed.

(** C6 as first written fails: an alignment of 510, outside
    [512, 65535], does replace the default. *)
Lemma mss_overridden_by_510 :
  ~ (forall cfg id inbound outbound,
       ~ (512 <= Alignment cfg <= 65535) ->
       ECONNECTION_MSS (new_Connection (Some cfg) id inbound outbound)
         = ECONNECTION_MSS_DEFAULT).
Proof.
  intros H.
  specialize (H (sample_configuration 510 false) 1 None None ltac:(cbn; lia)).
  vm_compute in H. discriminate.
Qed.


(** A hexadecimal digit behind an unterminated array would be read as
    part of the number. *)
Lemma strtoll16_reads_on :
  strtoll16 (list_ascii_of_string "0200") = 512 /\
  strtoll16 (list_ascii_of_string "0200" ++ list_ascii_of_string "A") = 8202.
Proof. split; vm_compute; reflexivity. Qed.

(** ** Instances *)


Lemma unpack_small_size_or_zero_channel_witness :
  UnpackPlaintextLength digits_behind (Some frame_too_small) 0 13 = 0 /\
  UnpackPlaintextLength digits_behind (Some frame_zero_channel) 0 14 = 14 /\
  client_verdict digits_behind (Some frame_zero_channel) 14 = (false, 0).
Proof.
  split; [| split].
  - apply (proj1 (unpack_small_size_or_zero_channel digits_behind
                    frame_too_small 0 13)).
    vm_compute. discriminate.
  - apply (proj1 (proj2
             (unpack_small_size_or_zero_channel digits_behind
                frame_zero_channel 0 14)));
      [lia | lia | vm_compute; reflexivity | vm_compute; reflexivity].
  - apply (proj2 (proj2
             (unpack_small_size_or_zero_channel digits_behind
                frame_zero_channel 0 14)));
      vm_compute; reflexivity.
Defined.

Lemma length_mismatch_rejected_by_client_witness :
  UnpackPlaintextLength digits_behind (Some frame_wrong_length) 0 14 <> 0 /\
  client_verdict digits_behind (Some frame_wrong_length) 14 = (false, 0).
Proof.
  split.
  - apply (proj1 (length_mismatch_rejected_by_client digits_behind
                    frame_wrong_length 0 14));
      [lia | lia | vm_compute; reflexivity].
  - apply (proj2 (length_mismatch_rejected_by_client digits_behind
                    frame_wrong_length 0 14)).
    vm_compute. discriminate.
Defined.

Lemma handshake_client_verdict_witness :
  HandshakeClient (Some sample_transmission) (Some (UserHandler 0)) plain_world
    = Some (true,
            after_call (EvReadAsync sample_transmission
                          (OnHandshakeClient (UserHandler 0))) plain_world).
Proof.
  exact (proj1 (handshake_client_verdict sample_transmission (UserHandler 0)
                  plain_world digits_behind (Some frame_wrong_length) 14)).
Defined.

Lemma handshake_server_writes_witness :
  HandshakeServer 1024 (sample_draws 510) None 510 1 (Some (UserHandler 0))
    plain_world = Some (false, plain_world) /\
  exists blob,
    Z.of_nat (List.length blob) = 510 /\
    HandshakeServer 1024 (sample_draws 510) (Some sample_transmission) 510 1
      (Some (UserHandler 0)) plain_world
      = Some (true,
              after_call (EvWriteAsync sample_transmission (HeaderBytes blob)
                            0 510 (OnHandshakeServer (UserHandler 0) 1))
                         plain_world).
Proof.
  split.
  - apply (proj1 (handshake_server_writes 1024 (sample_draws 510) None 510 1
                    (Some (UserHandler 0)) plain_world)).
    left. reflexivity.
  - destruct (proj2 (handshake_server_writes 1024 (sample_draws 510)
                       (Some sample_transmission) 510 1
                       (Some (UserHandler 0)) plain_world)
                sample_transmission (UserHandler 0) eq_refl eq_refl
                ltac:(lia) ltac:(lia) ltac:(vm_compute; split; discriminate))
      as (blob & Hlen & _ & Hserver & _).
    exists blob. split; [exact Hlen | exact Hserver].
Defined.

Lemma mss_and_buffer_size_witness :
  exists s',
    Listen None half_connection = Some (false, s') /\
    buffers_ (conn s') = Some 4096 /\
    ECONNECTION_MSS (conn s') = 4096.
Proof.
  eexists. split; [vm_compute; reflexivity |].
  apply (proj1 (proj2 mss_and_buffer_size) None half_connection false);
    [reflexivity | reflexivity | vm_compute; reflexivity].
Defined.

Lemma dispose_at_most_once_witness :
  exists s',
    run [CallListen (Some 5%nat); InboundRead true (-1); CallClose;
         RemoteRead true 0; CallDispose] sample_connection = Some (tt, s') /\
    (fired s' <= 1)%nat /\
    (fired s' = 1%nat -> disposed_ (conn s') = true).
Proof.
  eexists. split; [vm_compute; reflexivity |].
  apply (proj1 dispose_at_most_once
           [CallListen (Some 5%nat); InboundRead true (-1); CallClose;
            RemoteRead true 0; CallDispose] sample_connection);
    [reflexivity | reflexivity | vm_compute; reflexivity].
Defined.


Lemma at_most_one_pending_timer_witness :
  exists s',
    run [CallListen (Some 5%nat); TimerFired 5%nat;
         KeepAlivedWritten sample_transmission true;
         KeepAlivedWritten sample_transmission true]
        sample_connection = Some (tt, s') /\
    (pending_timers s' <= 1)%nat /\ timers_named s' /\
    (disposed_ (conn s') = true -> pending_timers s' = 0%nat).
Proof.
  eexists. split; [vm_compute; reflexivity |].
  apply (proj1 at_most_one_pending_timer
           [CallListen (Some 5%nat); TimerFired 5%nat;
            KeepAlivedWritten sample_transmission true;
            KeepAlivedWritten sample_transmission true]
           sample_connection);
    [reflexivity | vm_compute; reflexivity].
Defined.

Lemma listen_arming_failure_does_not_close_witness :
  exists s',
    Listen (Some 5%nat) half_connection = Some (false, s') /\
    disposed_ (conn s') = false /\
    remote_ (conn s') = Some 5%nat /\
    buffers_ (conn s') = Some 4096 /\
    available_ (conn s') = false /\
    fired s' = fired half_connection.
Proof.
  eexists. split; [vm_compute; reflexivity |].
  apply (listen_arming_failure_does_not_close 5%nat half_connection);
    [reflexivity | reflexivity | vm_compute; reflexivity].
Defined.

(** * Further properties of the code *)

(** ** The packed header, byte by byte *)

Lemma store_app_r (l1 l2 : list ascii) (j : nat) (c : ascii) :
  store (l1 ++ l2) (List.length l1 + j) c = l1 ++ store l2 j c.
Proof.
  induction l1 as [| a l1 IH]; cbn [app List.length Nat.add store].
  - reflexivity.
  - now rewrite IH.
Qed.

Lemma fill_closed (f : nat -> ascii) (n : nat) :
  forall B, (n <= B)%nat ->
    fold_left (fun m i => store m i (f i)) (seq 0 n) (repeat NUL B)
    = map f (seq 0 n) ++ repeat NUL (B - n).
Proof.
  induction n as [| n IH]; intros B HB.
  - cbn [seq fold_left map app]. now rewrite Nat.sub_0_r.
  - rewrite seq_S, fold_left_app, map_app. cbn [fold_left map Nat.add].
    rewrite IH by lia.
    pose proof (store_app_r (map f (seq 0 n)) (repeat NUL (B - n)) 0 (f n))
      as E.
    rewrite length_map, length_seq, Nat.add_0_r in E. rewrite E.
    replace (B - n)%nat with (S (B - S n)) by lia.
    cbn [repeat store]. now rewrite <- app_assoc.
Qed.

Lemma pack_messages_closed (BufferSize : Z) (d : Draws) (channelId : Z)
    (t0 t1 t2 t3 t4 t5 t6 t7 t8 t9 t10 t11 : ascii) :
  14 <= draw_size d <= BufferSize ->
  pack_header (draw_size d) channelId =
    [t0; t1; t2; t3; t4; t5; t6; t7; t8; t9; t10; t11] ->
  pack_messages BufferSize d channelId =
    (wire_blob d channelId ++
       repeat NUL (Z.to_nat BufferSize - Z.to_nat (draw_size d)), 12).
Proof.
  intros Hsize Htext. unfold pack_messages, wire_blob, recased_header.
  rewrite Htext. rewrite fill_closed by lia.
  assert (Hk : exists k, Z.to_nat (draw_size d) = (14 + k)%nat)
    by (exists (Z.to_nat (draw_size d) - 14)%nat; lia).
  destruct Hk as (k & ->).
  replace (14 + k - 14)%nat with k by lia.
  reflexivity.
Qed.

Lemma firstn_exact {A : Type} (l r : list A) :
  firstn (List.length l) (l ++ r) = l.
Proof.
  rewrite firstn_app, Nat.sub_diag, firstn_all. cbn [firstn].
  apply app_nil_r.
Qed.

Lemma wire_blob_length (d : Draws) (channelId : Z) :
  14 <= draw_size d <= 65535 ->
  List.length (wire_blob d channelId) = Z.to_nat (draw_size d).
Proof.
  intros Hs.
  destruct (pack_header_digits (draw_size d) channelId ltac:(lia))
    as (s0 & s1 & s2 & s3 & c0 & c1 & c2 & c3 & c4 & c5 & c6 & c7
        & Htext & _).
  unfold wire_blob, recased_header. rewrite Htext.
  cbn [map List.length combine seq app].
  rewrite length_map, length_seq. lia.
Qed.

Lemma pack_appends_wire_blob (BufferSize : Z) (d : Draws) (stream : Stream)
    (channelId alignment : Z) :
  CanWrite stream = true ->
  14 <= draw_size d <= 65535 -> draw_size d <= BufferSize ->
  PackPlaintextHeaders BufferSize d stream channelId alignment =
    (true, mkStream true (stream_data stream ++ wire_blob d channelId)).
Proof.
  intros Hw Hs HB.
  destruct (pack_header_digits (draw_size d) channelId ltac:(lia))
    as (s0 & s1 & s2 & s3 & c0 & c1 & c2 & c3 & c4 & c5 & c6 & c7
        & Htext & _).
  cbn [map] in Htext.
  unfold PackPlaintextHeaders. rewrite Hw. cbn [negb].
  rewrite (pack_messages_closed BufferSize d channelId _ _ _ _ _ _ _ _ _ _ _ _
             ltac:(lia) Htext).
  change (12 <? 1) with false. cbv iota.
  unfold Stream_Write. rewrite Hw. unfold memcpy_from.
  cbn [Z.to_nat skipn].
  rewrite <- (wire_blob_length d channelId) by lia.
  now rewrite firstn_exact.
Qed.

Lemma wire_blob_digits (d : Draws) (channelId : Z) :
  14 <= draw_size d <= 65535 ->
  exists s0 s1 s2 s3 c0 c1 c2 c3 c4 c5 c6 c7,
    wire_blob d channelId =
      draw_fill d 0 ::
      recase (draw_case d 0) (hex_upper s0) ::
      recase (draw_case d 1) (hex_upper s1) ::
      recase (draw_case d 2) (hex_upper s2) ::
      recase (draw_case d 3) (hex_upper s3) ::
      recase (draw_case d 4) (hex_upper c0) ::
      recase (draw_case d 5) (hex_upper c1) ::
      recase (draw_case d 6) (hex_upper c2) ::
      recase (draw_case d 7) (hex_upper c3) ::
      recase (draw_case d 8) (hex_upper c4) ::
      recase (draw_case d 9) (hex_upper c5) ::
      recase (draw_case d 10) (hex_upper c6) ::
      recase (draw_case d 11) (hex_upper c7) ::
      draw_last d ::
      map (draw_fill d) (seq 14 (Z.to_nat (draw_size d) - 14)) /\
    Forall nibble [s0; s1; s2; s3] /\
    Forall nibble [c0; c1; c2; c3; c4; c5; c6; c7] /\
    fold_left hex_step [s0; s1; s2; s3] 0 = draw_size d /\
    fold_left hex_step [c0; c1; c2; c3; c4; c5; c6; c7] 0 =
      to_uint (Z.lxor channelId (pack_key (draw_size d))).
Proof.
  intros Hs.
  destruct (pack_header_digits (draw_size d) channelId ltac:(lia))
    as (s0 & s1 & s2 & s3 & c0 & c1 & c2 & c3 & c4 & c5 & c6 & c7
        & Htext & Hns & Hnc & Hvs & Hvc).
  exists s0, s1, s2, s3, c0, c1, c2, c3, c4, c5, c6, c7.
  unfold wire_blob, recased_header. rewrite Htext.
  repeat split; assumption.
Qed.

(** The fields of a frame that begins with the thirteen bytes
    [PackPlaintextHeaders] writes first. *)
Lemma packed_prefix_fields (d : Draws) (channelId : Z) :
  14 <= draw_size d <= 65535 ->
  exists head,
    List.length head = 13%nat /\
    (exists tail, wire_blob d channelId = head ++ tail) /\
    forall mem tail,
      stops (behind_len mem) = true ->
      size_field mem (head ++ tail) 0 = draw_size d /\
      (stops (behind_id mem) = true ->
         channel_field mem (head ++ tail) 0 = to_uint channelId) /\
      (forall rest,
         behind_id mem = memcpy_from (head ++ tail) 1 4 ++ rest ->
         stops rest = true ->
         to_int (channel_field mem (head ++ tail) 0) =
           to_int (Z.shiftl (Z.land channelId 65535) 16)).
Proof.
  intros Hs.
  destruct (wire_blob_digits d channelId Hs)
    as (s0 & s1 & s2 & s3 & c0 & c1 & c2 & c3 & c4 & c5 & c6 & c7
        & Hblob & Hns & Hnc & Hvs & Hvc).
  exists [draw_fill d 0;
          recase (draw_case d 0) (hex_upper s0);
          recase (draw_case d 1) (hex_upper s1);
          recase (draw_case d 2) (hex_upper s2);
          recase (draw_case d 3) (hex_upper s3);
          recase (draw_case d 4) (hex_upper c0);
          recase (draw_case d 5) (hex_upper c1);
          recase (draw_case d 6) (hex_upper c2);
          recase (draw_case d 7) (hex_upper c3);
          recase (draw_case d 8) (hex_upper c4);
          recase (draw_case d 9) (hex_upper c5);
          recase (draw_case d 10) (hex_upper c6);
          recase (draw_case d 11) (hex_upper c7)].
  split; [reflexivity |]. split.
  - eexists. rewrite Hblob. reflexivity.
  - intros mem tail Hl. cbn [app].
    destruct (header_fields mem (draw_case d) (draw_fill d 0)
                s0 s1 s2 s3 c0 c1 c2 c3 c4 c5 c6 c7 tail Hns Hnc Hl)
      as (H1 & H2 & H3).
    rewrite Hvs in H1, H2, H3. rewrite Hvc in H2, H3.
    split; [exact H1 |]. split.
    + intros Hi. rewrite (H2 Hi). apply key_cancels_unsigned. lia.
    + intros rest Hid Hrest. rewrite (H3 rest Hid Hrest).
      apply over_read_channel. lia.
Qed.

Lemma low_half_moved (c : Z) :
  (to_int (Z.shiftl (Z.land c 65535) 16) =? 0) = (Z.land c 65535 =? 0).
Proof.
  change 65535 with (Z.ones 16). rewrite Z.land_ones by lia.
  pose proof (Z.mod_pos_bound c (2 ^ 16) ltac:(lia)) as Hb.
  change (2 ^ 16) with 65536 in *.
  rewrite Z.shiftl_mul_pow2 by lia. change (2 ^ 16) with 65536.
  destruct (Z.eqb_spec (c mod 65536) 0) as [E | E].
  - rewrite E. reflexivity.
  - apply Z.eqb_neq. intros H. apply to_int_zero_iff in H.
    rewrite to_uint_small in H by lia. lia.
Qed.

Lemma recased_is_xdigit (r d : Z) :
  nibble d -> isxdigit (recase r (hex_upper d)) = true.
Proof.
  intros Hd. destruct (recase_reads_as r d Hd) as [Hv _].
  unfold isxdigit. now rewrite Hv.
Qed.

(** X1. [PackPlaintextHeaders] returns false and leaves the stream as it
    is when the stream refuses writes.  Otherwise, for a drawn size in
    [14, 65535] that fits the buffer, what it appends is exactly: the
    first random character, twelve hexadecimal digits, the random
    character written over the terminator of [sprintf], and the random
    characters drawn for the indices 14 and up; [size] bytes in all. *)
Theorem pack_wire_format (BufferSize : Z) (d : Draws) (stream : Stream)
    (channelId alignment : Z) :
  (CanWrite stream = false ->
     PackPlaintextHeaders BufferSize d stream channelId alignment
       = (false, stream)) /\
  (CanWrite stream = true ->
   14 <= draw_size d <= 65535 -> draw_size d <= BufferSize ->
     PackPlaintextHeaders BufferSize d stream channelId alignment =
       (true, mkStream true (stream_data stream ++ wire_blob d channelId)) /\
     Z.of_nat (List.length (wire_blob d channelId)) = draw_size d /\
     List.length (recased_header d (pack_header (draw_size d) channelId))
       = 12%nat /\
     Forall (fun c => isxdigit c = true)
            (recased_header d (pack_header (draw_size d) channelId))).
Proof.
  split.
  - intros Hw. unfold PackPlaintextHeaders. now rewrite Hw.
  - intros Hw Hs HB.
    split; [now apply pack_appends_wire_blob |].
    split; [rewrite wire_blob_length by assumption; lia |].
    destruct (pack_header_digits (draw_size d) channelId ltac:(lia))
      as (s0 & s1 & s2 & s3 & c0 & c1 & c2 & c3 & c4 & c5 & c6 & c7
          & Htext & Hns & Hnc & _).
    unfold recased_header. rewrite Htext. split; [reflexivity |].
    cbn [map List.length combine seq fst snd].
    repeat match goal with
           | H : Forall nibble (_ :: _) |- _ => inversion H; subst; clear H
           end.
    repeat (constructor; [now apply recased_is_xdigit |]). constructor.
Qed.

Lemma client_accepts_wire_blob (mem : Adjacent) (d : Draws) (channelId : Z) :
  14 <= draw_size d <= 65535 -> channel_id channelId ->
  stops (behind_len mem) = true -> stops (behind_id mem) = true ->
  client_verdict mem (Some (wire_blob d channelId)) (draw_size d)
    = (true, channelId).
Proof.
  intros Hs [Hr Hnz] Hl Hi.
  destruct (packed_prefix_fields d channelId Hs)
    as (head & _ & (tail & Hblob) & Hfields).
  destruct (Hfields mem tail Hl) as (Hsize & Hchan & _).
  specialize (Hchan Hi). rewrite <- Hblob in Hsize, Hchan.
  rewrite client_verdict_small by (rewrite Hsize; lia).
  rewrite Hsize, Hchan, to_int_to_uint by assumption.
  destruct (Z.leb_spec 13 (draw_size d)); [| lia].
  destruct (Z.ltb_spec 13 (draw_size d)); [| lia].
  rewrite Z.eqb_refl.
  destruct (Z.eqb_spec channelId 0); [contradiction | reflexivity].
Qed.

Lemma client_reads_past_id (mem : Adjacent) (d : Draws) (channelId : Z)
    (rest : list ascii) :
  14 <= draw_size d <= 65535 ->
  stops (behind_len mem) = true ->
  behind_id mem = memcpy_from (wire_blob d channelId) 1 4 ++ rest ->
  stops rest = true ->
  client_verdict mem (Some (wire_blob d channelId)) (draw_size d)
    = if Z.land channelId 65535 =? 0 then (false, 0)
      else (true, to_int (Z.shiftl (Z.land channelId 65535) 16)).
Proof.
  intros Hs Hl Hid Hrest.
  destruct (packed_prefix_fields d channelId Hs)
    as (head & _ & (tail & Hblob) & Hfields).
  destruct (Hfields mem tail Hl) as (Hsize & _ & Hchan).
  rewrite <- Hblob in Hsize, Hchan. specialize (Hchan rest Hid Hrest).
  rewrite client_verdict_small by (rewrite Hsize; lia).
  rewrite Hsize, Hchan, low_half_moved.
  destruct (Z.leb_spec 13 (draw_size d)); [| lia].
  destruct (Z.ltb_spec 13 (draw_size d)); [| lia].
  rewrite Z.eqb_refl. cbn [andb].
  now destruct (Z.land channelId 65535 =? 0).
Qed.

Lemma handshake_server_sends_wire_blob (BufferSize : Z) (d : Draws)
    (t : ITransmission) (h : Handler) (alignment channelId : Z) (w : World) :
  510 <= alignment -> channelId <> 0 ->
  size_drawn_in_range BufferSize d alignment -> draw_size d <= 65535 ->
  HandshakeServer BufferSize d (Some t) alignment channelId (Some h) w =
    Some (answers w (tick w),
          after_call (EvWriteAsync t (HeaderBytes (wire_blob d channelId)) 0
                        (draw_size d) (OnHandshakeServer h channelId)) w).
Proof.
  intros Ha Hc Hr H16. unfold size_drawn_in_range in Hr.
  change (Z.shiftl UINT8_MAX 1) with 510 in Hr.
  unfold HandshakeServer. change (Z.shiftl UINT8_MAX 1) with 510.
  destruct (Z.ltb_spec alignment 510); [lia |].
  destruct (Z.eqb_spec channelId 0); [contradiction |].
  cbn [orb].
  rewrite (pack_appends_wire_blob BufferSize d MemoryStream channelId alignment
             eq_refl) by lia.
  cbn [negb stream_data MemoryStream app].
  unfold GetBuffer, GetPosition. cbn [stream_data].
  rewrite wire_blob_length by lia.
  rewrite Z2Nat.id by lia. reflexivity.
Qed.

(** X2. The handshake from end to end.  For an alignment of 510 or
    more, any channel identifier an [int] other than 0 can hold,
    negative ones included, and a size drawn within bounds and below
    65536, [HandshakeServer] hands one write of [size] bytes to the
    transport.  What the read callback of [HandshakeClient] makes of
    those bytes depends on what lies behind the two arrays of
    [UnpackPlaintextLength], since all twelve characters of the header
    are digits.  When a character that is not a digit follows each
    array, it delivers [(true, channelId)].  When [id] is directly
    followed by [len] and [len] by a character that is not a digit, it
    delivers the low 16 bits of [channelId] moved up by 16, and turns
    the header down when those 16 bits are 0. *)
Theorem handshake_end_to_end (BufferSize : Z) (d : Draws) (t : ITransmission)
    (h : Handler) (alignment channelId : Z) (w : World) :
  510 <= alignment -> channel_id channelId ->
  size_drawn_in_range BufferSize d alignment -> draw_size d <= 65535 ->
  HandshakeServer BufferSize d (Some t) alignment channelId (Some h) w =
    Some (answers w (tick w),
          after_call (EvWriteAsync t (HeaderBytes (wire_blob d channelId)) 0
                        (draw_size d) (OnHandshakeServer h channelId)) w) /\
  (forall mem h',
     stops (behind_len mem) = true -> stops (behind_id mem) = true ->
     on_handshake_client mem h' (Some (wire_blob d channelId)) (draw_size d)
       = invoke h' true channelId) /\
  (forall mem rest h',
     stops (behind_len mem) = true ->
     behind_id mem = memcpy_from (wire_blob d channelId) 1 4 ++ rest ->
     stops rest = true ->
     on_handshake_client mem h' (Some (wire_blob d channelId)) (draw_size d)
       = if Z.land channelId 65535 =? 0 then invoke h' false 0
         else invoke h' true (to_int (Z.shiftl (Z.land channelId 65535) 16))).
Proof.
  intros Ha Hc Hr H16.
  assert (Hs : 14 <= draw_size d <= 65535).
  { unfold size_drawn_in_range in Hr.
    change (Z.shiftl UINT8_MAX 1) with 510 in Hr. lia. }
  split; [| split].
  - apply handshake_server_sends_wire_blob; try assumption. apply Hc.
  - intros mem h' Hl Hi. unfold on_handshake_client.
    now rewrite client_accepts_wire_blob.
  - intros mem rest h' Hl Hid Hrest. unfold on_handshake_client.
    rewrite (client_reads_past_id mem d channelId rest) by assumption.
    now destruct (Z.land channelId 65535 =? 0).
Qed.

(** X3. When the byte behind [len] is not a digit, a frame that carries
    the packed header but is delivered with any other length is turned
    down, whatever lies behind [id]: every prefix of the blob,
    delivered with its own length, and the blob followed by anything,
    delivered with any length but [size], make the read callback of
    [HandshakeClient] deliver [(false, 0)]. *)
Theorem frame_of_other_length_rejected (mem : Adjacent) (d : Draws)
    (channelId : Z) :
  14 <= draw_size d <= 65535 -> stops (behind_len mem) = true ->
  (forall n, n <> draw_size d ->
     client_verdict mem (Some (firstn (Z.to_nat n) (wire_blob d channelId))) n
       = (false, 0)) /\
  (forall extra n, n <> draw_size d ->
     client_verdict mem (Some (wire_blob d channelId ++ extra)) n
       = (false, 0)).
Proof.
  intros Hs Hl.
  destruct (packed_prefix_fields d channelId Hs)
    as (head & Hlen & (tail & Hblob) & Hfields).
  assert (Hrej : forall rest n, n <> draw_size d ->
            client_verdict mem (Some (head ++ rest)) n = (false, 0)).
  { intros rest n Hn. destruct (Hfields mem rest Hl) as (Hsize & _).
    rewrite client_verdict_small by (rewrite Hsize; lia). rewrite Hsize.
    destruct (Z.eqb_spec (draw_size d) n); [congruence |].
    now rewrite andb_false_r. }
  split.
  - intros n Hn. destruct (Z_lt_le_dec n 13) as [Hsmall | Hbig].
    + rewrite client_verdict_fields. cbv zeta.
      destruct (Z.leb_spec 13 n); [lia | reflexivity].
    + rewrite Hblob, firstn_app, Hlen.
      rewrite (firstn_all2 head) by lia.
      now apply Hrej.
  - intros extra n Hn. rewrite Hblob, <- app_assoc. now apply Hrej.
Qed.

(** X4. Whatever lies behind the arrays, [UnpackPlaintextLength]
    returns 0 exactly when the buffer is null, the offset is negative,
    the length is below 13 or the size it reads is 13 or less; the
    characters of the identifier have no part in it.  A value other
    than 0 has the size read in its low half, and a size read below
    2^32 leaves the high half to the channel field. *)
Theorem unpack_returns_zero_exactly (mem : Adjacent)
    (buffer : option (list ascii)) (offset length : Z) :
  let v := UnpackPlaintextLength mem buffer offset length in
  (v = 0 <->
     buffer = None \/ offset < 0 \/ length < 13 \/
     exists buf, buffer = Some buf /\ size_field mem buf offset <= 13) /\
  (v <> 0 ->
     exists buf,
       buffer = Some buf /\
       13 < size_field mem buf offset <= LLONG_MAX /\
       to_int v = to_int (size_field mem buf offset) /\
       (size_field mem buf offset < 2 ^ 32 ->
          to_int (Z.shiftr v 32) = to_int (channel_field mem buf offset))).
Proof.
  intros v. subst v. destruct buffer as [buf |].
  2:{ split; [split; [intros _; now left | reflexivity] |].
      intros H. now contradiction H. }
  pose proof (strtoll16_range
                (memcpy_from (skipn (Z.to_nat offset) buf) 1 4 ++
                 behind_len mem)) as Hb.
  fold (size_field mem buf offset) in Hb.
  rewrite unpack_fields.
  destruct (Z.ltb_spec offset 0) as [Ho | Ho]; cbn [orb].
  { split; [split; [intros _; right; now left | reflexivity] |].
    intros H. now contradiction H. }
  destruct (Z.ltb_spec length 1) as [Hl1 | Hl1]; cbn [orb].
  { split; [split; [intros _; right; right; left; lia | reflexivity] |].
    intros H. now contradiction H. }
  destruct (Z.gtb_spec 13 length) as [Hl | Hl]; cbn [orb].
  { split; [split; [intros _; right; right; left; lia | reflexivity] |].
    intros H. now contradiction H. }
  destruct (Z.geb_spec 13 (size_field mem buf offset)) as [Hs | Hs].
  { split; [split; [| reflexivity] |].
    - intros _. right. right. right. exists buf. split; [reflexivity | lia].
    - intros H. now contradiction H. }
  assert (Hnz : Z.lor (to_int64 (Z.shiftl (channel_field mem buf offset) 32))
                      (size_field mem buf offset) <> 0).
  { intros E. apply Z.lor_eq_0_iff in E. lia. }
  split.
  - split; [intros E; contradiction |].
    intros [H | [H | [H | (b & Hb1 & Hb2)]]]; try discriminate; try lia.
    injection Hb1 as <-. lia.
  - intros _. exists buf. split; [reflexivity |]. split; [lia |].
    split; [apply packed64_low |].
    intros H32. apply packed64_high. lia.
Qed.

(** X5. [HelloAsync] on the sending side returns false without a
    transport; with one it draws a channel identifier and sends a
    header under the alignment 510, so of exactly 510 bytes; if the
    write fails it closes the transport, and otherwise does nothing
    more.  On the receiving side [HelloAsync] returns false and does
    nothing without a transport or a handler, and otherwise starts one
    read; its callback hands the handler the flag alone, and closes the
    transport first exactly when the frame is turned down, as a null
    buffer is. *)
Theorem hello_async_reports_and_closes (BufferSize : Z) (d : Draws)
    (t peer : ITransmission) (cb : nat) (w : World) :
  let channelId := numbers w (tick w) in
  1 <= channelId <= INT_MAX ->
  size_drawn_in_range BufferSize d (Z.shiftl UINT8_MAX 1) ->
  draw_size d = 510 /\
  HelloAsync_outbound BufferSize d None w = Some (false, w) /\
  HelloAsync_outbound BufferSize d (Some t) w =
    Some (answers w (S (tick w)),
          after_call (EvWriteAsync t (HeaderBytes (wire_blob d channelId)) 0 510
                        (OnHandshakeServer (HelloSent t) channelId))
                     (set_tick (S (tick w)) w)) /\
  (forall w1, on_handshake_server (HelloSent t) channelId true w1
              = Some (tt, w1)) /\
  (forall w1, on_handshake_server (HelloSent t) channelId false w1
              = Some (tt, set_trace (trace w1 ++ [EvTransmissionClose t]) w1)) /\
  (forall w2, HelloAsync_inbound None (Some cb) w2 = Some (false, w2)) /\
  (forall w2, HelloAsync_inbound (Some peer) None w2 = Some (false, w2)) /\
  (forall w2, HelloAsync_inbound (Some peer) (Some cb) w2 =
     Some (answers w2 (tick w2),
           after_call (EvReadAsync peer
                         (OnHandshakeClient (HelloReceived peer cb))) w2)) /\
  (forall mem buffer length w2,
     on_handshake_client mem (HelloReceived peer cb) buffer length w2 =
       if fst (client_verdict mem buffer length)
       then Some (tt, set_trace (trace w2 ++ [EvHelloCallback cb true]) w2)
       else Some (tt, set_trace
                        ((trace w2 ++ [EvTransmissionClose peer])
                         ++ [EvHelloCallback cb false]) w2)) /\
  (forall mem length, fst (client_verdict mem None length) = false).
Proof.
  intros channelId Hc Hr.
  assert (Hsize : draw_size d = 510).
  { unfold size_drawn_in_range in Hr.
    change (Z.shiftl UINT8_MAX 1) with 510 in Hr. lia. }
  split; [exact Hsize |]. split; [reflexivity |]. split.
  - unfold HelloAsync_outbound.
    erewrite bind_eq by reflexivity.
    rewrite handshake_server_sends_wire_blob;
      [| change (Z.shiftl UINT8_MAX 1) with 510; lia
       | fold channelId; lia | exact Hr | lia].
    rewrite Hsize. reflexivity.
  - split; [reflexivity |]. split; [reflexivity |]. split; [reflexivity |].
    split; [reflexivity |]. split; [reflexivity |].
    split; [| reflexivity].
    intros mem buffer length w2. unfold on_handshake_client.
    destruct (client_verdict mem buffer length) as [[|] c]; reflexivity.
Qed.

(** X6. [AcceptAsync] on an inbound transport returns false and does
    nothing when the transport, the handler or the measuring function
    is missing, when the alignment is below 512, or when the measured
    channel identifier is 0.  Otherwise it is [HandshakeServer] with the
    measured identifier: one write of the header packed for it.  The
    other three entry points add nothing of their own: [AcceptAsync] on
    an outbound transport and [ConnectAsync] on an inbound one are
    [HandshakeClient], [ConnectAsync] on an outbound one is
    [HandshakeServer], so that it writes under an alignment of 510 and
    up where [AcceptAsync] asks for 512. *)
Theorem accept_async_measures (BufferSize : Z) (d : Draws)
    (inbound : option ITransmission) (alignment : Z)
    (measure : option (ITransmission -> Z)) (handler : option Handler)
    (w : World) :
  (inbound = None \/ handler = None \/ measure = None \/ alignment < 512 ->
     AcceptAsync_inbound BufferSize d inbound alignment measure handler w
       = Some (false, w)) /\
  (forall t f, inbound = Some t -> measure = Some f -> f t = 0 ->
     AcceptAsync_inbound BufferSize d inbound alignment measure handler w
       = Some (false, w)) /\
  (forall t f h,
     inbound = Some t -> measure = Some f -> handler = Some h ->
     512 <= alignment -> channel_id (f t) ->
     size_drawn_in_range BufferSize d alignment -> draw_size d <= 65535 ->
     AcceptAsync_inbound BufferSize d inbound alignment measure handler w =
       Some (answers w (tick w),
             after_call (EvWriteAsync t (HeaderBytes (wire_blob d (f t))) 0
                           (draw_size d) (OnHandshakeServer h (f t))) w)) /\
  (forall peer h' w',
     ConnectAsync_inbound (Some peer) (Some h') w' =
       Some (answers w' (tick w'),
             after_call (EvReadAsync peer (OnHandshakeClient h')) w') /\
     AcceptAsync_outbound (Some peer) (Some h') w' =
       Some (answers w' (tick w'),
             after_call (EvReadAsync peer (OnHandshakeClient h')) w')) /\
  (forall t h channelId,
     510 <= alignment < 512 -> channelId <> 0 ->
     size_drawn_in_range BufferSize d alignment ->
     ConnectAsync_outbound BufferSize d (Some t) alignment channelId (Some h) w
       = Some (answers w (tick w),
               after_call (EvWriteAsync t (HeaderBytes (wire_blob d channelId))
                             0 (draw_size d) (OnHandshakeServer h channelId))
                          w) /\
     AcceptAsync_inbound BufferSize d (Some t) alignment
       (Some (fun _ => channelId)) (Some h) w = Some (false, w)).
Proof.
  split; [| split; [| split; [| split]]].
  - intros H. unfold AcceptAsync_inbound.
    destruct inbound as [t |]; [| reflexivity].
    destruct handler as [h |]; [| reflexivity].
    destruct measure as [f |]; [| reflexivity].
    change (Z.shiftl 1 9) with 512.
    destruct H as [H | [H | [H | H]]]; try discriminate.
    destruct (Z.ltb_spec alignment 512); [reflexivity | lia].
  - intros t f -> -> Hz. unfold AcceptAsync_inbound.
    destruct handler as [h |]; [| reflexivity].
    destruct (alignment <? Z.shiftl 1 9); [reflexivity |].
    now rewrite Hz.
  - intros t f h -> -> -> Ha Hc Hr H16.
    unfold AcceptAsync_inbound. change (Z.shiftl 1 9) with 512.
    destruct (Z.ltb_spec alignment 512); [lia |].
    destruct Hc as [Hrange Hnz].
    destruct (Z.eqb_spec (f t) 0); [contradiction |].
    apply handshake_server_sends_wire_blob; try assumption. lia.
  - intros peer h' w'. split; reflexivity.
  - intros t h channelId Ha Hc Hr. split.
    + unfold ConnectAsync_outbound.
      apply handshake_server_sends_wire_blob; try assumption; [lia |].
      unfold size_drawn_in_range in Hr. lia.
    + unfold AcceptAsync_inbound. change (Z.shiftl 1 9) with 512.
      destruct (Z.ltb_spec alignment 512); [reflexivity | lia].
Qed.

(** ** The member functions in closed form *)

Lemma InboundSocketToRemoteSocket_eq (s : State) :
  InboundSocketToRemoteSocket s =
    if disposed_ (conn s) then Some (false, s)
    else match inbound_ (conn s) with
         | None => Some (false, s)
         | Some socket =>
             Some (answers (world s) (tick (world s)),
                   mkState (conn s)
                     (after_call (EvReadAsync socket OnInboundRead) (world s)))
         end.
Proof.
  unfold InboundSocketToRemoteSocket. rewrite bind_this.
  destruct (disposed_ (conn s)); [reflexivity |].
  now destruct (inbound_ (conn s)).
Qed.

Lemma RemoteSocketToOutboundSocket_eq (s : State) :
  RemoteSocketToOutboundSocket s =
    if disposed_ (conn s) then Some (false, s)
    else match remote_ (conn s), buffers_ (conn s) with
         | Some socket, Some _ =>
             Some (true,
                   mkState (conn s)
                     (set_trace
                        (trace (world s) ++
                         [EvAsyncReadSome socket (ECONNECTION_MSS (conn s))])
                        (world s)))
         | _, _ => Some (false, s)
         end.
Proof.
  unfold RemoteSocketToOutboundSocket. rewrite bind_this.
  destruct (disposed_ (conn s)); [reflexivity |].
  destruct (remote_ (conn s)); [| reflexivity].
  now destruct (buffers_ (conn s)).
Qed.

Lemma SendToRemoteSocket_eq (buffer : bool) (length : Z) (s : State) :
  SendToRemoteSocket buffer length s =
    if disposed_ (conn s) || negb buffer || (length <? 1) then Some (false, s)
    else match remote_ (conn s) with
         | None => Some (false, s)
         | Some socket =>
             Some (true,
                   mkState (conn s)
                     (set_trace (trace (world s) ++ [EvAsyncWrite socket length])
                                (world s)))
         end.
Proof.
  unfold SendToRemoteSocket. rewrite bind_this.
  destruct (disposed_ (conn s) || negb buffer || (length <? 1));
    [reflexivity |].
  now destruct (remote_ (conn s)).
Qed.

Lemma SendToOutboundSocket_eq (buffer : bool) (length : Z) (s : State) :
  SendToOutboundSocket buffer length s =
    if disposed_ (conn s) || negb buffer || (length <? 1) then Some (false, s)
    else match outbound_ (conn s) with
         | None => Some (false, s)
         | Some socket =>
             Some (answers (world s) (tick (world s)),
                   mkState (conn s)
                     (after_call
                        (EvWriteAsync socket ForwardedBytes 0 length
                           OnOutboundWritten) (world s)))
         end.
Proof.
  unfold SendToOutboundSocket. rewrite bind_this.
  destruct (disposed_ (conn s) || negb buffer || (length <? 1));
    [reflexivity |].
  now destruct (outbound_ (conn s)).
Qed.

Lemma KeepAlivedReadCycle_eq (t : option ITransmission) (s : State) :
  KeepAlivedReadCycle t s =
    match t with
    | Some network =>
        if disposed_ (conn s) then Some (false, s)
        else Some (answers (world s) (tick (world s)),
                   mkState (conn s)
                     (after_call
                        (EvReadAsync network (OnKeepAlivedRead network))
                        (world s)))
    | None => Some (false, s)
    end.
Proof.
  unfold KeepAlivedReadCycle. rewrite bind_this.
  destruct t; [| reflexivity]. now destruct (disposed_ (conn s)).
Qed.

Lemma KeepAlivedSendCycle_disposed (t : option ITransmission) (s : State) :
  disposed_ (conn s) = true -> KeepAlivedSendCycle t s = Some (false, s).
Proof.
  intros Hd. unfold KeepAlivedSendCycle. rewrite bind_this, Hd.
  now destruct t.
Qed.

Lemma EstablishRemoteSocket_disposed (s : State) :
  disposed_ (conn s) = true -> EstablishRemoteSocket s = Some (false, s).
Proof.
  intros Hd. unfold EstablishRemoteSocket.
  erewrite bind_eq by (rewrite InboundSocketToRemoteSocket_eq, Hd; reflexivity).
  reflexivity.
Qed.

Lemma Listen_disposed (network : option AsyncTcpSocket) (s : State) :
  disposed_ (conn s) = true -> Listen network s = Some (false, s).
Proof. intros Hd. unfold Listen. now rewrite bind_this, Hd. Qed.

Lemma NewRemoteSocket_refuses (configuration : option AppConfiguration)
    (context : option AsyncContext) (remoteEP : Endpoint) (s : State) :
  configuration = None \/ context = None \/ invalid_endpoint remoteEP = true ->
  NewRemoteSocket configuration context remoteEP s = Some (None, s).
Proof.
  intros H. unfold NewRemoteSocket.
  destruct context as [ctx |]; [| reflexivity].
  destruct configuration as [cfg |]; [| reflexivity].
  destruct H as [H | [H | H]]; try discriminate.
  unfold invalid_endpoint in H.
  destruct (is_unspecified remoteEP || is_multicast remoteEP); [reflexivity |].
  cbn [orb] in H. now rewrite H.
Qed.

Lemma ConnectRemoteSocket_refuses (remoteEP : Endpoint) (s : State) :
  configuration_ (conn s) = None \/ context_of (conn s) = None \/
  invalid_endpoint remoteEP = true ->
  ConnectRemoteSocket remoteEP s = Some (false, s).
Proof.
  intros H. unfold ConnectRemoteSocket. rewrite bind_this.
  erewrite bind_eq by apply GetContext_eq.
  erewrite bind_eq by (apply NewRemoteSocket_refuses; exact H).
  reflexivity.
Qed.

Lemma released_context (s : State) : released s -> context_of (conn s) = None.
Proof.
  intros (_ & Hi & Ho & _). unfold context_of. now rewrite Hi, Ho.
Qed.

Lemma close_when_disposed (ok : bool) (s : State) :
  disposed_ (conn s) = true -> close_unless ok s = Some (tt, s).
Proof.
  intros Hd. destruct ok; [reflexivity |]. now apply Dispose_when_disposed.
Qed.

Lemma released_set_available (v : bool) (s : State) :
  released s -> released (mkState (set_available v (conn s)) (world s)).
Proof. intros H. exact H. Qed.

Lemma released_set_DisposedEvent (v : option nat) (s : State) :
  released s -> released (mkState (set_DisposedEvent v (conn s)) (world s)).
Proof. intros H. exact H. Qed.

(** In a released Connection a call or a completion changes at most the
    fields [available_] and [DisposedEvent]. *)
Lemma perform_released (a : Action) (s s' : State) :
  released s -> perform a s = Some (tt, s') ->
  released s' /\ world s' = world s.
Proof.
  intros Hr H. pose proof Hr as (Hd & Hi & Ho & Hrem & Hb & Hres & Ht & Htm).
  destruct a; cbn [perform] in H.
  - erewrite bind_eq in H by (apply Listen_disposed; exact Hd).
    inversion H; subst. now split.
  - unfold Close in H. rewrite Dispose_when_disposed in H by exact Hd.
    inversion H; subst. now split.
  - rewrite Dispose_when_disposed in H by exact Hd.
    inversion H; subst. now split.
  - inversion H; subst. split; [now apply released_set_DisposedEvent |].
    reflexivity.
  - unfold on_inbound_read in H.
    erewrite bind_eq in H
      by (rewrite SendToRemoteSocket_eq, Hd; reflexivity).
    rewrite close_when_disposed in H by exact Hd.
    inversion H; subst. now split.
  - unfold on_remote_written in H.
    destruct (completed_length ec sz <? 1).
    + unfold Close in H. rewrite Dispose_when_disposed in H by exact Hd.
      inversion H; subst. now split.
    + erewrite bind_eq in H
        by (rewrite InboundSocketToRemoteSocket_eq, Hd; reflexivity).
      rewrite close_when_disposed in H by exact Hd.
      inversion H; subst. now split.
  - unfold on_remote_read in H.
    erewrite bind_eq in H
      by (rewrite SendToOutboundSocket_eq, Hd; reflexivity).
    rewrite close_when_disposed in H by exact Hd.
    inversion H; subst. now split.
  - unfold on_outbound_written in H.
    destruct (negb success).
    + unfold Close in H. rewrite Dispose_when_disposed in H by exact Hd.
      inversion H; subst. now split.
    + erewrite bind_eq in H
        by (rewrite RemoteSocketToOutboundSocket_eq, Hd; reflexivity).
      rewrite close_when_disposed in H by exact Hd.
      inversion H; subst. now split.
  - unfold on_connected in H. destruct (negb ec).
    + erewrite bind_eq in H.
      2:{ erewrite bind_eq by (apply EstablishRemoteSocket_disposed; exact Hd).
          apply update_eq. }
      rewrite bind_this in H.
      rewrite close_when_disposed in H by exact Hd.
      inversion H; subst. split; [now apply released_set_available |].
      reflexivity.
    + erewrite bind_eq in H by reflexivity.
      rewrite bind_this in H.
      rewrite close_when_disposed in H by exact Hd.
      inversion H; subst. now split.
  - unfold on_resolved in H.
    erewrite bind_eq in H.
    2:{ apply ConnectRemoteSocket_refuses. right; left.
        now apply released_context. }
    inversion H; subst. now split.
  - unfold on_keepalived_read in H. destruct (length <? 1).
    + unfold Close in H. rewrite Dispose_when_disposed in H by exact Hd.
      inversion H; subst. now split.
    + erewrite bind_eq in H
        by (rewrite KeepAlivedReadCycle_eq, Hd; reflexivity).
      inversion H; subst. now split.
  - unfold on_keepalived_written in H.
    erewrite bind_eq in H.
    2:{ destruct success;
          [apply KeepAlivedSendCycle_disposed; exact Hd | reflexivity]. }
    rewrite close_when_disposed in H by exact Hd.
    inversion H; subst. now split.
  - erewrite bind_eq in H by (apply env_eq, get_eq).
    cbn [conn world] in H. rewrite Htm in H. cbn [find] in H.
    inversion H; subst. split; [| reflexivity].
    destruct s. exact Hr.
Qed.

Lemma run_released (l : list Action) :
  forall s s', released s -> run l s = Some (tt, s') ->
               released s' /\ world s' = world s.
Proof.
  induction l as [| a l IH]; intros s s' Hr H; cbn [run] in H.
  - inversion H; subst. now split.
  - apply bind_returns in H. destruct H as ([] & s1 & H1 & H).
    destruct (perform_released a s s1 Hr H1) as [Hr1 Hw1].
    destruct (IH s1 s' Hr1 H) as [Hr' Hw']. split; [exact Hr' | congruence].
Qed.

Lemma Dispose_releases (s s1 : State) :
  disposed_ (conn s) = false -> timers_named s ->
  Dispose s = Some (tt, s1) -> released s1.
Proof.
  intros Hd Hn H. rewrite Dispose_returns, Hd in H. inversion H; subst.
  unfold released. cbn [conn world disposed_connection disposed_world
                        disposed_ inbound_ outbound_ remote_ buffers_
                        resolver_ timeout_ timers].
  repeat split.
  unfold timers_named in Hn.
  destruct (timeout_ (conn s)) as [h |] eqn:Et.
  - apply filter_none. intros [h' n] Hin. cbn [fst].
    specialize (Hn h' n Hin). injection Hn as <-. now rewrite Nat.eqb_refl.
  - destruct (timers (world s)) as [| [h n] r]; [reflexivity |].
    specialize (Hn h n (or_introl eq_refl)). discriminate.
Qed.

(** X7. Disposal ends everything.  The first [Dispose] of a Connection
    whose pending timer is the one [timeout_] names leaves it released:
    disposed, every transport, socket, resolver, buffer and timer handle
    null, no timer pending.  From then on no call and no completion, in
    any order, starts a read, a write, a connect or a timer, invokes a
    handler, or asks anything of the environment: the environment stays
    as it is; [Available] answers false and [IsDisposed] true. *)
Theorem nothing_after_disposal :
  (forall s s1,
     disposed_ (conn s) = false -> timers_named s ->
     Dispose s = Some (tt, s1) -> released s1) /\
  (forall (l : list Action) (s s' : State),
     released s -> run l s = Some (tt, s') ->
     released s' /\ world s' = world s /\
     Available s' = Some (false, s') /\ IsDisposed s' = Some (true, s')).
Proof.
  split; [exact Dispose_releases |].
  intros l s s' Hr H. destruct (run_released l s s' Hr H) as [Hr' Hw].
  split; [exact Hr' |]. split; [exact Hw |].
  destruct Hr' as (Hd & _).
  unfold Available, IsDisposed, IsNone. rewrite !bind_this.
  split.
  - destruct (available_ (conn s')); [| reflexivity].
    cbv [bind this get ret]. now rewrite Hd.
  - cbv [bind this get ret]. now rewrite Hd.
Qed.

Lemma completed_length_bounds (ec : bool) (sz : Z) :
  -1 <= completed_length ec sz /\
  (ec = true -> completed_length ec sz = -1) /\
  (ec = false -> 0 <= sz <= INT_MAX -> completed_length ec sz = sz).
Proof.
  unfold completed_length, INT_MAX. split; [lia |]. split.
  - intros ->. reflexivity.
  - intros -> Hs. unfold to_int. rewrite wrap_signed_small by lia. lia.
Qed.

(** X8. A completion that reports a failure does exactly what [Close]
    does and nothing else: a read from the inbound transport that
    delivers no buffer or fewer than one byte, a read from or a write to
    the remote socket that ends in an error or moves no byte, an
    outbound write that fails, a keep-alive read of fewer than one byte,
    a keep-alive write that fails; and so does a connect that ends in an
    error while the Connection is not yet available.  The length of a
    socket completion is never below -1 and is -1 on error. *)
Theorem failed_completion_closes (a : Action) (s : State) :
  (failed_completion a = true -> perform a s = Dispose s) /\
  (available_ (conn s) = false -> perform (Connected true) s = Dispose s) /\
  (forall ec sz, -1 <= completed_length ec sz /\
                 (ec = true -> completed_length ec sz = -1)).
Proof.
  split; [| split].
  - intros Hf. destruct a; cbn [failed_completion] in Hf; try discriminate;
      cbn [perform].
    + unfold on_inbound_read.
      erewrite bind_eq.
      2:{ rewrite SendToRemoteSocket_eq.
          replace (disposed_ (conn s) || negb buffers || (length <? 1))
            with true; [reflexivity |].
          rewrite <- orb_assoc, Hf. now rewrite orb_true_r. }
      reflexivity.
    + unfold on_remote_written. now rewrite Hf.
    + unfold on_remote_read.
      erewrite bind_eq.
      2:{ rewrite SendToOutboundSocket_eq. cbn [negb]. rewrite Hf.
          now rewrite orb_true_r. }
      reflexivity.
    + unfold on_outbound_written. now rewrite Hf.
    + unfold on_keepalived_read. now rewrite Hf.
    + unfold on_keepalived_written.
      destruct success; [discriminate |].
      erewrite bind_eq by reflexivity. reflexivity.
  - intros Ha. cbn [perform]. unfold on_connected. cbn [negb].
    erewrite bind_eq by reflexivity. rewrite bind_this, Ha. reflexivity.
  - intros ec sz. destruct (completed_length_bounds ec sz) as (H1 & H2 & _).
    now split.
Qed.

(** X9. The first [Dispose] closes the inbound transport, then the
    outbound transport, then the remote socket, cancels the resolver,
    clears the timer and only then invokes the [DisposedEvent] handler,
    each step being skipped when the resource is null; it leaves every
    one of these fields null and [disposed_] true, and does not touch
    the identifier, the configuration, [available_] or
    [ECONNECTION_MSS]. *)
Theorem dispose_releases_in_order (s : State) :
  disposed_ (conn s) = false ->
  exists s',
    Dispose s = Some (tt, s') /\
    trace (world s') =
      trace (world s) ++
      opt_event EvTransmissionClose (inbound_ (conn s)) ++
      opt_event EvTransmissionClose (outbound_ (conn s)) ++
      opt_event EvClosesocket (remote_ (conn s)) ++
      opt_event (fun _ => EvResolverCancel) (resolver_ (conn s)) ++
      opt_event EvClearTimeout (timeout_ (conn s)) ++
      opt_event EvDisposedEvent (DisposedEvent (conn s)) /\
    tick (world s') = tick (world s) /\
    disposed_ (conn s') = true /\
    inbound_ (conn s') = None /\ outbound_ (conn s') = None /\
    remote_ (conn s') = None /\ resolver_ (conn s') = None /\
    buffers_ (conn s') = None /\ timeout_ (conn s') = None /\
    DisposedEvent (conn s') = None /\
    Id (conn s') = Id (conn s) /\
    configuration_ (conn s') = configuration_ (conn s) /\
    available_ (conn s') = available_ (conn s) /\
    ECONNECTION_MSS (conn s') = ECONNECTION_MSS (conn s).
Proof.
  intros Hd. eexists. split; [apply Dispose_returns |].
  rewrite Hd. cbn [conn world disposed_connection disposed_world].
  repeat split.
Qed.

(** X10. A resolution that yields no endpoint, or an endpoint that
    [NewRemoteSocket] turns down, or that completes on a Connection
    without context or configuration, changes nothing at all: no socket
    is created, nothing is dialled and the Connection is not closed.
    Whatever the endpoint, the completion of a resolution never
    disposes the Connection nor invokes the [DisposedEvent] handler. *)
Theorem failed_resolution_keeps_connection_open :
  (forall s ep,
     configuration_ (conn s) = None \/ context_of (conn s) = None \/
     invalid_endpoint (resolved_endpoint ep) = true ->
     perform (Resolved ep) s = Some (tt, s)) /\
  (forall s, perform (Resolved None) s = Some (tt, s)) /\
  (forall s ep s',
     disposed_ (conn s) = false -> perform (Resolved ep) s = Some (tt, s') ->
     disposed_ (conn s') = false /\ fired s' = fired s).
Proof.
  split; [| split].
  - intros s ep H. cbn [perform]. unfold on_resolved.
    erewrite bind_eq by (apply ConnectRemoteSocket_refuses; exact H).
    reflexivity.
  - intros s. cbn [perform]. unfold on_resolved.
    erewrite bind_eq
      by (apply ConnectRemoteSocket_refuses; right; right; reflexivity).
    reflexivity.
  - intros s ep s' Hd H. cbn [perform] in H. unfold on_resolved in H.
    apply bind_returns in H. destruct H as (r & s1 & H1 & H).
    apply ret_returns in H. destruct H as [_ ->].
    pose proof (view_ConnectRemoteSocket _ disposed_
                  (fun v n => v = false /\ n = fired s)
                  (resolved_endpoint ep) (fun _ _ => eq_refl)) as Hk.
    exact (Hk s r s1 (conj Hd eq_refl) H1).
Qed.

(** ** Dialling the remote endpoint *)

Lemma NewRemoteSocket_eq (cfg : AppConfiguration) (ctx : AsyncContext)
    (remoteEP : Endpoint) (s : State) :
  invalid_endpoint remoteEP = false ->
  NewRemoteSocket (Some cfg) (Some ctx) remoteEP s =
    let w := world s in
    let socket := next_socket w in
    if negb (answers w (tick w))
    then Some (None, mkState (conn s) (set_tick (S (tick w)) w))
    else
      let opened :=
        set_trace (trace w ++ [EvSocketOpen socket (is_v4 remoteEP)]) w in
      if negb (answers w (S (S (tick w))))
      then Some (None, mkState (conn s) (set_tick (S (S (S (tick w)))) opened))
      else
        Some (Some socket,
              mkState (conn s)
                (set_tick (S (S (S (tick w))))
                   (set_trace
                      (trace w ++
                       [EvSocketOpen socket (is_v4 remoteEP);
                        EvSocketOptions socket (Turbo cfg) (FastOpen cfg)])
                      w))).
Proof.
  intros Hv. unfold invalid_endpoint in Hv.
  apply orb_false_elim in Hv. destruct Hv as [Hv Hhi].
  apply orb_false_elim in Hv. destruct Hv as [Hv Hlo].
  unfold NewRemoteSocket. rewrite Hv, Hlo, Hhi. cbn [orb].
  destruct s as [c [tr an nu te ti tm]]. unfold next_socket.
  cbv [bind env ask fresh emit modify get ret conn world set_tick set_trace
       tick answers trace numbers ToEndPoint timers].
  destruct (an ti); cbn [negb]; [| reflexivity].
  destruct (an (S (S ti))); cbn [negb]; [| reflexivity].
  rewrite <- app_assoc. reflexivity.
Qed.

(** X11. [ConnectRemoteSocket] returns true exactly when the Connection
    has a configuration and a context, the endpoint has a specified,
    non-multicast address and a port in (0, 65535], and the socket can
    be created and opened.  It then stores the new socket in [remote_]
    and has, in this order, opened it for the family of the address,
    set [no_delay] and [fast_open] from the configuration and started
    one [async_connect] to the endpoint.  When it returns false the
    Connection is as before and no connect has been started. *)
Theorem connect_remote_socket_dials (remoteEP : Endpoint) (s : State) :
  exists r s',
    ConnectRemoteSocket remoteEP s = Some (r, s') /\
    (r = true <->
       is_some (configuration_ (conn s)) = true /\
       is_some (context_of (conn s)) = true /\
       invalid_endpoint remoteEP = false /\
       answers (world s) (tick (world s)) = true /\
       answers (world s) (S (S (tick (world s)))) = true) /\
    (r = true ->
       forall cfg, configuration_ (conn s) = Some cfg ->
         conn s' = set_remote (Some (next_socket (world s))) (conn s) /\
         trace (world s') =
           trace (world s) ++
           [EvSocketOpen (next_socket (world s)) (is_v4 remoteEP);
            EvSocketOptions (next_socket (world s)) (Turbo cfg) (FastOpen cfg);
            EvAsyncConnect (next_socket (world s)) remoteEP]) /\
    (r = false ->
       conn s' = conn s /\
       (trace (world s') = trace (world s) \/
        trace (world s') =
          trace (world s) ++
          [EvSocketOpen (next_socket (world s)) (is_v4 remoteEP)])).
Proof.
  destruct (configuration_ (conn s)) as [cfg |] eqn:Hcfg.
  2:{ exists false, s. split.
      - apply ConnectRemoteSocket_refuses. now left.
      - split; [split; [discriminate | intros (H & _); discriminate] |].
        split; [discriminate |]. intros _. split; [reflexivity | now left]. }
  destruct (context_of (conn s)) as [ctx |] eqn:Hctx.
  2:{ exists false, s. split.
      - apply ConnectRemoteSocket_refuses. right. now left.
      - split; [split; [discriminate | intros (_ & H & _); discriminate] |].
        split; [discriminate |]. intros _. split; [reflexivity | now left]. }
  destruct (invalid_endpoint remoteEP) eqn:Hep.
  { exists false, s. split.
    - apply ConnectRemoteSocket_refuses. right. now right.
    - split; [split; [discriminate | intros (_ & _ & H & _); discriminate] |].
      split; [discriminate |]. intros _. split; [reflexivity | now left]. }
  unfold ConnectRemoteSocket. rewrite bind_this.
  erewrite bind_eq by apply GetContext_eq. rewrite Hcfg, Hctx.
  unfold bind at 1. rewrite (NewRemoteSocket_eq cfg ctx remoteEP s Hep).
  cbv zeta.
  destruct (answers (world s) (tick (world s))) eqn:Hmade; cbn [negb].
  2:{ eexists _, _. split; [reflexivity |]. cbn [conn world trace set_tick].
      split; [split; [discriminate | intros (_ & _ & _ & H & _); discriminate] |].
      split; [discriminate |]. intros _. split; [reflexivity | now left]. }
  destruct (answers (world s) (S (S (tick (world s))))) eqn:Hopen; cbn [negb].
  2:{ eexists _, _. split; [reflexivity |].
      cbn [conn world trace set_tick set_trace].
      split; [split; [discriminate | intros (_ & _ & _ & _ & H); discriminate] |].
      split; [discriminate |]. intros _. split; [reflexivity | now right]. }
  eexists _, _. split; [reflexivity |].
  cbn [conn world trace set_tick set_trace].
  split; [split; [intros _; repeat split | reflexivity] |].
  split; [| discriminate].
  intros _ cfg' E. injection E as <-.
  split; [reflexivity |]. now rewrite <- app_assoc.
Qed.

(** ** Arming the pumps *)

(** The environment once both pumps have been armed. *)
Lemma EstablishRemoteSocket_true (s s' : State) :
  EstablishRemoteSocket s = Some (true, s') ->
  exists inbound remote cfg,
    disposed_ (conn s) = false /\
    inbound_ (conn s) = Some inbound /\
    remote_ (conn s) = Some remote /\
    is_some (buffers_ (conn s)) = true /\
    configuration_ (conn s) = Some cfg /\
    answers (world s) (tick (world s)) = true /\
    let armed :=
      mkState (conn s)
        (set_tick (S (tick (world s)))
           (set_trace
              (trace (world s) ++
               [EvReadAsync inbound OnInboundRead;
                EvAsyncReadSome remote (ECONNECTION_MSS (conn s))])
              (world s))) in
    if KeepAlived cfg
    then exists outbound,
           outbound_ (conn s) = Some outbound /\
           answers (world s) (S (tick (world s))) = true /\
           KeepAlivedSendCycle (Some inbound)
             (mkState (conn s)
                (after_call (EvReadAsync outbound (OnKeepAlivedRead outbound))
                   (world armed))) = Some (true, s')
    else s' = armed.
Proof.
  intros H. unfold EstablishRemoteSocket in H.
  apply bind_returns in H. destruct H as (a & s1 & H1 & H).
  rewrite InboundSocketToRemoteSocket_eq in H1.
  destruct (disposed_ (conn s)) eqn:Hd.
  { inversion H1; subst. discriminate. }
  destruct (inbound_ (conn s)) as [inbound |] eqn:Hi.
  2:{ inversion H1; subst. discriminate. }
  inversion H1; subst a s1. clear H1.
  destruct (answers (world s) (tick (world s))) eqn:Ha.
  2:{ discriminate. }
  apply bind_returns in H. destruct H as (b & s2 & H2 & H).
  rewrite RemoteSocketToOutboundSocket_eq in H2. cbn [conn world] in H2.
  rewrite Hd in H2.
  destruct (remote_ (conn s)) as [remote |] eqn:Hr.
  2:{ inversion H2; subst. discriminate. }
  destruct (buffers_ (conn s)) as [buf |] eqn:Hb.
  2:{ inversion H2; subst. discriminate. }
  inversion H2; subst b s2. clear H2.
  rewrite bind_this in H. cbn [conn] in H.
  destruct (configuration_ (conn s)) as [cfg |] eqn:Hc; [| discriminate].
  exists inbound, remote, cfg.
  repeat (split; [reflexivity |]).
  cbv zeta.
  assert (Hw : set_trace
                 ((trace (world s) ++ [EvReadAsync inbound OnInboundRead]) ++
                  [EvAsyncReadSome remote (ECONNECTION_MSS (conn s))])
                 (after_call (EvReadAsync inbound OnInboundRead) (world s))
               = set_tick (S (tick (world s)))
                   (set_trace
                      (trace (world s) ++
                       [EvReadAsync inbound OnInboundRead;
                        EvAsyncReadSome remote (ECONNECTION_MSS (conn s))])
                      (world s))).
  { unfold after_call, set_trace, set_tick. cbn [trace answers numbers
      ToEndPoint tick timers]. now rewrite <- app_assoc. }
  rewrite Hw in H.
  destruct (KeepAlived cfg).
  - apply bind_returns in H. destruct H as (r & s3 & H3 & H).
    rewrite KeepAlivedReadCycle_eq in H3. cbn [conn world] in H3.
    rewrite Hd in H3.
    destruct (outbound_ (conn s)) as [outbound |] eqn:Ho.
    2:{ inversion H3; subst. discriminate. }
    inversion H3; subst r s3. clear H3.
    cbn [answers tick set_tick set_trace] in H.
    destruct (answers (world s) (S (tick (world s)))) eqn:Ha2;
      [| discriminate].
    exists outbound. repeat (split; [reflexivity |]). rewrite Hi in H. exact H.
  - inversion H; subst. reflexivity.
Qed.

Lemma grows_ret {A : Type} (a : A) : grows (ret a).
Proof. intros w r w' H. inversion H; subst. exists []. now rewrite app_nil_r. Qed.

Lemma grows_get : grows (@get World).
Proof. intros w r w' H. inversion H; subst. exists []. now rewrite app_nil_r. Qed.

Lemma grows_bind {A B : Type} (m : M World A) (f : A -> M World B) :
  grows m -> (forall a, grows (f a)) -> grows (bind m f).
Proof.
  intros Hm Hf w b w' H.
  apply bind_returns in H. destruct H as (a & w1 & H1 & H2).
  destruct (Hm w a w1 H1) as (m1 & E1).
  destruct (Hf a w1 b w' H2) as (m2 & E2).
  exists (m1 ++ m2). now rewrite E2, E1, app_assoc.
Qed.

Lemma grows_emit (e : Event) : grows (emit e).
Proof. intros w r w' H. inversion H; subst. now exists [e]. Qed.

Lemma grows_silent (f : World -> World) :
  (forall w, trace (f w) = trace w) -> grows (modify f).
Proof.
  intros Hf w r w' H. inversion H; subst. exists [].
  now rewrite Hf, app_nil_r.
Qed.

Ltac grows_all :=
  repeat first [ apply grows_bind; [| intros ?]
               | apply grows_get | apply grows_ret | apply grows_emit
               | apply grows_silent; reflexivity
               | match goal with
                 | |- grows (if ?b then _ else _) => destruct b
                 end ].

Lemma grows_RandomNext (lo hi : Z) : grows (RandomNext lo hi).
Proof. unfold RandomNext. grows_all. Qed.

Lemma grows_SetTimeout (network : ITransmission) (delay : Z) :
  grows (SetTimeout network delay).
Proof. unfold SetTimeout, ask, fresh. grows_all. Qed.

Lemma grows_ClearTimeout_handle (h : TimerHandle) :
  grows (ClearTimeout_handle h).
Proof. unfold ClearTimeout_handle. grows_all. Qed.

Lemma continues_env {A : Type} (t0 : list Event) (m : M World A) :
  grows m -> preserves (continues t0) (env m).
Proof.
  intros Hm. apply hoare_env. intros c w a w' (more & E) Hr.
  destruct (Hm w a w' Hr) as (m1 & E1).
  exists (more ++ m1). cbn [world] in *. now rewrite E1, E, app_assoc.
Qed.

Lemma continues_update (t0 : list Event) (f : Connection -> Connection) :
  preserves (continues t0) (update f).
Proof. apply hoare_update. intros c w H. exact H. Qed.

Lemma KeepAlivedSendCycle_continues (t0 : list Event)
    (t : option ITransmission) :
  preserves (continues t0) (KeepAlivedSendCycle t).
Proof.
  unfold KeepAlivedSendCycle, GetContext, ClearTimeout.
  repeat first
    [ apply continues_update
    | apply continues_env;
      first [ apply grows_RandomNext | apply grows_SetTimeout
            | apply grows_ClearTimeout_handle ]
    | pres_step ].
Qed.

(** X12. [EstablishRemoteSocket] returns true only if every arming has
    succeeded: the Connection is not disposed, has its inbound
    transport, its remote socket and its buffer, the inbound transport
    has accepted the read of pump A and the remote socket has been given
    the read of pump B, of [ECONNECTION_MSS] bytes.  Without keep-alive
    that is all it has done.  With keep-alive it has also started the
    read that drains the outbound transport, and one timer is pending,
    for the inbound transport and named by [timeout_]. *)
Theorem establish_arms_everything (s s' : State) :
  one_timer s -> EstablishRemoteSocket s = Some (true, s') ->
  exists inbound remote cfg,
    disposed_ (conn s) = false /\
    inbound_ (conn s) = Some inbound /\
    remote_ (conn s) = Some remote /\
    is_some (buffers_ (conn s)) = true /\
    configuration_ (conn s) = Some cfg /\
    (KeepAlived cfg = false ->
       conn s' = conn s /\
       trace (world s') =
         trace (world s) ++
         [EvReadAsync inbound OnInboundRead;
          EvAsyncReadSome remote (ECONNECTION_MSS (conn s))] /\
       timers (world s') = timers (world s)) /\
    (KeepAlived cfg = true ->
       exists outbound h more,
         outbound_ (conn s) = Some outbound /\
         trace (world s') =
           trace (world s) ++
           [EvReadAsync inbound OnInboundRead;
            EvAsyncReadSome remote (ECONNECTION_MSS (conn s));
            EvReadAsync outbound (OnKeepAlivedRead outbound)] ++ more /\
         timers (world s') = [(h, inbound)] /\
         timeout_ (conn s') = Some h).
Proof.
  intros Hone H.
  destruct (EstablishRemoteSocket_true s s' H)
    as (inbound & remote & cfg & Hd & Hi & Hr & Hb & Hc & Ha & Hrest).
  exists inbound, remote, cfg. repeat (split; [assumption |]).
  cbv zeta in Hrest. destruct (KeepAlived cfg).
  - split; [discriminate |]. intros _.
    destruct Hrest as (outbound & Ho & Ha2 & Hk).
    set (s3 := mkState (conn s) _) in Hk.
    assert (Hone3 : one_timer s3) by exact Hone.
    destruct (KeepAlivedSendCycle_schedules _ s3 true s' Hone3 Hk)
      as (_ & Hsched).
    destruct (Hsched eq_refl) as (h & network & E & Htm & Hto).
    injection E as <-.
    assert (Hcont : continues (trace (world s3)) s').
    { apply (KeepAlivedSendCycle_continues (trace (world s3)) (Some inbound) s3 true s'); [| exact Hk].
      exists []. now rewrite app_nil_r. }
    destruct Hcont as (more & Hmore).
    exists outbound, h, more. split; [exact Ho |].
    split; [| split; assumption].
    rewrite Hmore. subst s3. cbn [world trace after_call set_tick set_trace].
    now rewrite <- !app_assoc.
  - split; [| discriminate]. intros _. subst s'.
    cbn [conn world trace timers set_tick set_trace]. repeat split.
Qed.

(** ** The two pumps *)

Lemma completed_length_received (sz : Z) :
  1 <= sz <= INT_MAX ->
  completed_length false sz = sz /\ (completed_length false sz <? 1) = false.
Proof.
  intros Hs. unfold INT_MAX in Hs.
  assert (E : completed_length false sz = sz).
  { unfold completed_length, to_int. rewrite wrap_signed_small by lia. lia. }
  split; [exact E |]. rewrite E. apply Z.ltb_ge. lia.
Qed.

Lemma inbound_read_forwards (length : Z) (remote : AsyncTcpSocket) (s : State) :
  disposed_ (conn s) = false -> remote_ (conn s) = Some remote ->
  1 <= length ->
  perform (InboundRead true length) s =
    Some (tt, mkState (conn s)
                (set_trace (trace (world s) ++ [EvAsyncWrite remote length])
                           (world s))).
Proof.
  intros Hd Hr Hl. cbn [perform]. unfold on_inbound_read.
  erewrite bind_eq.
  2:{ rewrite SendToRemoteSocket_eq, Hd, Hr. cbn [negb orb].
      replace (length <? 1) with false by (symmetry; apply Z.ltb_ge; lia).
      reflexivity. }
  reflexivity.
Qed.

Lemma remote_written_rearms (sz : Z) (inbound : ITransmission) (s : State) :
  disposed_ (conn s) = false -> inbound_ (conn s) = Some inbound ->
  1 <= sz <= INT_MAX -> answers (world s) (tick (world s)) = true ->
  perform (RemoteWritten false sz) s =
    Some (tt, mkState (conn s)
                (after_call (EvReadAsync inbound OnInboundRead) (world s))).
Proof.
  intros Hd Hi Hs Ha. cbn [perform]. unfold on_remote_written.
  destruct (completed_length_received sz Hs) as [_ ->].
  erewrite bind_eq.
  2:{ rewrite InboundSocketToRemoteSocket_eq, Hd, Hi, Ha. reflexivity. }
  reflexivity.
Qed.

Lemma remote_read_forwards (sz : Z) (outbound : ITransmission) (s : State) :
  disposed_ (conn s) = false -> outbound_ (conn s) = Some outbound ->
  1 <= sz <= INT_MAX -> answers (world s) (tick (world s)) = true ->
  perform (RemoteRead false sz) s =
    Some (tt, mkState (conn s)
                (after_call
                   (EvWriteAsync outbound ForwardedBytes 0 sz OnOutboundWritten)
                   (world s))).
Proof.
  intros Hd Ho Hs Ha. cbn [perform]. unfold on_remote_read.
  destruct (completed_length_received sz Hs) as [E1 E2].
  erewrite bind_eq.
  2:{ rewrite SendToOutboundSocket_eq, Hd, Ho, Ha, E2, E1. reflexivity. }
  reflexivity.
Qed.

Lemma outbound_written_rearms (remote : AsyncTcpSocket) (s : State) :
  disposed_ (conn s) = false -> remote_ (conn s) = Some remote ->
  is_some (buffers_ (conn s)) = true ->
  perform (OutboundWritten true) s =
    Some (tt, mkState (conn s)
                (set_trace
                   (trace (world s) ++
                    [EvAsyncReadSome remote (ECONNECTION_MSS (conn s))])
                   (world s))).
Proof.
  intros Hd Hr Hb. cbn [perform]. unfold on_outbound_written. cbn [negb].
  erewrite bind_eq.
  2:{ rewrite RemoteSocketToOutboundSocket_eq, Hd, Hr.
      destruct (buffers_ (conn s)); [reflexivity | discriminate]. }
  reflexivity.
Qed.

(** X13. One turn of each pump on a live Connection, as the requests
    it makes.  A read of the inbound transport that delivers a buffer
    and a length of 1 or more starts one write of that length to the
    remote socket, and the completion of that write starts the next
    read of the inbound transport.  A read of the remote socket that
    delivers a length of 1 or more starts one write of that length to
    the outbound transport, from offset 0, and the completion of that
    write gives the remote socket its next read, of [ECONNECTION_MSS]
    bytes.  Neither turn changes a field of the Connection or a timer.
    The statement is about the lengths and the order of the requests:
    a buffer is known here as null or not null, and which bytes it
    holds is not followed. *)
Theorem pumps_relay_the_length_received (s : State)
    (inbound outbound : ITransmission) (remote : AsyncTcpSocket)
    (received written : Z) :
  disposed_ (conn s) = false ->
  remote_ (conn s) = Some remote ->
  1 <= received <= INT_MAX -> 1 <= written <= INT_MAX ->
  (inbound_ (conn s) = Some inbound ->
   answers (world s) (tick (world s)) = true ->
   exists s',
     run [InboundRead true received; RemoteWritten false written] s =
       Some (tt, s') /\
     conn s' = conn s /\ timers (world s') = timers (world s) /\
     trace (world s') =
       trace (world s) ++
       [EvAsyncWrite remote received; EvReadAsync inbound OnInboundRead]) /\
  (outbound_ (conn s) = Some outbound ->
   is_some (buffers_ (conn s)) = true ->
   answers (world s) (tick (world s)) = true ->
   exists s',
     run [RemoteRead false received; OutboundWritten true] s = Some (tt, s') /\
     conn s' = conn s /\ timers (world s') = timers (world s) /\
     trace (world s') =
       trace (world s) ++
       [EvWriteAsync outbound ForwardedBytes 0 received OnOutboundWritten;
        EvAsyncReadSome remote (ECONNECTION_MSS (conn s))]).
Proof.
  intros Hd Hr Hrec Hwri. split.
  - intros Hi Ha. eexists. split.
    + cbn [run].
      erewrite bind_eq
        by (apply (inbound_read_forwards received remote s Hd Hr); lia).
      erewrite bind_eq
        by (apply (remote_written_rearms written inbound); assumption).
      reflexivity.
    + cbn [conn world after_call set_tick set_trace trace timers].
      rewrite <- app_assoc. repeat split.
  - intros Ho Hb Ha. eexists. split.
    + cbn [run].
      erewrite bind_eq
        by (apply (remote_read_forwards received outbound s Hd Ho Hrec Ha)).
      erewrite bind_eq
        by (apply (outbound_written_rearms remote); assumption).
      reflexivity.
    + cbn [conn world after_call set_tick set_trace trace timers].
      rewrite <- app_assoc. repeat split.
Qed.

(** ** [Listen] is answered once *)

Lemma listened_env (A : Type) (m : M World A) :
  quiet m -> preserves listened (env m).
Proof.
  intros Hq.
  exact (view_quiet bool (fun c => disposed_ c || is_some (buffers_ c))
           (fun v _ => v = true) m Hq).
Qed.

Lemma listened_update (f : Connection -> Connection) :
  (forall c, disposed_ (f c) = disposed_ c /\ buffers_ (f c) = buffers_ c) ->
  preserves listened (update f).
Proof.
  intros Hf.
  apply (view_update bool (fun c => disposed_ c || is_some (buffers_ c))
           (fun v _ => v = true) f).
  intros c. destruct (Hf c) as [-> ->]. reflexivity.
Qed.

Lemma listened_ClearTimeout : preserves listened ClearTimeout.
Proof.
  exact (view_ClearTimeout bool (fun c => disposed_ c || is_some (buffers_ c))
           (fun v _ => v = true) (fun _ _ => eq_refl)).
Qed.

Lemma listened_KeepAlivedSendCycle (t : option ITransmission) :
  preserves listened (KeepAlivedSendCycle t).
Proof.
  exact (view_KeepAlivedSendCycle bool
           (fun c => disposed_ c || is_some (buffers_ c))
           (fun v _ => v = true) (fun _ _ => eq_refl) t).
Qed.

Lemma listened_Dispose : preserves listened Dispose.
Proof.
  intros s a s' _ H. apply Dispose_sets_flag in H.
  unfold listened. now rewrite H.
Qed.

Lemma listened_cancel (h : TimerHandle) :
  preserves listened (env (modify (cancel_timer h))).
Proof.
  exact (view_env bool (fun c => disposed_ c || is_some (buffers_ c))
           (fun v _ => v = true) _ (keeps_fired_cancel h)).
Qed.

Lemma Listen_listened (network : option AsyncTcpSocket) (s : State) :
  listened s -> Listen network s = Some (false, s).
Proof.
  intros H. unfold Listen. rewrite bind_this.
  unfold listened in H. now rewrite H.
Qed.

Lemma perform_listened (a : Action) : preserves listened (perform a).
Proof.
  pose proof listened_env as He.
  pose proof listened_ClearTimeout as Hc.
  pose proof listened_KeepAlivedSendCycle as Hk.
  pose proof listened_Dispose as Hd.
  pose proof (Close_keeps listened Hd) as Hcl.
  pose proof (close_unless_keeps listened Hd) as Hcu.
  pose proof (on_timeout_keeps listened He Hc Hd) as Hto.
  pose proof (EstablishRemoteSocket_keeps listened He Hk) as Hes.
  pose proof (ConnectRemoteSocket_keeps listened He
                (fun v => listened_update (set_remote v)
                            (fun c => conj eq_refl eq_refl))) as Hcr.
  pose proof (SendToRemoteSocket_keeps listened He) as H1.
  pose proof (SendToOutboundSocket_keeps listened He) as H2.
  pose proof (InboundSocketToRemoteSocket_keeps listened He) as H3.
  pose proof (RemoteSocketToOutboundSocket_keeps listened He) as H4.
  pose proof (KeepAlivedReadCycle_keeps listened He) as H5.
  pose proof listened_cancel as H6.
  destruct a; cbn [perform].
  - intros s u s' HP H. rewrite (bind_eq _ _ _ _ _ (Listen_listened network s HP)) in H.
    inversion H; subst. exact HP.
  - exact Hcl.
  - exact Hd.
  - apply listened_update. intros c. now split.
  - unfold on_inbound_read. pres.
  - unfold on_remote_written. pres.
  - unfold on_remote_read. pres.
  - unfold on_outbound_written. pres.
  - unfold on_connected. pres.
    apply listened_update. intros c. now split.
  - unfold on_resolved. pres.
  - unfold on_keepalived_read. pres.
  - unfold on_keepalived_written. pres.
  - pres.
Qed.

Lemma run_listened (l : list Action) : preserves listened (run l).
Proof.
  induction l as [| a l IH]; cbn [run].
  - apply preserves_ret.
  - apply preserves_bind; [apply perform_listened | intros _; exact IH].
Qed.

Lemma Listen_allocates (network : option AsyncTcpSocket) (s : State) (r : bool)
    (s' : State) :
  answers (world s) (tick (world s)) = true -> 0 < ECONNECTION_MSS (conn s) ->
  Listen network s = Some (r, s') -> listened s'.
Proof.
  intros Ha Hm H.
  pose proof listened_env as He.
  pose proof listened_KeepAlivedSendCycle as Hk.
  pose proof (EstablishRemoteSocket_keeps listened He Hk) as Hes.
  pose proof (ConnectRemoteSocket_keeps listened He
                (fun v => listened_update (set_remote v)
                            (fun c => conj eq_refl eq_refl))) as Hcr.
  pose proof (GetContext_keeps listened) as Hgc.
  pose proof (IsNone_keeps listened) as Hin.
  destruct (disposed_ (conn s) || is_some (buffers_ (conn s))) eqn:Hg.
  - rewrite (Listen_listened network s Hg) in H. inversion H; subst. exact Hg.
  - unfold Listen in H. rewrite bind_this, Hg in H.
    apply orb_false_elim in Hg. destruct Hg as [Hd Hb].
    erewrite bind_eq in H.
    2:{ apply env_eq. rewrite make_shared_alloc_returns. reflexivity. }
    unfold allocated in H. rewrite Ha in H.
    replace (0 <? ECONNECTION_MSS (conn s)) with true in H
      by (symmetry; apply Z.ltb_lt; exact Hm).
    cbn [andb] in H.
    erewrite bind_eq in H by apply update_eq.
    cbn [conn world] in H.
    match type of H with
    | ?m ?s0 = _ =>
        assert (Hp : preserves listened m);
        [| apply (Hp s0 r s'); [| exact H] ]
    end.
    + destruct network.
      * pres. all: apply listened_update; intros c; now split.
      * pres. all: try (apply listened_update; intros c; now split).
    + unfold listened. cbn [conn buffers_ set_buffers disposed_].
      rewrite Hd. reflexivity.
Qed.

(** X14. [Listen] does its work once.  A [Listen] that finds the
    Connection live and without buffer, and whose allocation succeeds,
    leaves it with its buffer; from a Connection that has its buffer or
    is disposed, whatever calls and completions follow, in any order,
    the Connection still has its buffer or is disposed, and every later
    [Listen], with or without a socket, returns false and changes
    nothing. *)
Theorem listen_is_answered_once :
  (forall network s r s',
     answers (world s) (tick (world s)) = true ->
     0 < ECONNECTION_MSS (conn s) ->
     Listen network s = Some (r, s') -> listened s') /\
  (forall (l : list Action) (s s' : State),
     listened s -> run l s = Some (tt, s') ->
     listened s' /\
     forall network, Listen network s' = Some (false, s')).
Proof.
  split; [exact Listen_allocates |].
  intros l s s' HP H.
  assert (HP' : listened s') by exact (run_listened l s tt s' HP H).
  split; [exact HP' |]. intros network. now apply Listen_listened.
Qed.

(** ** A Connection that has been armed *)

Lemma EstablishRemoteSocket_fields (s : State) (r : bool) (s' : State) :
  EstablishRemoteSocket s = Some (r, s') ->
  set_timeout None (conn s') = set_timeout None (conn s).
Proof.
  intros H.
  exact (view_EstablishRemoteSocket Connection (set_timeout None)
           (fun v _ => v = set_timeout None (conn s)) (fun _ _ => eq_refl)
           s r s' eq_refl H).
Qed.

Lemma field_of_untimed {V : Type} (f : Connection -> V) (c c' : Connection) :
  (forall x, f (set_timeout None x) = f x) ->
  set_timeout None c' = set_timeout None c -> f c' = f c.
Proof. intros Hf E. rewrite <- (Hf c'), <- (Hf c), E. reflexivity. Qed.

(** X15. A [Listen] with a socket that returns true has found the
    Connection live and without buffer, has adopted the socket as
    [remote_], holds a buffer of [ECONNECTION_MSS] bytes and has set
    [available_]; the transports and the configuration are the ones it
    had, the inbound transport and the configuration being present.
    [Available] then answers true exactly when the Connection also has
    its outbound transport. *)
Theorem listen_with_socket_makes_available (network : AsyncTcpSocket)
    (s s' : State) :
  Listen (Some network) s = Some (true, s') ->
  disposed_ (conn s) = false /\ buffers_ (conn s) = None /\
  disposed_ (conn s') = false /\
  remote_ (conn s') = Some network /\
  buffers_ (conn s') = Some (ECONNECTION_MSS (conn s)) /\
  available_ (conn s') = true /\
  inbound_ (conn s') = inbound_ (conn s) /\
  outbound_ (conn s') = outbound_ (conn s) /\
  configuration_ (conn s') = configuration_ (conn s) /\
  is_some (inbound_ (conn s)) = true /\
  is_some (configuration_ (conn s)) = true /\
  Available s' = Some (is_some (outbound_ (conn s)), s').
Proof.
  intros H. unfold Listen in H. rewrite bind_this in H.
  destruct (disposed_ (conn s)) eqn:Hd; [discriminate |].
  destruct (buffers_ (conn s)) as [b |] eqn:Hb; [discriminate |].
  cbn [is_some orb] in H.
  erewrite bind_eq in H
    by (apply env_eq; rewrite make_shared_alloc_returns; reflexivity).
  erewrite bind_eq in H by apply update_eq.
  erewrite bind_eq in H by apply update_eq.
  cbn [conn world] in H.
  apply bind_returns in H. destruct H as (a & s3 & He & H).
  erewrite bind_eq in H by apply update_eq.
  apply ret_returns in H. destruct H as [<- ->].
  pose proof (EstablishRemoteSocket_fields _ _ _ He) as Ef.
  destruct (EstablishRemoteSocket_true _ _ He)
    as (inbound & remote & cfg & Hd2 & Hi2 & Hr2 & Hb2 & Hc2 & _).
  cbn [conn] in *.
  set (c2 := set_remote (Some network)
               (set_buffers (allocated (world s) (ECONNECTION_MSS (conn s)))
                  (conn s))) in *.
  assert (Hbuf : allocated (world s) (ECONNECTION_MSS (conn s)) =
                 Some (ECONNECTION_MSS (conn s))).
  { change (is_some (allocated (world s) (ECONNECTION_MSS (conn s))) = true)
      in Hb2.
    unfold allocated in *.
    now destruct (answers (world s) (tick (world s)) &&
                  (0 <? ECONNECTION_MSS (conn s))). }
  assert (Fd : disposed_ (conn s3) = false).
  { rewrite (field_of_untimed disposed_ _ _ (fun _ => eq_refl) Ef).
    exact Hd. }
  assert (Fr : remote_ (conn s3) = Some network).
  { now rewrite (field_of_untimed remote_ _ _ (fun _ => eq_refl) Ef). }
  assert (Fb : buffers_ (conn s3) = Some (ECONNECTION_MSS (conn s))).
  { rewrite (field_of_untimed buffers_ _ _ (fun _ => eq_refl) Ef).
    exact Hbuf. }
  assert (Fi : inbound_ (conn s3) = inbound_ (conn s)).
  { now rewrite (field_of_untimed inbound_ _ _ (fun _ => eq_refl) Ef). }
  assert (Fo : outbound_ (conn s3) = outbound_ (conn s)).
  { now rewrite (field_of_untimed outbound_ _ _ (fun _ => eq_refl) Ef). }
  assert (Fc : configuration_ (conn s3) = configuration_ (conn s)).
  { now rewrite (field_of_untimed configuration_ _ _ (fun _ => eq_refl) Ef). }
  change (inbound_ (conn s) = Some inbound) in Hi2.
  change (configuration_ (conn s) = Some cfg) in Hc2.
  cbn [conn set_available disposed_ remote_ buffers_ available_ inbound_
       outbound_ configuration_].
  repeat (split; [first [assumption | reflexivity
                        | now rewrite Hi2 | now rewrite Hc2] |]).
  unfold Available, IsDisposed, IsNone. rewrite !bind_this.
  cbn [conn set_available available_].
  cbv [bind this get ret].
  cbn [conn set_available disposed_ remote_ buffers_ available_ inbound_
       outbound_ configuration_].
  rewrite Fd, Fr, Fb, Fi, Fo, Fc, Hi2, Hc2. cbn [is_some negb orb].
  now destruct (outbound_ (conn s)).
Qed.

(** X16. The completion of a connect settles the Connection: afterwards
    it is available or it is disposed.  When the connect succeeded and
    the Connection is available afterwards, it is live, with its socket
    and its buffer. *)
Theorem connect_completion_settles (ec : bool) (s s' : State) :
  perform (Connected ec) s = Some (tt, s') ->
  (available_ (conn s') = true \/ disposed_ (conn s') = true) /\
  (ec = false -> available_ (conn s') = true ->
   disposed_ (conn s') = false /\ is_some (remote_ (conn s')) = true /\
   is_some (buffers_ (conn s')) = true).
Proof.
  intros H. cbn [perform] in H. unfold on_connected in H.
  apply bind_returns in H. destruct H as ([] & s1 & H1 & H).
  rewrite bind_this in H. unfold close_unless in H.
  destruct (available_ (conn s1)) eqn:Hav.
  - apply ret_returns in H. destruct H as [_ ->].
    split; [now left |]. intros -> _. cbn [negb] in H1.
    apply bind_returns in H1. destruct H1 as (a & s2 & He & H1).
    apply update_returns in H1. subst s1.
    cbn [conn set_available available_] in Hav. subst a.
    pose proof (EstablishRemoteSocket_fields _ _ _ He) as Ef.
    destruct (EstablishRemoteSocket_true _ _ He)
      as (inbound & remote & cfg & Hd & Hi & Hr & Hb & _).
    cbn [conn set_available disposed_ remote_ buffers_].
    rewrite (field_of_untimed disposed_ _ _ (fun _ => eq_refl) Ef).
    rewrite (field_of_untimed remote_ _ _ (fun _ => eq_refl) Ef).
    rewrite (field_of_untimed buffers_ _ _ (fun _ => eq_refl) Ef).
    rewrite Hr. now repeat split.
  - unfold Close in H. pose proof (Dispose_sets_flag _ _ _ H) as Hf.
    split; [now right |]. intros _ Ha.
    rewrite Dispose_returns in H. inversion H as [E]. clear H.
    assert (Ea : available_ (conn s') = available_ (conn s1)).
    { rewrite <- E. now destruct (disposed_ (conn s1)). }
    congruence.
Qed.

(** ** The keep-alive loop *)

Lemma KeepAlivedSendCycle_schedules_first (network : ITransmission)
    (s : State) :
  disposed_ (conn s) = false -> is_some (context_of (conn s)) = true ->
  timeout_ (conn s) = None ->
  answers (world s) (S (tick (world s))) = true ->
  KeepAlivedSendCycle (Some network) s =
    let w := world s in
    let h := S (S (tick w)) in
    Some (true,
          mkState (set_timeout (Some h) (conn s))
            (mkWorld
               (trace w ++ [EvSetTimeout h network (numbers w (tick w))])
               (answers w) (numbers w) (ToEndPoint w) (S h)
               (timers w ++ [(h, network)]))).
Proof.
  intros Hd Hc Ht Ha. unfold KeepAlivedSendCycle.
  rewrite bind_this, Hd.
  erewrite bind_eq by apply GetContext_eq.
  destruct (context_of (conn s)); [| discriminate].
  erewrite bind_eq by (rewrite ClearTimeout_eq, Ht; reflexivity).
  destruct s as [c [tr an nu te ti tm]]. cbn [conn world tick answers] in *.
  cbv [bind env RandomNext SetTimeout ask fresh emit modify get ret update
       conn world set_tick set_trace set_timers tick answers trace numbers
       ToEndPoint timers].
  rewrite Ha. reflexivity.
Qed.

Lemma TimerFired_writes (h : TimerHandle) (network : ITransmission)
    (s : State) :
  disposed_ (conn s) = false ->
  timers (world s) = [(h, network)] -> timeout_ (conn s) = Some h ->
  answers (world s) (tick (world s)) = true ->
  answers (world s) (S (S (tick (world s)))) = true ->
  perform (TimerFired h) s =
    let w := world s in
    Some (tt,
          mkState (set_timeout None (conn s))
            (mkWorld
               (trace w ++
                [EvClearTimeout h;
                 EvWriteAsync network KeepAliveBytes 0 (numbers w (S (tick w)))
                   (OnKeepAlivedWritten network)])
               (answers w) (numbers w) (ToEndPoint w) (S (S (S (tick w))))
               [])).
Proof.
  intros Hd Htm Ht Ha0 Ha2. cbn [perform].
  erewrite bind_eq by (apply env_eq; apply get_eq).
  cbn [conn world]. rewrite Htm. cbn [find fst]. rewrite Nat.eqb_refl.
  erewrite bind_eq by (apply env_eq; reflexivity).
  unfold on_timeout.
  erewrite bind_eq by (rewrite ClearTimeout_eq; cbn [conn]; rewrite Ht;
                       reflexivity).
  destruct s as [c [tr an nu te ti tm]].
  cbn [conn world tick answers timers] in *. subst tm.
  cbv [bind env make_shared_alloc RandomNext WriteAsync ask emit modify get
       ret close_unless cancel_timer conn world set_tick set_trace set_timers
       tick answers trace numbers ToEndPoint timers filter fst negb].
  rewrite Nat.eqb_refl, Ha0. cbn [andb Z.ltb Z.compare negb].
  rewrite Ha2. rewrite <- app_assoc. reflexivity.
Qed.

(** X17. The keep-alive loop sustains itself.  On a live Connection
    with a context whose one pending timer is the one [timeout_] names,
    when the timer fires, the 64 byte buffer is obtained and the
    transport accepts the write, the Connection clears the timer and
    writes, from offset 0, as many keep-alive bytes as [RandomNext]
    drew; when that write has completed with success and the next timer
    can be scheduled, exactly one timer is pending again, for the same
    transport, with the delay [RandomNext] drew, and [timeout_] names
    it.  No other field of the Connection has changed. *)
Theorem keep_alive_loop_sustains_itself (h : TimerHandle)
    (network : ITransmission) (s : State) :
  disposed_ (conn s) = false ->
  is_some (context_of (conn s)) = true ->
  timers (world s) = [(h, network)] -> timeout_ (conn s) = Some h ->
  answers (world s) (tick (world s)) = true ->
  answers (world s) (2 + tick (world s))%nat = true ->
  answers (world s) (4 + tick (world s))%nat = true ->
  exists s',
    run [TimerFired h; KeepAlivedWritten network true] s = Some (tt, s') /\
    conn s' = set_timeout (Some (5 + tick (world s))%nat) (conn s) /\
    timers (world s') = [((5 + tick (world s))%nat, network)] /\
    trace (world s') =
      trace (world s) ++
      [EvClearTimeout h;
       EvWriteAsync network KeepAliveBytes 0
         (numbers (world s) (1 + tick (world s))%nat)
         (OnKeepAlivedWritten network);
       EvSetTimeout (5 + tick (world s))%nat network
         (numbers (world s) (3 + tick (world s))%nat)].
Proof.
  intros Hd Hc Htm Ht Ha0 Ha2 Ha4. eexists. split.
  - cbn [run].
    erewrite bind_eq
      by (apply (TimerFired_writes h network s Hd Htm Ht Ha0 Ha2)).
    cbv zeta. cbn [perform]. unfold on_keepalived_written.
    erewrite bind_eq.
    2:{ erewrite bind_eq.
        2:{ apply KeepAlivedSendCycle_schedules_first.
            - exact Hd.
            - exact Hc.
            - reflexivity.
            - exact Ha4. }
        reflexivity. }
    reflexivity.
  - cbn [conn world trace timers tick numbers app plus].
    split; [| split].
    + now destruct (conn s).
    + reflexivity.
    + now rewrite <- app_assoc.
Qed.

(** ** From [Listen] to a Connection that forwards *)

(** X18. The way of a Connection that dials by name.  On a live
    Connection without buffer and socket, with both transports, a
    context and a configuration that names a host and does not ask for
    keep-alive, when the environment grants every request, [Listen] without a socket takes the buffer,
    creates the resolver and asks for the address; the completion of
    the resolution with an endpoint that can be dialled creates, opens
    and configures the socket and starts the connect; the completion of
    the connect without error starts both pumps and makes the
    Connection available.  Nothing else is asked of the environment. *)
Theorem dial_by_name_makes_available (s : State) (cfg : AppConfiguration)
    (inbound outbound : ITransmission) (ctx : AsyncContext)
    (remoteEP : Endpoint) :
  disposed_ (conn s) = false -> buffers_ (conn s) = None ->
  remote_ (conn s) = None ->
  inbound_ (conn s) = Some inbound -> outbound_ (conn s) = Some outbound ->
  transmission_context inbound = Some ctx ->
  configuration_ (conn s) = Some cfg ->
  Domain cfg = true -> KeepAlived cfg = false ->
  0 < ECONNECTION_MSS (conn s) ->
  invalid_endpoint remoteEP = false ->
  (forall k, (k <= 5)%nat ->
             answers (world s) (k + tick (world s))%nat = true) ->
  exists s',
    run [CallListen None; Resolved (Some remoteEP); Connected false] s =
      Some (tt, s') /\
    conn s' =
      set_available true
        (set_remote (Some (3 + tick (world s))%nat)
           (set_resolver (Some ctx)
              (set_buffers (Some (ECONNECTION_MSS (conn s))) (conn s)))) /\
    Available s' = Some (true, s') /\
    timers (world s') = timers (world s) /\
    trace (world s') =
      trace (world s) ++
      [EvGetAddressByHostName (IP cfg) (Port cfg);
       EvSocketOpen (3 + tick (world s))%nat (is_v4 remoteEP);
       EvSocketOptions (3 + tick (world s))%nat (Turbo cfg) (FastOpen cfg);
       EvAsyncConnect (3 + tick (world s))%nat remoteEP;
       EvReadAsync inbound OnInboundRead;
       EvAsyncReadSome (3 + tick (world s))%nat (ECONNECTION_MSS (conn s))].
Proof.
  intros Hd Hb Hr Hi Ho Hctx Hc Hdom Hka Hmss Hep Hans.
  pose proof (Hans 0%nat ltac:(lia)) as A0.
  pose proof (Hans 1%nat ltac:(lia)) as A1.
  pose proof (Hans 2%nat ltac:(lia)) as A2.
  pose proof (Hans 4%nat ltac:(lia)) as A4.
  pose proof (Hans 5%nat ltac:(lia)) as A5.
  clear Hans.
  apply Z.ltb_lt in Hmss.
  unfold invalid_endpoint in Hep.
  apply orb_false_elim in Hep. destruct Hep as [Hep Hhi].
  apply orb_false_elim in Hep. destruct Hep as [Hep Hlo].
  destruct s as [[id d av cf inb outb rem buf res tmo ev mss]
                   [tr an nu te ti tm]].
  cbn [conn world disposed_ buffers_ remote_ inbound_ outbound_
       configuration_ ECONNECTION_MSS answers tick plus] in *.
  subst d buf rem inb outb cf.
  destruct inbound as [iid ictx]. cbn [transmission_context] in Hctx.
  subst ictx.
  destruct remoteEP as [unspecified multicast v4 port].
  cbn [is_unspecified is_multicast endpoint_port is_v4] in *.
  apply orb_false_elim in Hep. destruct Hep as [-> ->].
  eexists. split.
  - cbv [run perform Listen on_resolved on_connected ConnectRemoteSocket
         NewRemoteSocket EstablishRemoteSocket InboundSocketToRemoteSocket
         RemoteSocketToOutboundSocket GetContext IsNone close_unless
         make_shared_alloc ReadAsync
         this update env ask fresh emit modify get ret bind
         conn world disposed_ buffers_ remote_ inbound_ outbound_
         configuration_ ECONNECTION_MSS available_ resolver_ timeout_
         DisposedEvent Id
         set_buffers set_remote set_resolver set_available
         set_tick set_trace tick answers trace numbers ToEndPoint timers
         is_some orb negb andb transmission_context
         is_unspecified is_multicast endpoint_port is_v4].
    rewrite A0, Hmss. cbv beta iota. rewrite A1. cbv beta iota.
    rewrite Hdom. cbv beta iota.
    rewrite Hlo, Hhi. cbv beta iota.
    rewrite A2. cbv beta iota. rewrite A4. cbv beta iota.
    rewrite A5. cbv beta iota. rewrite Hka. cbv beta iota.
    reflexivity.
  - cbn [conn world trace timers]. split; [reflexivity |].
    split; [reflexivity |]. split; [reflexivity |].
    rewrite <- !app_assoc. reflexivity.
Qed.

(** ** Instances of the further properties *)

Lemma pack_wire_format_witness :
  PackPlaintextHeaders 1024 (sample_draws 600) MemoryStream 1 1024 =
    (true, mkStream true (stream_data MemoryStream ++
                          wire_blob (sample_draws 600) 1)) /\
  Z.of_nat (List.length (wire_blob (sample_draws 600) 1)) =
    draw_size (sample_draws 600) /\
  List.length (recased_header (sample_draws 600)
                 (pack_header (draw_size (sample_draws 600)) 1)) = 12%nat /\
  Forall (fun c => isxdigit c = true)
    (recased_header (sample_draws 600)
       (pack_header (draw_size (sample_draws 600)) 1)).
Proof.
  apply (proj2 (pack_wire_format 1024 (sample_draws 600) MemoryStream 1 1024));
    [reflexivity | cbn; lia | cbn; lia].
Defined.

Lemma handshake_end_to_end_witness :
  HandshakeServer 1024 (sample_draws 600) (Some sample_transmission) 1024 (-7)
    (Some (UserHandler 0)) plain_world =
    Some (answers plain_world (tick plain_world),
          after_call
            (EvWriteAsync sample_transmission
               (HeaderBytes (wire_blob (sample_draws 600) (-7))) 0
               (draw_size (sample_draws 600))
               (OnHandshakeServer (UserHandler 0) (-7))) plain_world) /\
  on_handshake_client terminated_arrays (UserHandler 0)
    (Some (wire_blob (sample_draws 600) (-7))) (draw_size (sample_draws 600))
    = invoke (UserHandler 0) true (-7) /\
  on_handshake_client (id_before_len (wire_blob (sample_draws 600) (-7)))
    (UserHandler 0)
    (Some (wire_blob (sample_draws 600) (-7))) (draw_size (sample_draws 600))
    = invoke (UserHandler 0) true (-458752).
Proof.
  destruct (handshake_end_to_end 1024 (sample_draws 600) sample_transmission
              (UserHandler 0) 1024 (-7) plain_world)
    as (Hserver & Hstop & Hover);
    [lia | unfold channel_id; lia | vm_compute; split; discriminate
    | cbn; lia |].
  split; [exact Hserver |]. split.
  - exact (Hstop terminated_arrays (UserHandler 0) eq_refl eq_refl).
  - exact (Hover (id_before_len (wire_blob (sample_draws 600) (-7))) []
             (UserHandler 0) eq_refl (eq_sym (app_nil_r _)) eq_refl).
Defined.

Lemma frame_of_other_length_rejected_witness :
  client_verdict terminated_arrays
    (Some (firstn (Z.to_nat 20) (wire_blob (sample_draws 600) 1))) 20
    = (false, 0) /\
  client_verdict terminated_arrays
    (Some (wire_blob (sample_draws 600) 1 ++ frame_zero_channel)) 614
    = (false, 0).
Proof.
  assert (H : 14 <= draw_size (sample_draws 600) <= 65535) by (cbn; lia).
  split.
  - apply (proj1 (frame_of_other_length_rejected terminated_arrays
                    (sample_draws 600) 1 H eq_refl) 20).
    cbn. lia.
  - apply (proj2 (frame_of_other_length_rejected terminated_arrays
                    (sample_draws 600) 1 H eq_refl)
             frame_zero_channel 614).
    cbn. lia.
Defined.

Lemma unpack_returns_zero_exactly_witness :
  exists buf,
    Some frame_wrong_length = Some buf /\
    13 < size_field digits_behind buf 0 <= LLONG_MAX /\
    to_int (UnpackPlaintextLength digits_behind (Some frame_wrong_length) 0 14)
      = to_int (size_field digits_behind buf 0) /\
    (size_field digits_behind buf 0 < 2 ^ 32 ->
     to_int (Z.shiftr (UnpackPlaintextLength digits_behind
                         (Some frame_wrong_length) 0 14) 32)
       = to_int (channel_field digits_behind buf 0)).
Proof.
  apply (proj2 (unpack_returns_zero_exactly digits_behind
                  (Some frame_wrong_length) 0 14)).
  vm_compute. discriminate.
Defined.

Lemma hello_async_reports_and_closes_witness :
  draw_size (sample_draws 510) = 510 /\
  HelloAsync_outbound 1024 (sample_draws 510) (Some sample_transmission)
    plain_world =
    Some (answers plain_world (S (tick plain_world)),
          after_call
            (EvWriteAsync sample_transmission
               (HeaderBytes (wire_blob (sample_draws 510) 250)) 0 510
               (OnHandshakeServer (HelloSent sample_transmission) 250))
            (set_tick (S (tick plain_world)) plain_world)).
Proof.
  destruct (hello_async_reports_and_closes 1024 (sample_draws 510)
              sample_transmission (mkTransmission 2 (Some 7%nat)) 0
              plain_world)
    as (H1 & _ & H2 & _).
  - vm_compute. split; discriminate.
  - vm_compute. split; discriminate.
  - split; [exact H1 | exact H2].
Defined.

Lemma accept_async_measures_witness :
  AcceptAsync_inbound 1024 (sample_draws 600) (Some sample_transmission) 1024
    (Some (fun t => Z.of_nat (transmission_id t))) (Some (UserHandler 0))
    plain_world =
    Some (answers plain_world (tick plain_world),
          after_call
            (EvWriteAsync sample_transmission
               (HeaderBytes (wire_blob (sample_draws 600) 1)) 0
               (draw_size (sample_draws 600))
               (OnHandshakeServer (UserHandler 0) 1)) plain_world).
Proof.
  apply (proj1 (proj2 (proj2
           (accept_async_measures 1024 (sample_draws 600)
              (Some sample_transmission) 1024
              (Some (fun t => Z.of_nat (transmission_id t)))
              (Some (UserHandler 0)) plain_world)))
           sample_transmission (fun t => Z.of_nat (transmission_id t))
           (UserHandler 0) eq_refl eq_refl eq_refl).
  - lia.
  - vm_compute. split; [split |]; discriminate.
  - vm_compute. split; discriminate.
  - cbn. lia.
Defined.

Lemma nothing_after_disposal_witness :
  released disposed_sample /\
  exists s',
    run [CallListen None; InboundRead true 5; TimerFired 0%nat;
         Connected false] disposed_sample = Some (tt, s') /\
    released s' /\ world s' = world disposed_sample /\
    Available s' = Some (false, s') /\ IsDisposed s' = Some (true, s').
Proof.
  assert (Hr : released disposed_sample).
  { apply (proj1 nothing_after_disposal sample_connection disposed_sample).
    - reflexivity.
    - intros h n H. destruct H.
    - vm_compute. reflexivity. }
  split; [exact Hr |].
  eexists. split; [vm_compute; reflexivity |].
  apply (proj2 nothing_after_disposal
           [CallListen None; InboundRead true 5; TimerFired 0%nat;
            Connected false] disposed_sample);
    [exact Hr | vm_compute; reflexivity].
Defined.

Lemma failed_completion_closes_witness :
  perform (InboundRead false 5) sample_connection = Dispose sample_connection /\
  perform (RemoteRead true 100) sample_connection = Dispose sample_connection.
Proof.
  split.
  - apply (proj1 (failed_completion_closes (InboundRead false 5)
                    sample_connection)).
    reflexivity.
  - apply (proj1 (failed_completion_closes (RemoteRead true 100)
                    sample_connection)).
    reflexivity.
Defined.

Lemma dispose_releases_in_order_witness :
  exists s',
    Dispose armed_connection = Some (tt, s') /\
    trace (world s') =
      [EvTransmissionClose sample_transmission;
       EvTransmissionClose (mkTransmission 2 (Some 7%nat));
       EvClosesocket 5%nat; EvDisposedEvent 3%nat] /\
    disposed_ (conn s') = true /\ buffers_ (conn s') = None.
Proof.
  destruct (dispose_releases_in_order armed_connection eq_refl)
    as (s' & Hrun & Htrace & _ & Hd & _ & _ & _ & _ & Hb & _).
  exists s'. repeat split; assumption.
Defined.

Lemma failed_resolution_keeps_connection_open_witness :
  perform (Resolved (Some multicast_endpoint)) sample_connection =
    Some (tt, sample_connection).
Proof.
  apply (proj1 failed_resolution_keeps_connection_open sample_connection
           (Some multicast_endpoint)).
  right. right. reflexivity.
Defined.

Lemma connect_remote_socket_dials_witness :
  exists s',
    ConnectRemoteSocket dialled_endpoint sample_connection = Some (true, s') /\
    conn s' = set_remote (Some 1%nat) (conn sample_connection) /\
    trace (world s') =
      [EvSocketOpen 1%nat true; EvSocketOptions 1%nat true false;
       EvAsyncConnect 1%nat dialled_endpoint].
Proof.
  destruct (connect_remote_socket_dials dialled_endpoint sample_connection)
    as (r & s' & Hrun & Hiff & Htrue & _).
  assert (Hr : r = true) by (apply Hiff; repeat split).
  subst r. exists s'. split; [exact Hrun |].
  exact (Htrue eq_refl (sample_configuration 4096 true) eq_refl).
Defined.

Lemma establish_arms_everything_witness :
  exists s' h,
    EstablishRemoteSocket armed_connection = Some (true, s') /\
    timers (world s') = [(h, sample_transmission)] /\
    timeout_ (conn s') = Some h.
Proof.
  eexists.
  match goal with
  | |- exists h, ?run = Some (true, ?s) /\ _ =>
      assert (Hrun : run = Some (true, s)) by (vm_compute; reflexivity)
  end.
  assert (Hone : one_timer armed_connection).
  { split; [cbn; lia |]. split; [intros h n H; destruct H | reflexivity]. }
  destruct (establish_arms_everything armed_connection _ Hone Hrun)
    as (inbound & remote & cfg & _ & Hi & _ & _ & Hc & _ & Hka).
  injection Hc as <-. injection Hi as <-.
  destruct (Hka eq_refl) as (outbound & h & more & _ & _ & Htm & Hto).
  exists h. split; [exact Hrun |]. split; assumption.
Defined.

Lemma pumps_relay_the_length_received_witness :
  exists s',
    run [InboundRead true 100; RemoteWritten false 200] armed_connection =
      Some (tt, s') /\
    conn s' = conn armed_connection /\
    timers (world s') = timers (world armed_connection) /\
    trace (world s') =
      trace (world armed_connection) ++
      [EvAsyncWrite 5%nat 100; EvReadAsync sample_transmission OnInboundRead].
Proof.
  apply (proj1 (pumps_relay_the_length_received armed_connection
                  sample_transmission (mkTransmission 2 (Some 7%nat)) 5%nat
                  100 200 eq_refl eq_refl
                  ltac:(unfold INT_MAX; lia) ltac:(unfold INT_MAX; lia)));
    reflexivity.
Defined.

Lemma listen_is_answered_once_witness :
  exists s',
    run [InboundRead true 5; CallListen None; CallClose] armed_connection =
      Some (tt, s') /\
    listened s' /\
    forall network, Listen network s' = Some (false, s').
Proof.
  eexists. split; [vm_compute; reflexivity |].
  apply (proj2 listen_is_answered_once
           [InboundRead true 5; CallListen None; CallClose] armed_connection);
    [reflexivity | vm_compute; reflexivity].
Defined.

Lemma listen_with_socket_makes_available_witness :
  exists s',
    Listen (Some 5%nat) sample_connection = Some (true, s') /\
    remote_ (conn s') = Some 5%nat /\
    buffers_ (conn s') = Some (ECONNECTION_MSS (conn sample_connection)) /\
    available_ (conn s') = true /\
    Available s' = Some (true, s').
Proof.
  eexists.
  match goal with
  | |- ?run = Some (true, ?s) /\ _ =>
      assert (Hrun : run = Some (true, s)) by (vm_compute; reflexivity)
  end.
  destruct (listen_with_socket_makes_available 5%nat sample_connection _ Hrun)
    as (_ & _ & _ & Hr & Hb & Ha & _ & _ & _ & _ & _ & Hav).
  split; [exact Hrun |]. repeat split; assumption.
Defined.

Lemma connect_completion_settles_witness :
  exists s',
    perform (Connected false) armed_connection = Some (tt, s') /\
    (available_ (conn s') = true \/ disposed_ (conn s') = true).
Proof.
  eexists.
  match goal with
  | |- ?run = Some (tt, ?s) /\ _ =>
      assert (Hrun : run = Some (tt, s)) by (vm_compute; reflexivity)
  end.
  split; [exact Hrun |].
  exact (proj1 (connect_completion_settles false armed_connection _ Hrun)).
Defined.

Lemma keep_alive_loop_sustains_itself_witness :
  exists s',
    run [TimerFired 9%nat; KeepAlivedWritten sample_transmission true]
      ticking_connection = Some (tt, s') /\
    conn s' = set_timeout (Some 5%nat) (conn ticking_connection) /\
    timers (world s') = [(5%nat, sample_transmission)] /\
    trace (world s') =
      [EvClearTimeout 9%nat;
       EvWriteAsync sample_transmission KeepAliveBytes 0 250
         (OnKeepAlivedWritten sample_transmission);
       EvSetTimeout 5%nat sample_transmission 250].
Proof.
  exact (keep_alive_loop_sustains_itself 9%nat sample_transmission
           ticking_connection eq_refl eq_refl eq_refl eq_refl eq_refl eq_refl
           eq_refl).
Defined.

Lemma dial_by_name_makes_available_witness :
  exists s',
    run [CallListen None; Resolved (Some dialled_endpoint); Connected false]
      named_connection = Some (tt, s') /\
    Available s' = Some (true, s') /\
    trace (world s') =
      [EvGetAddressByHostName "example.org" 443;
       EvSocketOpen 3%nat true; EvSocketOptions 3%nat true false;
       EvAsyncConnect 3%nat dialled_endpoint;
       EvReadAsync sample_transmission OnInboundRead;
       EvAsyncReadSome 3%nat 4096].
Proof.
  destruct (dial_by_name_makes_available named_connection named_configuration
              sample_transmission (mkTransmission 2 (Some 7%nat)) 7%nat
              dialled_endpoint eq_refl eq_refl eq_refl eq_refl eq_refl eq_refl
              eq_refl eq_refl eq_refl eq_refl eq_refl (fun _ _ => eq_refl))
    as (s' & Hrun & _ & Hav & _ & Htrace).
  exists s'. repeat split; assumption.
Defined.
